(** * Name matching service: a shallow embedding of the matching core

    The definitions follow the Python sources file by file:
    - [Py]            the Python built-ins the code relies on: slices,
                      [range], the stable [sorted], the insertion-ordered
                      [dict] and [OrderedDict], [round], exceptions;
    - [Matching]      [project/code/matching.py]: [normalize_strict],
                      [char_ngrams];
    - [CodeMatching]  [code/matching.py]: [combined_score] and the padded
                      [char_ngrams];
    - [Engine]        [search_engine.py]: the inverted index,
                      [candidate_ids], [search_explain];
    - [Fuzz]          the two scoring primitives of rapidfuzz, as the
                      specification describes them;
    - [Metrics]       [metrics.py];
    - [LRUCache], [App]  [app.py]: the cache, [compute_tie_break_stats],
                      [run_match], the handler of [GET /match];
    - [Storage]       [storage copy.py]: [build_repository];
    - [Example]       a registry of two records.
    The properties come after the definitions, one module of facts per
    source file.

    Conventions.  A Python [str] is the list of its Unicode code points
    ([N]).  A Python [int] is a [Z].  A Python [float] is modelled by an
    exact rational ([Q]): the arithmetic is exact, [round] rounds the exact
    value, and floats are compared with [Qle_bool] and [Qeq_bool].  A
    raised exception is a value [Raise e] of [result]. *)

From Stdlib Require Import Ascii String QArith Qround Qabs.
From stdpp Require Import gmap list sorting.
From Stdlib Require Import Lia Lqa.

Open Scope Z_scope.

(* ------------------------------------------------------------------ *)
(** ** Python built-ins *)
(* ------------------------------------------------------------------ *)

Module Py.

(** A [str]: the sequence of its code points. *)
Definition str := list N.

(** The code points of an ASCII literal. *)
Fixpoint cp (s : String.string) : str :=
  match s with
  | String.EmptyString => []
  | String.String a r => N_of_ascii a :: cp r
  end.

(** Exceptions raised by the modelled code. *)
Inductive exn :=
| ValueError
| KeyError
| IndexError
| AssertionError
| HTTPException (status_code : Z).

Inductive result (A : Type) :=
| Ok (a : A)
| Raise (e : exn).
Arguments Ok {A} a.
Arguments Raise {A} e.

#[global] Instance result_ret : MRet result := fun A a => Ok a.
#[global] Instance result_bind : MBind result := fun A B k r =>
  match r with
  | Ok a => k a
  | Raise e => Raise e
  end.

(** [len(l)] *)
Definition len {A} (l : list A) : Z := Z.of_nat (length l).

(** [range(k)] *)
Definition range (k : Z) : list Z := map Z.of_nat (seq 0 (Z.to_nat k)).

(** Index normalisation of a slice bound: negative bounds count from the
    end, everything is clamped to [0, len]. *)
Definition slice_bound (n i : Z) : Z :=
  if i <? 0 then Z.max 0 (i + n) else Z.min i n.

(** [l[lo:hi]] *)
Definition slice {A} (l : list A) (lo hi : Z) : list A :=
  let a := slice_bound (len l) lo in
  let b := slice_bound (len l) hi in
  take (Z.to_nat (b - a)) (drop (Z.to_nat a) l).

(** [l[:hi]] *)
Definition slice_to {A} (l : list A) (hi : Z) : list A := slice l 0 hi.

(** The suffix that starts at the first element failing [p]. *)
Fixpoint drop_while {A} (p : A -> bool) (l : list A) : list A :=
  match l with
  | [] => []
  | x :: r => if p x then drop_while p r else l
  end.

(** *** [sorted]: a stable sort driven by the strict comparison [<] *)

Section StableSort.
Context {A : Type} (ltb : A -> A -> bool).

(** [x] goes in front of the first element that is not smaller than it. *)
Fixpoint insert_sorted (x : A) (l : list A) : list A :=
  match l with
  | [] => [x]
  | y :: r => if ltb y x then y :: insert_sorted x r else x :: y :: r
  end.

Fixpoint sorted (l : list A) : list A :=
  match l with
  | [] => []
  | x :: r => insert_sorted x (sorted r)
  end.

(** [may_precede a b]: [b] is not strictly smaller than [a]. *)
Definition may_precede (a b : A) : Prop := ltb b a = false.
End StableSort.

(** *** Insertion-ordered [dict] (also [OrderedDict]) *)

Section Dict.
Context {K V : Type} `{EqDecision K}.

(** [d.get(k)] *)
Fixpoint dict_get (d : list (K * V)) (k : K) : option V :=
  match d with
  | [] => None
  | (k', v) :: r => if decide (k' = k) then Some v else dict_get r k
  end.

(** [d[k] = v]: overwrite in place, or append a new key at the end. *)
Fixpoint dict_set (d : list (K * V)) (k : K) (v : V) : list (K * V) :=
  match d with
  | [] => [(k, v)]
  | (k', v') :: r =>
      if decide (k' = k) then (k', v) :: r else (k', v') :: dict_set r k v
  end.

(** [del d[k]] on a present key; no effect on an absent one. *)
Fixpoint dict_remove (d : list (K * V)) (k : K) : list (K * V) :=
  match d with
  | [] => []
  | (k', v') :: r =>
      if decide (k' = k) then r else (k', v') :: dict_remove r k
  end.

(** [list(d.keys())] *)
Definition dict_keys (d : list (K * V)) : list K := map fst d.

(** [OrderedDict.move_to_end(k)] for a present key. *)
Definition move_to_end (d : list (K * V)) (k : K) : list (K * V) :=
  match dict_get d k with
  | Some v => dict_remove d k ++ [(k, v)]
  | None => d
  end.

(** [OrderedDict.popitem(last=False)] on a non-empty dictionary. *)
Definition popitem_first (d : list (K * V)) : list (K * V) := tail d.
End Dict.

(** [a < b] on floats. *)
Definition Qltb (a b : Q) : bool := negb (Qle_bool b a).

(** *** [round(x, d)]: nearest multiple of [10^-d], halves to even *)

Definition round_half_even (x : Q) : Z :=
  let f := Qfloor x in
  let r := (x - inject_Z f)%Q in
  match (r ?= 1 # 2)%Q with
  | Lt => f
  | Gt => f + 1
  | Eq => if Z.even f then f else f + 1
  end.

Definition round (x : Q) (d : nat) : Q :=
  Qred (inject_Z (round_half_even (x * inject_Z (10 ^ Z.of_nat d))%Q)
        / inject_Z (10 ^ Z.of_nat d))%Q.

End Py.

(* ------------------------------------------------------------------ *)
(** ** matching.py *)
(* ------------------------------------------------------------------ *)

Module Matching.
Import Py.

(** The Unicode database and the regular-expression engine are taken as
    given.  [lower] and [nfkd] act on whole strings (final sigma, canonical
    reordering); [ignorecase_eq p c] says that the pattern letter [p]
    matches the character [c] under [re.IGNORECASE]. *)
Record Unicode := {
  isspace : N -> bool;            (* str.isspace, and \s in a str pattern *)
  lower : str -> str;             (* str.lower *)
  nfkd : str -> str;              (* unicodedata.normalize("NFKD", s) *)
  combining : N -> bool;          (* unicodedata.combining(c) != 0 *)
  ignorecase_eq : N -> N -> bool;
}.

Definition is_ascii_upper (c : N) : bool := ((65 <=? c) && (c <=? 90))%N.
Definition is_ascii_lower (c : N) : bool := ((97 <=? c) && (c <=? 122))%N.
Definition is_ascii_letter (c : N) : bool := is_ascii_upper c || is_ascii_lower c.
Definition ascii_lower (c : N) : N := if is_ascii_upper c then (c + 32)%N else c.

Section Normalize.
Variable U : Unicode.

(** [s.strip()] *)
Definition lstrip (s : str) : str := drop_while (isspace U) s.
Fixpoint rstrip (s : str) : str :=
  match s with
  | [] => []
  | c :: r =>
      match rstrip r with
      | [] => if isspace U c then [] else [c]
      | r' => c :: r'
      end
  end.
Definition strip (s : str) : str := rstrip (lstrip s).

(** [strip_accents]: decompose, then drop the combining marks. *)
Definition strip_accents (s : str) : str :=
  List.filter (fun c => negb (combining U c)) (nfkd U s).

(** [TITLE_PAT = ^(dr|dra|sr|sra|srta|ing|lic|prof)\.?\s+], IGNORECASE. *)
Definition titles : list str :=
  map cp ["dr"; "dra"; "sr"; "sra"; "srta"; "ing"; "lic"; "prof"]%string.

(** A literal matched letter by letter; the unmatched rest is returned. *)
Fixpoint match_literal (p s : str) : option str :=
  match p, s with
  | [], _ => Some s
  | a :: p', c :: s' => if ignorecase_eq U a c then match_literal p' s' else None
  | _ :: _, [] => None
  end.

(** [\s+], greedy: one white space at least, then all that follow. *)
Definition match_spaces (s : str) : option str :=
  match s with
  | c :: r => if isspace U c then Some (lstrip r) else None
  | [] => None
  end.

(** [\.?\s+]: the period is taken when there is one; the matcher
    backtracks to the empty option when [\s+] fails after it. *)
Definition match_tail (s : str) : option str :=
  match s with
  | c :: r =>
      if (c =? 46)%N then
        match match_spaces r with
        | Some t => Some t
        | None => match_spaces s
        end
      else match_spaces s
  | [] => None
  end.

(** The alternatives are tried from left to right. *)
Fixpoint match_title (ts : list str) (s : str) : option str :=
  match ts with
  | [] => None
  | t :: ts' =>
      match match_literal t s ≫= match_tail with
      | Some rest => Some rest
      | None => match_title ts' s
      end
  end.

(** [TITLE_PAT.sub("", s)]: the pattern is anchored, so at most one
    match, at position 0, is removed. *)
Definition title_sub (s : str) : str :=
  match match_title titles s with
  | Some rest => rest
  | None => s
  end.

(** [NON_LETTER.sub(" ", s)] with [NON_LETTER = [^a-zA-Z\s]]. *)
Definition non_letter_sub (s : str) : str :=
  map (fun c => if is_ascii_letter c || isspace U c then c else 32%N) s.

(** [MULTISPACE.sub(" ", s)] with [MULTISPACE = \s+]: every maximal run
    of white space becomes one space.  [in_run] tells that the previous
    character belonged to a run already replaced. *)
Fixpoint multispace_from (in_run : bool) (s : str) : str :=
  match s with
  | [] => []
  | c :: r =>
      if isspace U c then
        if in_run then multispace_from true r else 32%N :: multispace_from true r
      else c :: multispace_from false r
  end.
Definition multispace_sub (s : str) : str := multispace_from false s.

Definition normalize_strict (name : str) : str :=
  let s := lower U (strip name) in
  let s := strip_accents s in
  let s := title_sub s in
  let s := non_letter_sub s in
  let s := strip (multispace_sub s) in
  s.

(** [normalize = normalize_strict] *)
Definition normalize := normalize_strict.

(** The shape of a string whose white space is single spaces only, none
    of them next to another; [after_space] tells that a space precedes. *)
Fixpoint single_spaced (after_space : bool) (s : str) : Prop :=
  match s with
  | [] => True
  | c :: r =>
      if isspace U c then c = 32%N /\ after_space = false /\ single_spaced true r
      else single_spaced false r
  end.
End Normalize.

(** *** The database on Basic Latin and Latin-1 Supplement

    [latin1] agrees with CPython's tables on every code point below
    U+0100, and on the characters those decompose to; it is used to
    evaluate the functions on concrete names. *)

Definition latin1_isspace (c : N) : bool :=
  (((9 <=? c) && (c <=? 13)) || ((28 <=? c) && (c <=? 32))
   || (c =? 133) || (c =? 160))%N.

Definition latin1_lower_char (c : N) : N :=
  if is_ascii_upper c then (c + 32)%N
  else if ((192 <=? c) && (c <=? 222) && negb (c =? 215))%N then (c + 32)%N
  else c.

(** Base letter and combining mark of the precomposed letters
    U+00C0..U+00FF (capital row; the small row is 32 further). *)
Definition latin1_accented : list (N * (N * N)) :=
  [ (192, (65, 768)); (193, (65, 769)); (194, (65, 770)); (195, (65, 771));
    (196, (65, 776)); (197, (65, 778)); (199, (67, 807)); (200, (69, 768));
    (201, (69, 769)); (202, (69, 770)); (203, (69, 776)); (204, (73, 768));
    (205, (73, 769)); (206, (73, 770)); (207, (73, 776)); (209, (78, 771));
    (210, (79, 768)); (211, (79, 769)); (212, (79, 770)); (213, (79, 771));
    (214, (79, 776)); (217, (85, 768)); (218, (85, 769)); (219, (85, 770));
    (220, (85, 776)); (221, (89, 769)) ]%N.

Definition latin1_compat : list (N * list N) :=
  [ (160, [32]); (168, [32; 776]); (170, [97]); (175, [32; 772]);
    (178, [50]); (179, [51]); (180, [32; 769]); (181, [956]);
    (184, [32; 807]); (185, [49]); (186, [111]);
    (188, [49; 8260; 52]); (189, [49; 8260; 50]); (190, [51; 8260; 52]);
    (255, [121; 776]) ]%N.

Definition latin1_nfkd_char (c : N) : list N :=
  match dict_get latin1_compat c with
  | Some d => d
  | None =>
      match dict_get latin1_accented c with
      | Some (b, m) => [b; m]
      | None =>
          match dict_get latin1_accented (c - 32)%N with
          | Some (b, m) => if (224 <=? c)%N then [(b + 32)%N; m] else [c]
          | None => [c]
          end
      end
  end.

Definition latin1_combining (c : N) : bool :=
  ((768 <=? c) && (c <=? 879) && negb (c =? 847))%N.

Definition latin1 : Unicode := {|
  isspace := latin1_isspace;
  lower := map latin1_lower_char;
  nfkd := flat_map latin1_nfkd_char;
  combining := latin1_combining;
  ignorecase_eq := fun p c => (latin1_lower_char c =? p)%N;
|}.

(** What the proofs use of a database: its action on the ASCII letters
    and on the space. *)
Definition letter_or_space (c : N) : bool := is_ascii_letter c || (c =? 32)%N.

Record AsciiLaws (U : Unicode) : Prop := {
  space_isspace : isspace U 32 = true;
  lower_ascii : forall s,
    Forall (fun c => letter_or_space c = true) s -> lower U s = map ascii_lower s;
  nfkd_ascii : forall s,
    Forall (fun c => letter_or_space c = true) s -> nfkd U s = s;
  combining_ascii : forall c, letter_or_space c = true -> combining U c = false;
}.

(** *** N-grams *)

(** [char_ngrams(s, n)]: no padding; the spaces inside [s] are kept. *)
Definition char_ngrams (s : str) (n : Z) : list str :=
  match s with
  | [] => []
  | _ =>
      if len s <=? n then [s]
      else map (fun i => slice s i (i + n)) (range (len s - n + 1))
  end.

(** The grams as the specification words them: the text padded with one
    space on each side, cut into all substrings of length [n]; the padded
    text itself when it is shorter than [n]. *)
Definition padded_ngrams (s : str) (n : Z) : list str :=
  let t := [32%N] ++ s ++ [32%N] in
  if len t <? n then [t]
  else map (fun i => take (Z.to_nat n) (drop (Z.to_nat i) t)) (range (len t - n + 1)).

End Matching.

(* ------------------------------------------------------------------ *)
(** ** The earlier matching module (second [matching.py]) *)
(* ------------------------------------------------------------------ *)

Module CodeMatching.
Import Py.

Section Scoring.
(** [rapidfuzz.fuzz.token_set_ratio] and [rapidfuzz.fuzz.ratio]. *)
Variables token_set_ratio ratio : str -> str -> Q.

(** [combined_score(query_norm, cand_norm, w_token)] *)
Definition combined_score (query_norm cand_norm : str) (w_token : Q) : result Q :=
  if negb (Qle_bool 0 w_token && Qle_bool w_token 1) then Raise ValueError
  else
    let token_score := token_set_ratio query_norm cand_norm in
    let edit_score := ratio query_norm cand_norm in
    Ok (w_token * token_score + (1 - w_token) * edit_score)%Q.
End Scoring.

(** [char_ngrams(text, n)] of this module: the text is padded with one
    space on each side and a set is returned. *)
Definition char_ngrams (text : str) (n : Z) : result (gset str) :=
  if n <=? 0 then Raise ValueError
  else
    let t := [32%N] ++ text ++ [32%N] in
    if len t <? n then Ok {[ t ]}
    else Ok (list_to_set (map (fun i => slice t i (i + n)) (range (len t - n + 1)))).

End CodeMatching.

(* ------------------------------------------------------------------ *)
(** ** search_engine.py *)
(* ------------------------------------------------------------------ *)

Module Engine.
Import Py.

Record NameRecord := {
  id : Z;
  full_name : str;
  normalized_name : str;
}.

Record SearchConfig := {
  ngram_n : Z;
  max_candidates : Z;
}.

Definition default_config : SearchConfig :=
  {| ngram_n := 3; max_candidates := 2000 |}.

Record SearchEngine := {
  config : SearchConfig;
  records_by_id : list (Z * NameRecord);   (* dict, insertion ordered *)
  inverted : gmap str (gset Z);            (* defaultdict(set) *)
}.

(** [inverted.get(g, set())] *)
Definition posting (inv : gmap str (gset Z)) (g : str) : gset Z :=
  default ∅ (inv !! g).

(** [self.inverted[ng].add(rid)] *)
Definition inverted_add (inv : gmap str (gset Z)) (ng : str) (rid : Z)
  : gmap str (gset Z) :=
  <[ ng := posting inv ng ∪ {[ rid ]} ]> inv.

(** One turn of the loop of [_build_index]. *)
Definition index_record (e : SearchEngine) (rec : NameRecord) : SearchEngine :=
  {| config := config e;
     records_by_id := dict_set (records_by_id e) (id rec) rec;
     inverted :=
       foldl (fun inv ng => inverted_add inv ng (id rec)) (inverted e)
             (Matching.char_ngrams (normalized_name rec) (ngram_n (config e))) |}.

(** [_build_index()]: the loop over [self.repo.iter_records()]. *)
Definition _build_index (e : SearchEngine) (repo : list NameRecord) : SearchEngine :=
  foldl index_record e repo.

(** [SearchEngine(repo, config)]: [__init__], which ends with
    [_build_index]. *)
Definition new_engine (repo : list NameRecord) (cfg : SearchConfig) : SearchEngine :=
  _build_index {| config := cfg; records_by_id := []; inverted := ∅ |} repo.

(** The union of the posting lists of the grams. *)
Definition union_postings (e : SearchEngine) (grams : list str) : gset Z :=
  foldl (fun acc g => acc ∪ posting (inverted e) g) ∅ grams.

(** [candidate_ids(query_norm)].  [list(set)] enumerates the set in an
    order of the interpreter's choosing; [elements] stands for it. *)
Definition candidate_ids (e : SearchEngine) (query_norm : str) : list Z :=
  let grams := Matching.char_ngrams query_norm (ngram_n (config e)) in
  let cands := union_postings e grams in
  if decide (cands = ∅) then dict_keys (records_by_id e)
  else if Z.of_nat (size cands) >? max_candidates (config e)
       then slice_to (sorted Z.ltb (elements cands)) (max_candidates (config e))
       else elements cands.

(** An entry of [scored] while the raw scores are still attached. *)
Record Scored := {
  s_id : Z;
  s_name : str;
  similarity_raw : Q;
  token_raw : Q;
  edit_raw : Q;
  s_similarity : Q;
  s_token_score : Q;
  s_edit_score : Q;
  s_w_token : Q;
}.

(** An entry of the returned list, after the three [pop]s. *)
Record Match := {
  m_id : Z;
  m_name : str;
  similarity : Q;
  token_score : Q;
  edit_score : Q;
  w_token : Q;
}.

Definition pop_raw (m : Scored) : Match :=
  {| m_id := s_id m; m_name := s_name m; similarity := s_similarity m;
     token_score := s_token_score m; edit_score := s_edit_score m;
     w_token := s_w_token m |}.

(** The sort key [(-sim, -token, -edit, id)] and the order of tuples:
    the first component that differs decides. *)
Definition sort_key (m : Scored) : Q * Q * Q * Z :=
  ((- similarity_raw m)%Q, (- token_raw m)%Q, (- edit_raw m)%Q, s_id m).

Definition key_ltb (a b : Q * Q * Q * Z) : bool :=
  let '(a1, a2, a3, a4) := a in
  let '(b1, b2, b3, b4) := b in
  if negb (Qeq_bool a1 b1) then Qltb a1 b1
  else if negb (Qeq_bool a2 b2) then Qltb a2 b2
  else if negb (Qeq_bool a3 b3) then Qltb a3 b3
  else a4 <? b4.

Definition scored_ltb (a b : Scored) : bool := key_ltb (sort_key a) (sort_key b).

(** The order of the keys as a proposition. *)
Definition key_lt (a b : Q * Q * Q * Z) : Prop :=
  let '(a1, a2, a3, a4) := a in
  let '(b1, b2, b3, b4) := b in
  (a1 < b1 \/ a1 == b1 /\
    (a2 < b2 \/ a2 == b2 /\
      (a3 < b3 \/ a3 == b3 /\ inject_Z a4 < inject_Z b4)))%Q.


(** The engine state reached from [recs]: the records by id, and the
    posting lists, which hold the ids of the records having the gram. *)
Definition indexes (recs : list NameRecord) (e : SearchEngine) : Prop :=
  NoDup (dict_keys (records_by_id e))
  /\ (forall rid rec, dict_get (records_by_id e) rid = Some rec ->
        rec ∈ recs /\ id rec = rid)
  /\ (forall rec, rec ∈ recs -> is_Some (dict_get (records_by_id e) (id rec)))
  /\ (forall g rid, rid ∈ posting (inverted e) g <->
        exists rec, rec ∈ recs /\ id rec = rid
          /\ g ∈ Matching.char_ngrams (normalized_name rec) (ngram_n (config e))).

Section Search.
(** [rapidfuzz.fuzz.token_set_ratio] and [rapidfuzz.fuzz.ratio]. *)
Variables token_set_ratio ratio : str -> str -> Q.
Variable e : SearchEngine.

(** The body of the loop over [cand_ids]: [records_by_id[rid]] raises
    [KeyError] on an unknown id; a candidate under the threshold adds
    nothing. *)
Definition score_candidate (query_norm : str) (threshold w : Q) (rid : Z)
  : result (list Scored) :=
  match dict_get (records_by_id e) rid with
  | None => Raise KeyError
  | Some rec =>
      let token_score_raw := token_set_ratio query_norm (normalized_name rec) in
      let edit_score_raw := ratio query_norm (normalized_name rec) in
      let combined_raw := (w * token_score_raw + (1 - w) * edit_score_raw)%Q in
      if Qle_bool threshold combined_raw then
        Ok [ {| s_id := id rec; s_name := full_name rec;
                similarity_raw := combined_raw;
                token_raw := token_score_raw;
                edit_raw := edit_score_raw;
                s_similarity := round combined_raw 2;
                s_token_score := round token_score_raw 2;
                s_edit_score := round edit_score_raw 2;
                s_w_token := round w 3 |} ]
      else Ok []
  end.

Fixpoint score_all (query_norm : str) (threshold w : Q) (cand_ids : list Z)
  : result (list Scored) :=
  match cand_ids with
  | [] => Ok []
  | rid :: rest =>
      m ← score_candidate query_norm threshold w rid;
      ms ← score_all query_norm threshold w rest;
      Ok (m ++ ms)
  end.

(** [search_explain(query_norm, threshold, limit, w_token)] *)
Definition search_explain (query_norm : str) (threshold : Q) (limit : Z) (w : Q)
  : result (list Match * Z) :=
  let cand_ids := candidate_ids e query_norm in
  let candidate_count := len cand_ids in
  scored ← score_all query_norm threshold w cand_ids;
  let scored := sorted scored_ltb scored in
  let scored := map pop_raw scored in
  Ok (slice_to scored limit, candidate_count).

(** *** The ranking as the specification words it

    The raw scores are computed and filtered, the list is sorted on the
    raw scores, and only then are the scores rounded for display. *)

(** A candidate with its unrounded scores. *)
Record Raw := {
  r_id : Z;
  r_name : str;
  r_similarity : Q;
  r_token : Q;
  r_edit : Q;
}.

Definition raw_key (r : Raw) : Q * Q * Q * Z :=
  ((- r_similarity r)%Q, (- r_token r)%Q, (- r_edit r)%Q, r_id r).

Definition raw_ltb (a b : Raw) : bool := key_ltb (raw_key a) (raw_key b).

Definition raw_candidate (query_norm : str) (threshold w : Q) (rid : Z)
  : result (list Raw) :=
  match dict_get (records_by_id e) rid with
  | None => Raise KeyError
  | Some rec =>
      let t := token_set_ratio query_norm (normalized_name rec) in
      let d := ratio query_norm (normalized_name rec) in
      let c := (w * t + (1 - w) * d)%Q in
      if Qle_bool threshold c then
        Ok [ {| r_id := id rec; r_name := full_name rec;
                r_similarity := c; r_token := t; r_edit := d |} ]
      else Ok []
  end.

Fixpoint raw_all (query_norm : str) (threshold w : Q) (cand_ids : list Z)
  : result (list Raw) :=
  match cand_ids with
  | [] => Ok []
  | rid :: rest =>
      m ← raw_candidate query_norm threshold w rid;
      ms ← raw_all query_norm threshold w rest;
      Ok (m ++ ms)
  end.

(** Rounding for display. *)
Definition display (w : Q) (r : Raw) : Match :=
  {| m_id := r_id r; m_name := r_name r;
     similarity := round (r_similarity r) 2;
     token_score := round (r_token r) 2;
     edit_score := round (r_edit r) 2;
     w_token := round w 3 |}.

Definition search_explain_spec (query_norm : str) (threshold : Q) (limit : Z) (w : Q)
  : result (list Match * Z) :=
  let cand_ids := candidate_ids e query_norm in
  raws ← raw_all query_norm threshold w cand_ids;
  let ranked := sorted raw_ltb raws in
  Ok (slice_to (map (display w) ranked) limit, len cand_ids).

(** [shows w m r]: the entry [m] of [scored] displays the raw candidate
    [r] and is sorted on its key. *)
Definition shows (w : Q) (m : Scored) (r : Raw) : Prop :=
  pop_raw m = display w r /\ sort_key m = raw_key r.

(** What [search_explain] attaches to an entry of [scored]. *)
Definition scored_for (query_norm : str) (threshold w : Q)
    (recs : list NameRecord) (m : Scored) : Prop :=
  exists rec, rec ∈ recs
    /\ s_id m = id rec /\ s_name m = full_name rec
    /\ token_raw m = token_set_ratio query_norm (normalized_name rec)
    /\ edit_raw m = ratio query_norm (normalized_name rec)
    /\ similarity_raw m = (w * token_raw m + (1 - w) * edit_raw m)%Q
    /\ Qle_bool threshold (similarity_raw m) = true
    /\ s_similarity m = round (similarity_raw m) 2
    /\ s_token_score m = round (token_raw m) 2
    /\ s_edit_score m = round (edit_raw m) 2
    /\ s_w_token m = round w 3.
End Search.

End Engine.

(* ------------------------------------------------------------------ *)
(** ** The two scoring primitives of rapidfuzz *)
(* ------------------------------------------------------------------ *)

Module Fuzz.
Import Py.

(** Length of a longest common subsequence: the number of matched
    characters of the alignment. *)
Fixpoint lcs (a b : str) : nat :=
  match a with
  | [] => O
  | x :: a' =>
      (fix inner (b : str) : nat :=
         match b with
         | [] => O
         | y :: b' =>
             if (x =? y)%N then S (lcs a' b')
             else Nat.max (lcs a' b) (inner b')
         end) b
  end.

(** Modelled from the spec: [fuzz.ratio] of rapidfuzz, an external
    library; the edit similarity is [200 * matched / (len(A) + len(B))],
    which lies in [0, 100].  Two empty strings are identical and score 100,
    as in the library. *)
Definition ratio (a b : str) : Q :=
  if len a + len b =? 0 then 100
  else Qred (inject_Z (200 * Z.of_nat (lcs a b)) / inject_Z (len a + len b))%Q.

(** [s.split()] on white space. *)
Fixpoint split_from (cur : str) (s : str) : list str :=
  match s with
  | [] => match cur with [] => [] | _ => [reverse cur] end
  | c :: r =>
      if Matching.latin1_isspace c then
        match cur with
        | [] => split_from [] r
        | _ => reverse cur :: split_from [] r
        end
      else split_from (c :: cur) r
  end.
Definition split (s : str) : list str := split_from [] s.

(** [" ".join(tokens)] *)
Fixpoint join (tokens : list str) : str :=
  match tokens with
  | [] => []
  | [t] => t
  | t :: r => t ++ 32%N :: join r
  end.

(** The order of strings: code point by code point. *)
Fixpoint str_ltb (a b : str) : bool :=
  match a, b with
  | [], [] => false
  | [], _ :: _ => true
  | _ :: _, [] => false
  | x :: a', y :: b' => if (x <? y)%N then true else if (y <? x)%N then false else str_ltb a' b'
  end.

Definition Qmax3 (a b c : Q) : Q :=
  let m := if Qle_bool a b then b else a in
  if Qle_bool m c then c else m.

(** Modelled from the spec: [fuzz.token_set_ratio] of rapidfuzz.  Both
    strings are split into token sets; from the sorted intersection and
    the two sorted differences three strings are built, and the largest
    of the three pairwise ratios is the score.  A string without tokens
    scores 0, as in the library. *)
Definition token_set_ratio (a b : str) : Q :=
  let ta := remove_dups (split a) in
  let tb := remove_dups (split b) in
  match ta, tb with
  | [], _ | _, [] => 0
  | _, _ =>
      let sect := sorted str_ltb (List.filter (fun t => bool_decide (t ∈ tb)) ta) in
      let ab := sorted str_ltb (List.filter (fun t => negb (bool_decide (t ∈ tb))) ta) in
      let ba := sorted str_ltb (List.filter (fun t => negb (bool_decide (t ∈ ta))) tb) in
      let t0 := join sect in
      let t1 := join (sect ++ ab) in
      let t2 := join (sect ++ ba) in
      Qmax3 (ratio t0 t1) (ratio t0 t2) (ratio t1 t2)
  end.

End Fuzz.

(* ------------------------------------------------------------------ *)
(** ** metrics.py *)
(* ------------------------------------------------------------------ *)

Module Metrics.
Import Py.

(** [deque(maxlen=cap).append(x)]: the oldest element leaves a full window. *)
Definition deque_append {A} (cap : Z) (d : list A) (x : A) : list A :=
  let d' := d ++ [x] in
  if len d' >? cap then tail d' else d'.

Definition window_cap : Z := 5000.

Record RollingStats := {
  maxlen : Z;
  lat_ms : list Q;
  candidates : list Z;
}.

Definition new_rolling : RollingStats :=
  {| maxlen := 5000; lat_ms := []; candidates := [] |}.

(** [RollingStats.add] *)
Definition add (r : RollingStats) (latency_ms : Q) (candidate_count : Z) : RollingStats :=
  {| maxlen := maxlen r;
     lat_ms := deque_append window_cap (lat_ms r) latency_ms;
     candidates := deque_append window_cap (candidates r) candidate_count |}.

Definition Qsum (arr : list Q) : Q := foldl Qplus 0%Q arr.

(** [RollingStats.mean] *)
Definition mean (arr : list Q) : Q :=
  match arr with
  | [] => 0
  | _ => (Qsum arr / inject_Z (len arr))%Q
  end.

(** [int(x)] for a float: truncation towards zero. *)
Definition int_of_float (x : Q) : Z :=
  if Qle_bool 0 x then Qfloor x else - Qfloor (- x).

(** The index read by [p95]. *)
Definition p95_index (n : Z) : Z := int_of_float ((95 # 100) * inject_Z (n - 1)).

(** [RollingStats.p95]; [s[idx]] is always inside [s]. *)
Definition p95 (arr : list Q) : Q :=
  match arr with
  | [] => 0
  | _ =>
      let s := sorted Qltb arr in
      default 0%Q (s !! Z.to_nat (p95_index (len s)))
  end.

Record Metrics := {
  started_at : Q;
  total_requests : Z;
  total_cache_hits : Z;
  top_queries : list (str * Z);
  rolling : RollingStats;
  tie_groups_total : Z;
  tie_resolved_by_token : Z;
  tie_resolved_by_edit : Z;
  tie_resolved_by_id : Z;
}.

Definition new_metrics (now : Q) : Metrics :=
  {| started_at := now; total_requests := 0; total_cache_hits := 0;
     top_queries := []; rolling := new_rolling;
     tie_groups_total := 0; tie_resolved_by_token := 0;
     tie_resolved_by_edit := 0; tie_resolved_by_id := 0 |}.

Definition inc_request (m : Metrics) (query_norm : str) : Metrics :=
  {| started_at := started_at m;
     total_requests := total_requests m + 1;
     total_cache_hits := total_cache_hits m;
     top_queries :=
       dict_set (top_queries m) query_norm
                (default 0 (dict_get (top_queries m) query_norm) + 1);
     rolling := rolling m;
     tie_groups_total := tie_groups_total m;
     tie_resolved_by_token := tie_resolved_by_token m;
     tie_resolved_by_edit := tie_resolved_by_edit m;
     tie_resolved_by_id := tie_resolved_by_id m |}.

Definition inc_cache_hit (m : Metrics) : Metrics :=
  {| started_at := started_at m;
     total_requests := total_requests m;
     total_cache_hits := total_cache_hits m + 1;
     top_queries := top_queries m;
     rolling := rolling m;
     tie_groups_total := tie_groups_total m;
     tie_resolved_by_token := tie_resolved_by_token m;
     tie_resolved_by_edit := tie_resolved_by_edit m;
     tie_resolved_by_id := tie_resolved_by_id m |}.

Definition add_search_stats (m : Metrics) (latency_ms : Q) (candidate_count : Z) : Metrics :=
  {| started_at := started_at m;
     total_requests := total_requests m;
     total_cache_hits := total_cache_hits m;
     top_queries := top_queries m;
     rolling := add (rolling m) latency_ms candidate_count;
     tie_groups_total := tie_groups_total m;
     tie_resolved_by_token := tie_resolved_by_token m;
     tie_resolved_by_edit := tie_resolved_by_edit m;
     tie_resolved_by_id := tie_resolved_by_id m |}.

Definition add_tie_stats (m : Metrics) (groups_total by_token by_edit by_id : Z) : Metrics :=
  {| started_at := started_at m;
     total_requests := total_requests m;
     total_cache_hits := total_cache_hits m;
     top_queries := top_queries m;
     rolling := rolling m;
     tie_groups_total := tie_groups_total m + groups_total;
     tie_resolved_by_token := tie_resolved_by_token m + by_token;
     tie_resolved_by_edit := tie_resolved_by_edit m + by_edit;
     tie_resolved_by_id := tie_resolved_by_id m + by_id |}.

(** The [tie_break] block of a snapshot. *)
Record TieBreak := {
  tb_tie_groups_total : Z;
  resolved_by_token_pct : Q;
  resolved_by_edit_pct : Q;
  resolved_by_id_pct : Q;
}.

Record Snapshot := {
  uptime_seconds : Q;
  snap_total_requests : Z;
  snap_total_cache_hits : Z;
  cache_hit_rate : Q;
  latency_ms_avg : Q;
  latency_ms_p95 : Q;
  candidates_avg : Q;
  candidates_p95 : Q;
  tie_break : TieBreak;
  snap_top_queries : list (str * Z);
}.



(** [a / b if b else 0.0] *)
Definition rate (a b : Z) : Q :=
  if b =? 0 then 0 else (inject_Z a / inject_Z b)%Q.

(** The order used by [sorted(..., key=lambda x: x[1], reverse=True)]. *)
Definition count_gtb (a b : str * Z) : bool := snd b <? snd a.

(** [snapshot(topk)]; [now] is the reading of [time.time()]. *)
Definition snapshot (m : Metrics) (now : Q) (topk : Z) : Snapshot :=
  let uptime_s := (now - started_at m)%Q in
  let cache_hit_rate := rate (total_cache_hits m) (total_requests m) in
  let top := slice_to (sorted count_gtb (top_queries m)) topk in
  let denom := if tie_groups_total m =? 0 then 0 else tie_groups_total m in
  let tie_pct_token := rate (tie_resolved_by_token m) denom in
  let tie_pct_edit := rate (tie_resolved_by_edit m) denom in
  let tie_pct_id := rate (tie_resolved_by_id m) denom in
  {| uptime_seconds := round uptime_s 2;
     snap_total_requests := total_requests m;
     snap_total_cache_hits := total_cache_hits m;
     cache_hit_rate := round cache_hit_rate 4;
     latency_ms_avg := round (mean (lat_ms (rolling m))) 2;
     latency_ms_p95 := round (p95 (lat_ms (rolling m))) 2;
     candidates_avg := round (mean (map inject_Z (candidates (rolling m)))) 2;
     candidates_p95 := round (p95 (map inject_Z (candidates (rolling m)))) 2;
     tie_break :=
       {| tb_tie_groups_total := tie_groups_total m;
          resolved_by_token_pct := round tie_pct_token 4;
          resolved_by_edit_pct := round tie_pct_edit 4;
          resolved_by_id_pct := round tie_pct_id 4 |};
     snap_top_queries := top |}.

End Metrics.

(* ------------------------------------------------------------------ *)
(** ** app.py *)
(* ------------------------------------------------------------------ *)

Module LRUCache.
Import Py.

Section Cache.
Context {K V : Type} `{EqDecision K}.

(** Stored values are response dictionaries, never [None]; the first
    entry of [_data] is the least recently used one. *)
Record LRUCache := {
  maxsize : Z;
  _data : list (K * V);
}.

Definition new (maxsize : Z) : LRUCache := {| maxsize := maxsize; _data := [] |}.

(** [get(key)]: the value found, if any, and the cache afterwards. *)
Definition get (c : LRUCache) (key : K) : option V * LRUCache :=
  match dict_get (_data c) key with
  | None => (None, c)
  | Some v => (Some v, {| maxsize := maxsize c; _data := move_to_end (_data c) key |})
  end.

(** [set(key, value)] *)
Definition set (c : LRUCache) (key : K) (value : V) : LRUCache :=
  let d := dict_set (_data c) key value in
  let d := move_to_end d key in
  let d := if len d >? maxsize c then popitem_first d else d in
  {| maxsize := maxsize c; _data := d |}.
End Cache.
Arguments LRUCache K V : clear implicits.

End LRUCache.

Module App.
Import Py.

(** *** [compute_tie_break_stats] *)

(** [len({v for v in vals})]: the number of distinct floats. *)
Fixpoint count_distinct (vals : list Q) : nat :=
  match vals with
  | [] => O
  | v :: r =>
      if existsb (Qeq_bool v) r then count_distinct r else S (count_distinct r)
  end.

(** The entries [matches[i+1 .. j-1]] of the run opened at [i], and
    what follows from [j] on. *)
Fixpoint span_run (sim : Q) (l : list Engine.Match) : list Engine.Match * list Engine.Match :=
  match l with
  | [] => ([], [])
  | m :: r =>
      if Qeq_bool (Engine.similarity m) sim then
        let '(run, rest) := span_run sim r in (m :: run, rest)
      else ([], l)
  end.

(** The outer [while i < n] loop; [matches] is the part from [i] on and
    one unit of [fuel] is spent per turn. *)
Fixpoint tie_loop (fuel : nat) (matches : list Engine.Match) (acc : Z * Z * Z * Z)
  : Z * Z * Z * Z :=
  match fuel, matches with
  | O, _ | _, [] => acc
  | S fuel', m :: r =>
      let '(groups_total, by_token, by_edit, by_id) := acc in
      let sim := Engine.similarity m in
      let '(run, rest) := span_run sim r in
      let group := m :: run in
      let acc' :=
        if 1 <? len group then
          if (1 <? count_distinct (map Engine.token_score group))%nat then
            (groups_total + 1, by_token + 1, by_edit, by_id)
          else if (1 <? count_distinct (map Engine.edit_score group))%nat then
            (groups_total + 1, by_token, by_edit + 1, by_id)
          else
            (groups_total + 1, by_token, by_edit, by_id + 1)
        else acc in
      tie_loop fuel' rest acc'
  end.

Definition compute_tie_break_stats (matches : list Engine.Match) : Z * Z * Z * Z :=
  tie_loop (length matches) matches (0, 0, 0, 0).

(** *** [run_match] *)

(** An entry of [results]; the explain fields are present on request. *)
Record Hit := {
  h_id : Z;
  h_name : str;
  h_similarity : Q;
  h_token_score : option Q;
  h_edit_score : option Q;
  h_w_token : option Q;
}.

(** A value of [results_by_id]. *)
Record ById := {
  b_name : str;
  b_similarity : Q;
  b_token_score : option Q;
  b_edit_score : option Q;
  b_w_token : option Q;
}.

Record Payload := {
  results : list Hit;
  results_by_id : option (list (Z * ById));
}.

(** The cache key
  [(q_norm, float(threshold), int(limit), float(w_token), bool(explain),
    bool(include_by_id))].
  Floats are stored as reduced fractions, so that equal floats are equal
  keys. *)
Definition Key : Type := str * Q * Z * Q * bool * bool.

#[global] Instance Q_eq_dec : EqDecision Q.
Proof. solve_decision. Defined.

Record AppState := {
  metrics : Metrics.Metrics;
  cache : LRUCache.LRUCache Key Payload;
}.

Definition hit_of (explain : bool) (m : Engine.Match) : Hit :=
  if explain then
    {| h_id := Engine.m_id m; h_name := Engine.m_name m;
       h_similarity := Engine.similarity m;
       h_token_score := Some (Engine.token_score m);
       h_edit_score := Some (Engine.edit_score m);
       h_w_token := Some (Engine.w_token m) |}
  else
    {| h_id := Engine.m_id m; h_name := Engine.m_name m;
       h_similarity := Engine.similarity m;
       h_token_score := None; h_edit_score := None; h_w_token := None |}.

Definition by_id_of (explain : bool) (r : Hit) : ById :=
  if explain then
    {| b_name := h_name r; b_similarity := h_similarity r;
       b_token_score := h_token_score r; b_edit_score := h_edit_score r;
       b_w_token := h_w_token r |}
  else
    {| b_name := h_name r; b_similarity := h_similarity r;
       b_token_score := None; b_edit_score := None; b_w_token := None |}.

Section RunMatch.
Variable U : Matching.Unicode.
Variables token_set_ratio ratio : str -> str -> Q.
(** The module-level [engine], [None] before start-up. *)
Variable engine : option Engine.SearchEngine.

(** [run_match(...)]; [latency_ms] is the time measured around the
    search.  The state is returned also when an exception leaves the
    function. *)
Definition run_match (st : AppState) (latency_ms : Q)
    (name : str) (threshold : Q) (limit : Z) (w_token : Q)
    (explain include_by_id : bool) : result Payload * AppState :=
  match engine with
  | None => (Raise AssertionError, st)
  | Some eng =>
      let q_norm := Matching.normalize U name in
      let metrics := Metrics.inc_request (metrics st) q_norm in
      let key : Key := (q_norm, Qred threshold, limit, Qred w_token, explain, include_by_id) in
      let '(cached, cache) := LRUCache.get (cache st) key in
      match cached with
      | Some payload =>
          let metrics := Metrics.inc_cache_hit metrics in
          (Ok payload, {| metrics := metrics; cache := cache |})
      | None =>
          match Engine.search_explain token_set_ratio ratio eng q_norm threshold limit w_token with
          | Raise e => (Raise e, {| metrics := metrics; cache := cache |})
          | Ok (matches, candidate_count) =>
              let metrics := Metrics.add_search_stats metrics latency_ms candidate_count in
              let '(tie_groups_total, by_token, by_edit, by_id) :=
                compute_tie_break_stats matches in
              let metrics := Metrics.add_tie_stats metrics tie_groups_total by_token by_edit by_id in
              let results_list := map (hit_of explain) matches in
              let payload :=
                {| results := results_list;
                   results_by_id :=
                     if include_by_id then
                       Some (foldl (fun d r => dict_set d (h_id r) (by_id_of explain r))
                                   [] results_list)
                     else None |} in
              let cache := LRUCache.set cache key payload in
              (Ok payload, {| metrics := metrics; cache := cache |})
          end
      end
  end.

(** The handler of [GET /match]: the three range checks, then
    [run_match]. *)
Definition match_get (st : AppState) (latency_ms : Q)
    (name : str) (threshold : Q) (limit : Z) (w_token : Q)
    (explain include_by_id : bool) : result Payload * AppState :=
  if negb (Qle_bool 0 threshold && Qle_bool threshold 100) then
    (Raise (HTTPException 422), st)
  else if negb ((1 <=? limit) && (limit <=? 100)) then
    (Raise (HTTPException 422), st)
  else if negb (Qle_bool 0 w_token && Qle_bool w_token 1) then
    (Raise (HTTPException 422), st)
  else run_match st latency_ms name threshold limit w_token explain include_by_id.
End RunMatch.

End App.

(* ------------------------------------------------------------------ *)
(** ** storage copy.py *)
(* ------------------------------------------------------------------ *)

Module Storage.
Import Py.

Inductive Mode := Original | Standardized | StandardizedDedupe.

Record RepoStats := {
  mode : Mode;
  sot_rows : Z;
  search_rows : Z;
  dedupe_groups : Z;
  dedupe_ratio : Q;
}.

(** What [build_repository] leaves behind: the records of the returned
    repository and the two module-level variables. *)
Record Repo := {
  records : list Engine.NameRecord;
  _LAST_STATS : RepoStats;
  _GROUP_IDS_BY_REP_ID : gmap Z (list Z);
}.

Definition id_ltb (a b : Z * str) : bool := fst a <? fst b.

Section Build.
Variable U : Matching.Unicode.

Definition _strict_key (name : str) : str := Matching.normalize U name.

(** The loop [for _id, name in rows] that fills [groups]. *)
Definition group_row (groups : list (str * list (Z * str))) (row : Z * str)
  : list (str * list (Z * str)) :=
  let '(_id, name) := row in
  let k := _strict_key name in
  match k with
  | [] => groups
  | _ => dict_set groups k (default [] (dict_get groups k) ++ [(_id, name)])
  end.

Definition group_rows (rows : list (Z * str)) : list (str * list (Z * str)) :=
  foldl group_row [] rows.

(** The loop [for k, members in groups.items()]; [members_sorted[0]]
    raises [IndexError] on an empty group. *)
Fixpoint emit_groups (groups : list (str * list (Z * str)))
    (records : list Engine.NameRecord) (by_rep : gmap Z (list Z))
  : result (list Engine.NameRecord * gmap Z (list Z)) :=
  match groups with
  | [] => Ok (records, by_rep)
  | (k, members) :: rest =>
      let members_sorted := sorted id_ltb members in
      match members_sorted with
      | [] => Raise IndexError
      | (rep_id, rep_name) :: _ =>
          emit_groups rest
            (records ++ [ {| Engine.id := rep_id; Engine.full_name := rep_name;
                             Engine.normalized_name := k |} ])
            (<[ rep_id := map fst members_sorted ]> by_rep)
      end
  end.

Definition ratio_of (n_records n_rows : Z) : Q :=
  if n_rows =? 0 then 1 else (inject_Z n_records / inject_Z n_rows)%Q.

(** [build_repository] on the rows read from the data set. *)
Definition build_repository (mode : Mode) (rows : list (Z * str)) : result Repo :=
  match mode with
  | Original | Standardized =>
      let records :=
        omap (fun row : Z * str =>
                match Matching.normalize U (snd row) with
                | [] => None
                | k => Some {| Engine.id := fst row; Engine.full_name := snd row;
                               Engine.normalized_name := k |}
                end) rows in
      Ok {| records := records;
            _LAST_STATS :=
              {| mode := mode; sot_rows := len rows; search_rows := len records;
                 dedupe_groups := 0;
                 dedupe_ratio := ratio_of (len records) (len rows) |};
            _GROUP_IDS_BY_REP_ID := ∅ |}
  | StandardizedDedupe =>
      let groups := group_rows rows in
      '(records, by_rep) ← emit_groups groups [] ∅;
      Ok {| records := records;
            _LAST_STATS :=
              {| mode := mode; sot_rows := len rows; search_rows := len records;
                 dedupe_groups := len records;
                 dedupe_ratio := ratio_of (len records) (len rows) |};
            _GROUP_IDS_BY_REP_ID := by_rep |}
  end.

(** The rows whose key is [k], in the order of the data set. *)
Definition members_of (k : str) (rows : list (Z * str)) : list (Z * str) :=
  List.filter (fun row => bool_decide (_strict_key (snd row) = k)) rows.

(** The rows that have a key. *)
Definition keyed_rows (rows : list (Z * str)) : list (Z * str) :=
  List.filter (fun row => negb (bool_decide (_strict_key (snd row) = []))) rows.

(** [represents rec g]: the record stands for the group [g]: it has the
    key of the group, it is one of its members, and no member has a
    smaller id. *)
Definition represents (rec : Engine.NameRecord) (g : str * list (Z * str)) : Prop :=
  Engine.normalized_name rec = fst g
  /\ (Engine.id rec, Engine.full_name rec) ∈ snd g
  /\ forall m, m ∈ snd g -> Engine.id rec <= fst m.

(** The group stored under a key: the rows of that key, when there are
    some and the key is not empty. *)
Definition group_of (k : str) (rows : list (Z * str)) : option (list (Z * str)) :=
  if decide (k = []) then None
  else match members_of k rows with
       | [] => None
       | ms => Some ms
       end.

(** What the second loop emits for a group with members: its first
    member in the order of ids, and the ids of all of them in that order. *)
Definition representative (members : list (Z * str)) : Z * str :=
  default (0, []) (head (sorted id_ltb members)).

Definition record_of (g : str * list (Z * str)) : Engine.NameRecord :=
  {| Engine.id := fst (representative (snd g));
     Engine.full_name := snd (representative (snd g));
     Engine.normalized_name := fst g |}.

Definition member_ids (g : str * list (Z * str)) : list Z :=
  map fst (sorted id_ltb (snd g)).

(** [get_group_ids(rep_id)] *)
Definition get_group_ids (r : Repo) (rep_id : Z) : option (list Z) :=
  _GROUP_IDS_BY_REP_ID r !! rep_id.
End Build.

End Storage.

(* ------------------------------------------------------------------ *)
(** ** A two-record registry, used to evaluate the functions *)
(* ------------------------------------------------------------------ *)

Module Example.
Import Py.

(** ["Juan Pérez"] and ["Pérez, Juan"]; U+00E9 is the accented e. *)
Definition juan_perez : str := cp "Juan P" ++ [233%N] ++ cp "rez".
Definition perez_juan : str := cp "P" ++ [233%N] ++ cp "rez, Juan".

Definition record (i : Z) (name : str) : Engine.NameRecord :=
  {| Engine.id := i; Engine.full_name := name;
     Engine.normalized_name := Matching.normalize Matching.latin1 name |}.

Definition repo : list Engine.NameRecord := [record 1 juan_perez; record 2 perez_juan].

Definition engine : Engine.SearchEngine := Engine.new_engine repo Engine.default_config.

Definition query : str := Matching.normalize Matching.latin1 (cp "Juan Perez").

End Example.

(* ------------------------------------------------------------------ *)
(** ** The earlier matching module: [normalize] *)
(* ------------------------------------------------------------------ *)

Module CodeNormalize.
Import Py.

Section Normalize.
Variable U : Matching.Unicode.

(** [text.split()]: the maximal runs of characters that are not white
    space; [cur] is the run being read. *)
Fixpoint split_from (cur : str) (s : str) : list str :=
  match s with
  | [] => match cur with [] => [] | _ => [cur] end
  | c :: r =>
      if Matching.isspace U c then
        match cur with
        | [] => split_from [] r
        | _ => cur :: split_from [] r
        end
      else split_from (cur ++ [c]) r
  end.
Definition split (s : str) : list str := split_from [] s.

(** [normalize(text)] of the earlier module: strip, lower-case, drop the
    combining marks of the decomposed text, join the words by one space. *)
Definition normalize (text : str) : str :=
  let text := Matching.lower U (Matching.strip U text) in
  let text := Matching.nfkd U text in
  let text := List.filter (fun c => negb (Matching.combining U c)) text in
  Fuzz.join (split text).
End Normalize.

End CodeNormalize.

(* ------------------------------------------------------------------ *)
(** ** storage.py, as imported by app.py: records read from the CSV file *)
(* ------------------------------------------------------------------ *)

Module CsvStorage.
Import Py.

(** A row of [csv.DictReader]: the fields by column name; a field that
    the line does not reach is [None]. *)
Definition Row : Type := list (str * option str).

(** [get_first(row, *cands)]: the first candidate column that the row
    has with a value other than [None] and the empty string. *)
Fixpoint get_first (row : Row) (cands : list str) : option str :=
  match cands with
  | [] => None
  | c :: rest =>
      match dict_get row c with
      | Some (Some (x :: v)) => Some (x :: v)
      | _ => get_first row rest
      end
  end.

Definition id_columns : list str := map cp ["id"; "ID"; "Id"; "ID "]%string.
Definition name_columns : list str :=
  map cp ["name"; "Full Name"; "full_name"; "FullName"; "nombre"; "Name"]%string.

Section Build.
Variable U : Matching.Unicode.
(** [int(s)] on a string: the integer written in [s], or [ValueError]. *)
Variable int_of_str : str -> option Z.

(** The body of the loop of [_build_records_from_csv] for one row. *)
Definition record_of_row (mode : Storage.Mode) (r : Row) : result Engine.NameRecord :=
  match get_first r id_columns, get_first r name_columns with
  | Some raw_id, Some raw_name =>
      match int_of_str (Matching.strip U raw_id) with
      | None => Raise ValueError
      | Some rid =>
          let full_name := raw_name in
          let normalized_name :=
            match mode with
            | Storage.Original => Matching.normalize U full_name
            | _ =>
                match get_first r [cp "strict_key"] with
                | Some strict_key => strict_key
                | None => Matching.normalize U full_name
                end
            end in
          Ok {| Engine.id := rid; Engine.full_name := full_name;
                Engine.normalized_name := normalized_name |}
      end
  | _, _ => Raise ValueError
  end.

(** [_build_records_from_csv] on the rows read from the file. *)
Fixpoint _build_records_from_csv (rows : list Row) (mode : Storage.Mode)
  : result (list Engine.NameRecord) :=
  match rows with
  | [] => Ok []
  | r :: rest =>
      rec ← record_of_row mode r;
      recs ← _build_records_from_csv rest mode;
      Ok (rec :: recs)
  end.

(** [startup()] with [STORAGE=csv]: the records are read and indexed;
    [ngram_n] and [max_candidates] come from the environment. *)
Definition startup (rows : list Row) (mode : Storage.Mode) (ngram_n max_candidates : Z)
  : result (option Engine.SearchEngine) :=
  records ← _build_records_from_csv rows mode;
  Ok (Some (Engine.new_engine records
              {| Engine.ngram_n := ngram_n; Engine.max_candidates := max_candidates |})).
End Build.

(** [int] on the strings made of ASCII digits with an optional sign,
    used to evaluate the functions on concrete rows. *)
Definition digits_value (s : str) : option Z :=
  foldl (fun acc c =>
           match acc with
           | Some v => if ((48 <=? c) && (c <=? 57))%N then Some (10 * v + Z.of_N (c - 48)) else None
           | None => None
           end) (Some 0) s.

Definition int_of_decimal (s : str) : option Z :=
  match s with
  | [] => None
  | c :: r =>
      if (c =? 45)%N then (match r with [] => None | _ => Z.opp <$> digits_value r end)
      else if (c =? 43)%N then (match r with [] => None | _ => digits_value r end)
      else digits_value s
  end.

End CsvStorage.

(* ------------------------------------------------------------------ *)
(** ** The service in use: calls on the cache and requests in a row *)
(* ------------------------------------------------------------------ *)

Module Session.
Import Py.

(** A call made on the cache: [cache.get(key)] or [cache.set(key, value)]. *)
Inductive CacheCall (K V : Type) :=
  | CallGet (key : K)
  | CallSet (key : K) (value : V).
Arguments CallGet {K V} key.
Arguments CallSet {K V} key value.

Section Calls.
Context {K V : Type} `{EqDecision K}.

Definition call (c : LRUCache.LRUCache K V) (op : CacheCall K V) : LRUCache.LRUCache K V :=
  match op with
  | CallGet key => snd (LRUCache.get c key)
  | CallSet key value => LRUCache.set c key value
  end.

Definition calls (c : LRUCache.LRUCache K V) (ops : list (CacheCall K V))
  : LRUCache.LRUCache K V :=
  foldl call c ops.
End Calls.

(** The module-level state of [app.py] when it is loaded:
    [metrics = Metrics()] and [cache = LRUCache(maxsize=CACHE_MAX)]. *)
Definition initial (now : Q) (cache_max : Z) : App.AppState :=
  {| App.metrics := Metrics.new_metrics now;
     App.cache := LRUCache.new cache_max |}.

(** The part of [run_match] that turns the matches into the response. *)
Definition build_payload (explain include_by_id : bool) (matches : list Engine.Match)
  : App.Payload :=
  let results_list := map (App.hit_of explain) matches in
  {| App.results := results_list;
     App.results_by_id :=
       if include_by_id then
         Some (foldl (fun d r => dict_set d (App.h_id r) (App.by_id_of explain r))
                     [] results_list)
       else None |}.

(** The parameters of a request to [/match], and the time its search
    takes when there is one. *)
Record Request := {
  name : str;
  threshold : Q;
  limit : Z;
  w_token : Q;
  explain : bool;
  include_by_id : bool;
  latency_ms : Q;
}.

Section Serve.
Variable U : Matching.Unicode.
Variables token_set_ratio ratio : str -> str -> Q.
Variable engine : option Engine.SearchEngine.

(** One request handled by [match_get]. *)
Definition handle (st : App.AppState) (r : Request) : result App.Payload * App.AppState :=
  App.match_get U token_set_ratio ratio engine st (latency_ms r)
    (name r) (threshold r) (limit r) (w_token r) (explain r) (include_by_id r).

(** Requests handled one after another; a rejected request leaves the
    state to the next one. *)
Definition serve (st : App.AppState) (reqs : list Request) : App.AppState :=
  foldl (fun st r => snd (handle st r)) st reqs.
End Serve.

(** Two entries of [scored] that differ at most in the fractions that
    stand for their raw similarity. *)
Definition same_entry (a b : Engine.Scored) : Prop :=
  Engine.s_id a = Engine.s_id b
  /\ Engine.s_name a = Engine.s_name b
  /\ (Engine.similarity_raw a == Engine.similarity_raw b)%Q
  /\ Engine.token_raw a = Engine.token_raw b
  /\ Engine.edit_raw a = Engine.edit_raw b
  /\ Engine.s_similarity a = Engine.s_similarity b
  /\ Engine.s_token_score a = Engine.s_token_score b
  /\ Engine.s_edit_score a = Engine.s_edit_score b
  /\ Engine.s_w_token a = Engine.s_w_token b.

(** The range checks of [match_get]. *)
Definition accepted (r : Request) : bool :=
  Qle_bool 0 (threshold r) && Qle_bool (threshold r) 100
  && ((1 <=? limit r) && (limit r <=? 100))
  && (Qle_bool 0 (w_token r) && Qle_bool (w_token r) 1).

(** The key under which the response to a request is cached. *)
Definition key_of (U : Matching.Unicode) (r : Request) : App.Key :=
  (Matching.normalize U (name r), Qred (threshold r), limit r, Qred (w_token r),
   explain r, include_by_id r).

(** [cache_sound eng c]: every cached response is the one a search with
    the parameters of its key gives. *)
Definition cache_sound (token_set_ratio ratio : str -> str -> Q)
    (eng : Engine.SearchEngine) (c : LRUCache.LRUCache App.Key App.Payload) : Prop :=
  forall q th lim w ex inc p,
    ((q, th, lim, w, ex, inc), p) ∈ LRUCache._data c ->
    exists ms cnt,
      Engine.search_explain token_set_ratio ratio eng q th lim w = Ok (ms, cnt)
      /\ p = build_payload ex inc ms.

(** [Metrics] whose counters agree with one another: no more hits than
    requests, one counter of at least one per query seen and as many
    counted queries as requests, every tie group resolved in one of the
    three ways, and windows holding one entry per search, the last
    [window_cap] of them. *)
Definition metrics_consistent (m : Metrics.Metrics) : Prop :=
  0 <= Metrics.total_cache_hits m <= Metrics.total_requests m
  /\ NoDup (dict_keys (Metrics.top_queries m))
  /\ Forall (fun kv => 1 <= snd kv) (Metrics.top_queries m)
  /\ foldr Z.add 0 (map snd (Metrics.top_queries m)) = Metrics.total_requests m
  /\ Metrics.tie_groups_total m
     = Metrics.tie_resolved_by_token m + Metrics.tie_resolved_by_edit m
       + Metrics.tie_resolved_by_id m
  /\ 0 <= Metrics.tie_resolved_by_token m
  /\ 0 <= Metrics.tie_resolved_by_edit m
  /\ 0 <= Metrics.tie_resolved_by_id m
  /\ len (Metrics.lat_ms (Metrics.rolling m)) = len (Metrics.candidates (Metrics.rolling m))
  /\ len (Metrics.lat_ms (Metrics.rolling m))
     = Z.min Metrics.window_cap (Metrics.total_requests m - Metrics.total_cache_hits m).

End Session.

(* ================================================================== *)
(** * Properties *)
(* ================================================================== *)

(** ** Facts about the Python built-ins *)

Module PyFacts.
Import Py.

Section SortFacts.
Context {A : Type} (ltb : A -> A -> bool).

Lemma insert_sorted_perm (x : A) (l : list A) : insert_sorted ltb x l ≡ₚ x :: l.
Proof.
  induction l as [|y r IH]; simpl; [done|].
  destruct (ltb y x); [|done].
  rewrite IH. apply Permutation_swap.
Qed.

Lemma sorted_perm (l : list A) : sorted ltb l ≡ₚ l.
Proof.
  induction l as [|x r IH]; simpl; [done|].
  by rewrite insert_sorted_perm, IH.
Qed.

Lemma sorted_length (l : list A) : length (sorted ltb l) = length l.
Proof. apply Permutation_length, sorted_perm. Qed.

Lemma sorted_elem_of (x : A) (l : list A) : x ∈ sorted ltb l ↔ x ∈ l.
Proof. by rewrite sorted_perm. Qed.

Lemma sorted_nil_inv (l : list A) : sorted ltb l = [] -> l = [].
Proof.
  intros H. apply Permutation_nil_r. rewrite <- H. symmetry. apply sorted_perm.
Qed.



Section Ordered.
Hypothesis ltb_asym : forall a b, ltb a b = true -> ltb b a = false.
Hypothesis may_precede_trans :
  forall a b c, may_precede ltb a b -> may_precede ltb b c -> may_precede ltb a c.

Lemma insert_sorted_StronglySorted (x : A) (l : list A) :
  StronglySorted (may_precede ltb) l ->
  StronglySorted (may_precede ltb) (insert_sorted ltb x l).
Proof.
  induction 1 as [|y r Hr IH Hy]; simpl.
  - by repeat constructor.
  - destruct (ltb y x) eqn:Hyx.
    + constructor; [done|].
      rewrite insert_sorted_perm. constructor; [|done].
      by apply ltb_asym.
    + constructor; [by constructor|].
      constructor; [done|].
      eapply Forall_impl; [exact Hy|].
      intros z Hz. by apply (may_precede_trans x y z).
Qed.

Lemma sorted_StronglySorted (l : list A) :
  StronglySorted (may_precede ltb) (sorted ltb l).
Proof.
  induction l as [|x r IH]; simpl; [constructor|].
  by apply insert_sorted_StronglySorted.
Qed.
End Ordered.
End SortFacts.

(** Sorting commutes with a map that respects the comparison. *)
Lemma sorted_map {A B : Type} (ltA : A -> A -> bool) (ltB : B -> B -> bool)
    (f : A -> B) (l : list A) :
  (forall a b, ltB (f a) (f b) = ltA a b) ->
  sorted ltB (map f l) = map f (sorted ltA l).
Proof.
  intros Hf. induction l as [|x r IH]; [done|].
  cbn [map sorted]. rewrite IH. clear IH.
  induction (sorted ltA r) as [|y s IHs]; [done|].
  cbn [map insert_sorted]. rewrite Hf. destruct (ltA y x); [|done].
  cbn [map]. by rewrite IHs.
Qed.

Section DictFacts.
Context {K V : Type} `{EqDecision K}.
Implicit Types (d : list (K * V)) (k : K) (v : V).

Lemma dict_get_set d k v k' :
  dict_get (dict_set d k v) k' = if decide (k = k') then Some v else dict_get d k'.
Proof.
  induction d as [|[k0 v0] r IH]; simpl.
  - repeat case_decide; congruence.
  - destruct (decide (k0 = k)) as [->|Hne]; simpl.
    + repeat case_decide; congruence.
    + rewrite IH. repeat case_decide; congruence.
Qed.

Lemma dict_get_set_eq d k v : dict_get (dict_set d k v) k = Some v.
Proof. rewrite dict_get_set. by case_decide. Qed.

Lemma dict_get_set_ne d k v k' : k ≠ k' -> dict_get (dict_set d k v) k' = dict_get d k'.
Proof. intros. rewrite dict_get_set. by case_decide. Qed.

Lemma dict_get_None d k : dict_get d k = None ↔ k ∉ dict_keys d.
Proof.
  induction d as [|[k0 v0] r IH]; simpl.
  - split; [intros _; apply not_elem_of_nil | done].
  - rewrite not_elem_of_cons. case_decide; [|naive_solver].
    split; [done|]. intros [? _]. congruence.
Qed.

Lemma dict_get_is_Some d k : is_Some (dict_get d k) ↔ k ∈ dict_keys d.
Proof.
  destruct (dict_get d k) eqn:E.
  - split; [|eauto]. intros _.
    destruct (decide (k ∈ dict_keys d)) as [|Hn]; [done|].
    apply dict_get_None in Hn. congruence.
  - split; [by intros [? ?]|]. intros Hin. by apply dict_get_None in E.
Qed.

Lemma dict_get_Some_elem_of d k v : dict_get d k = Some v -> (k, v) ∈ d.
Proof.
  induction d as [|[k0 v0] r IH]; simpl; [done|].
  case_decide; intros ?; simplify_eq; [left | right; auto].
Qed.

Lemma elem_of_dict_get d k v :
  NoDup (dict_keys d) -> (k, v) ∈ d -> dict_get d k = Some v.
Proof.
  induction d as [|[k0 v0] r IH]; simpl; [by intros _ ?%elem_of_nil|].
  intros [Hk0 Hnd]%NoDup_cons [Heq|Hin]%elem_of_cons.
  - simplify_eq. by case_decide.
  - case_decide as Hk; [|auto]. subst k0. exfalso. apply Hk0.
    change k with (fst (k, v)). by apply list_elem_of_fmap_2.
Qed.

Lemma dict_keys_set d k v :
  dict_keys (dict_set d k v) =
    match dict_get d k with
    | Some _ => dict_keys d
    | None => dict_keys d ++ [k]
    end.
Proof.
  induction d as [|[k0 v0] r IH]; simpl; [done|].
  case_decide; simpl; [by subst|].
  rewrite IH. by destruct (dict_get r k).
Qed.

Lemma dict_set_NoDup d k v : NoDup (dict_keys d) -> NoDup (dict_keys (dict_set d k v)).
Proof.
  intros Hnd. rewrite dict_keys_set. destruct (dict_get d k) eqn:E; [done|].
  apply NoDup_app. split_and!; [done| |apply NoDup_singleton].
  intros x Hx ->%list_elem_of_singleton. by apply dict_get_None in E.
Qed.

Lemma dict_set_length_new d k v :
  dict_get d k = None -> dict_set d k v = d ++ [(k, v)].
Proof.
  induction d as [|[k0 v0] r IH]; simpl; [done|].
  case_decide; [done|]. intros ?. by rewrite IH.
Qed.

Lemma dict_remove_absent d k : dict_get d k = None -> dict_remove d k = d.
Proof.
  induction d as [|[k0 v0] r IH]; simpl; [done|].
  case_decide; [done|]. intros ?. by rewrite IH.
Qed.

(** With distinct keys, removing a key filters its entry out. *)
Lemma dict_remove_filter d k :
  NoDup (dict_keys d) ->
  dict_remove d k = List.filter (fun kv => negb (bool_decide (fst kv = k))) d.
Proof.
  induction d as [|[k0 v0] r IH]; simpl; [done|].
  intros [Hk0 Hnd]%NoDup_cons.
  case_decide as Hk; simpl.
  - subst k0. rewrite bool_decide_eq_true_2 by done. simpl.
    rewrite <- IH by done. symmetry. apply dict_remove_absent.
    by apply dict_get_None.
  - rewrite bool_decide_eq_false_2 by done. simpl. by rewrite IH.
Qed.

Lemma dict_get_remove d k k' :
  NoDup (dict_keys d) ->
  dict_get (dict_remove d k) k' = if decide (k = k') then None else dict_get d k'.
Proof.
  induction d as [|[k0 v0] r IH]; simpl; intros Hnd.
  - by case_decide.
  - apply NoDup_cons in Hnd as [Hk0 Hnd].
    destruct (decide (k0 = k)) as [->|Hne].
    + case_decide as Hk.
      * subst k'. by apply (proj2 (dict_get_None r k)).
      * done.
    + simpl. rewrite IH by done. repeat case_decide; congruence.
Qed.

Lemma dict_get_app d1 d2 k :
  dict_get (d1 ++ d2) k =
    match dict_get d1 k with Some v => Some v | None => dict_get d2 k end.
Proof.
  induction d1 as [|[k0 v0] r IH]; simpl; [done|]. by case_decide.
Qed.

Lemma dict_keys_remove_subseteq d k : dict_keys (dict_remove d k) ⊆ dict_keys d.
Proof.
  induction d as [|[k0 v0] r IH]; simpl; [done|].
  case_decide; simpl; set_solver.
Qed.

Lemma dict_remove_NoDup d k : NoDup (dict_keys d) -> NoDup (dict_keys (dict_remove d k)).
Proof.
  induction d as [|[k0 v0] r IH]; simpl; [done|].
  intros [Hk0 Hnd]%NoDup_cons. case_decide; [done|]. simpl.
  apply NoDup_cons. split; [|auto].
  intros Hin. apply Hk0. by apply dict_keys_remove_subseteq in Hin.
Qed.

Lemma dict_keys_remove_not_in d k :
  NoDup (dict_keys d) -> k ∉ dict_keys (dict_remove d k).
Proof.
  intros Hnd. apply dict_get_None. rewrite dict_get_remove by done. by case_decide.
Qed.
End DictFacts.

(** Slices with bounds inside the list. *)
Lemma slice_to_take {A} (l : list A) (hi : Z) :
  0 <= hi -> slice_to l hi = take (Z.to_nat hi) l.
Proof.
  intros Hhi. unfold slice_to, slice, slice_bound, len.
  replace (0 <? 0) with false by done.
  destruct (Z.ltb_spec hi 0); [lia|].
  rewrite (Z.min_l 0) by lia.
  change (Z.to_nat 0) with O. rewrite drop_0, Z.sub_0_r.
  destruct (Z.min_spec hi (Z.of_nat (length l))) as [[? ->]|[? ->]]; [done|].
  rewrite Nat2Z.id, !take_ge by lia. done.
Qed.

Lemma slice_take_drop {A} (l : list A) (i n : Z) :
  0 <= i -> 0 <= n -> i + n <= len l ->
  slice l i (i + n) = take (Z.to_nat n) (drop (Z.to_nat i) l).
Proof.
  intros Hi Hn Hlen. unfold slice, slice_bound.
  destruct (Z.ltb_spec i 0); [lia|]. destruct (Z.ltb_spec (i + n) 0); [lia|].
  rewrite !Z.min_l by lia. do 2 f_equal. lia.
Qed.

Lemma slice_to_subseteq {A} (l : list A) (hi : Z) : slice_to l hi ⊆ l.
Proof.
  unfold slice_to, slice. intros x Hx.
  by apply subseteq_take, subseteq_drop in Hx.
Qed.

Lemma elem_of_bfilter {A} (P : A -> bool) (l : list A) (x : A) :
  x ∈ List.filter P l <-> x ∈ l /\ P x = true.
Proof. rewrite !list_elem_of_In. apply filter_In. Qed.

(** Comparisons of floats. *)
Lemma Qltb_lt (a b : Q) : Qltb a b = true <-> (a < b)%Q.
Proof.
  unfold Qltb. rewrite negb_true_iff. split.
  - intros H. apply Qnot_le_lt. intros Hle. apply Qle_bool_iff in Hle. congruence.
  - intros H. destruct (Qle_bool b a) eqn:E; [|done].
    apply Qle_bool_iff in E. exfalso. lra.
Qed.

Lemma Qeq_bool_false (a b : Q) : Qeq_bool a b = false <-> ~ (a == b)%Q.
Proof.
  split.
  - intros H Heq. apply Qeq_bool_iff in Heq. congruence.
  - intros H. destruct (Qeq_bool a b) eqn:E; [|done]. by apply Qeq_bool_iff in E.
Qed.

Lemma StronglySorted_weaken {A} (R S : A -> A -> Prop) (l : list A) :
  (forall a b, R a b -> S a b) -> StronglySorted R l -> StronglySorted S l.
Proof.
  intros HRS. induction 1 as [|x r Hr IH Hx]; constructor; [done|].
  eapply Forall_impl; [exact Hx|]. intros y. apply HRS.
Qed.

Lemma elem_of_range (k i : Z) : i ∈ range k ↔ 0 <= i < k.
Proof.
  unfold range. rewrite list_elem_of_fmap. split.
  - intros (n & -> & Hn). apply elem_of_seq in Hn. lia.
  - intros Hi. exists (Z.to_nat i). split; [lia|]. apply elem_of_seq. lia.
Qed.

End PyFacts.

(** ** matching.py: normalization and n-grams *)

Module MatchingFacts.
Import Py Matching.

Section Shape.
Variable U : Unicode.
Hypothesis L : AsciiLaws U.

Lemma lstrip_head (s : str) :
  match lstrip U s with c :: _ => isspace U c = false | [] => True end.
Proof.
  unfold lstrip. induction s as [|c r IH]; simpl; [done|].
  destruct (isspace U c) eqn:E; [exact IH | done].
Qed.

Lemma lstrip_fixed (s : str) :
  match s with c :: _ => isspace U c = false | [] => True end -> lstrip U s = s.
Proof. unfold lstrip. destruct s as [|c r]; simpl; [done|]. by intros ->. Qed.

Lemma rstrip_head (s : str) (c : N) (r' : str) :
  rstrip U s = c :: r' -> exists r, s = c :: r.
Proof.
  destruct s as [|c0 r]; simpl; [done|].
  destruct (rstrip U r), (isspace U c0); intros ?; simplify_eq; eauto.
Qed.

Lemma rstrip_idem (s : str) : rstrip U (rstrip U s) = rstrip U s.
Proof.
  induction s as [|c r IH]; [done|]. cbn [rstrip].
  destruct (rstrip U r) as [|c' r'] eqn:E.
  - destruct (isspace U c) eqn:Ec; simpl; [done|]. by rewrite Ec.
  - change (rstrip U (c :: c' :: r')) with
      (match rstrip U (c' :: r') with
       | [] => if isspace U c then [] else [c]
       | r'' => c :: r''
       end).
    by rewrite IH.
Qed.

Lemma strip_idem (s : str) : strip U (strip U s) = strip U s.
Proof.
  unfold strip. rewrite lstrip_fixed; [apply rstrip_idem|].
  destruct (rstrip U (lstrip U s)) as [|c r'] eqn:E; [done|].
  apply rstrip_head in E as [r E]. pose proof (lstrip_head s) as Hh.
  by rewrite E in Hh.
Qed.

Lemma Forall_lstrip (P : N -> Prop) (s : str) : Forall P s -> Forall P (lstrip U s).
Proof.
  unfold lstrip. induction 1 as [|c r Hc Hr IH]; simpl; [done|].
  destruct (isspace U c); [done | by constructor].
Qed.

Lemma Forall_rstrip (P : N -> Prop) (s : str) : Forall P s -> Forall P (rstrip U s).
Proof.
  induction 1 as [|c r Hc Hr IH]; simpl; [done|].
  destruct (rstrip U r); [|by constructor].
  destruct (isspace U c); [done | by constructor].
Qed.

Lemma single_spaced_weaken (b : bool) (s : str) :
  single_spaced U b s -> single_spaced U false s.
Proof.
  destruct s as [|c r]; simpl; [done|].
  destruct (isspace U c); [|done]. naive_solver.
Qed.

Lemma single_spaced_lstrip (b : bool) (s : str) :
  single_spaced U b s -> single_spaced U false (lstrip U s).
Proof.
  unfold lstrip. destruct s as [|c r]; simpl; [done|].
  destruct (isspace U c) eqn:E; [|simpl; by rewrite E].
  intros (_ & _ & Hr). destruct r as [|c' r']; simpl in *; [done|].
  destruct (isspace U c') eqn:E'; [naive_solver|]. simpl. by rewrite E'.
Qed.

Lemma single_spaced_rstrip (b : bool) (s : str) :
  single_spaced U b s -> single_spaced U b (rstrip U s).
Proof.
  revert b. induction s as [|c r IH]; intros b; simpl; [done|].
  destruct (isspace U c) eqn:E.
  - intros (-> & -> & Hr). apply IH in Hr.
    destruct (rstrip U r); simpl; [done|]. by rewrite E.
  - intros Hr. apply IH in Hr.
    destruct (rstrip U r); simpl; by rewrite E.
Qed.

Lemma single_spaced_multispace (b : bool) (s : str) :
  single_spaced U b (multispace_from U b s).
Proof.
  revert b. induction s as [|c r IH]; intros b; simpl; [done|].
  destruct (isspace U c) eqn:E.
  - destruct b; [apply IH|]. simpl. rewrite (space_isspace U L). auto.
  - simpl. rewrite E. apply IH.
Qed.

Lemma multispace_fixed (b : bool) (s : str) :
  single_spaced U b s -> multispace_from U b s = s.
Proof.
  revert b. induction s as [|c r IH]; intros b; simpl; [done|].
  destruct (isspace U c) eqn:E.
  - intros (-> & -> & Hr). by rewrite IH.
  - intros Hr. by rewrite IH.
Qed.

Lemma non_letter_sub_chars (s : str) :
  Forall (fun c => is_ascii_letter c = true \/ isspace U c = true) (non_letter_sub U s).
Proof.
  unfold non_letter_sub. apply Forall_fmap, Forall_true. intros c. simpl.
  destruct (is_ascii_letter c) eqn:El; simpl; [by left|].
  destruct (isspace U c) eqn:Es; right; [done|]. apply (space_isspace U L).
Qed.

Lemma multispace_chars (b : bool) (s : str) :
  Forall (fun c => is_ascii_letter c = true \/ isspace U c = true) s ->
  Forall (fun c => letter_or_space c = true) (multispace_from U b s).
Proof.
  intros H. revert b. induction H as [|c r Hc Hr IH]; intros b; simpl; [done|].
  destruct (isspace U c) eqn:E.
  - destruct b; [apply IH|]. constructor; [done | apply IH].
  - constructor; [|apply IH]. unfold letter_or_space.
    destruct Hc as [->|?]; [done | congruence].
Qed.

(** The shape of every normalized name. *)
Lemma normalize_shape (x : str) :
  Forall (fun c => letter_or_space c = true) (normalize U x)
  /\ single_spaced U false (normalize U x)
  /\ strip U (normalize U x) = normalize U x.
Proof.
  unfold normalize, normalize_strict. split_and!.
  - apply Forall_rstrip, Forall_lstrip, multispace_chars, non_letter_sub_chars.
  - apply single_spaced_rstrip, (single_spaced_lstrip false), single_spaced_multispace.
  - apply strip_idem.
Qed.

Lemma lower_fixed (s : str) :
  Forall (fun c => letter_or_space c = true) s ->
  Forall (fun c => is_ascii_upper c = false) s ->
  lower U s = s.
Proof.
  intros Hs Hu. rewrite (lower_ascii U L) by done.
  induction Hu as [|c r Hc Hr IH]; simpl; [done|].
  apply Forall_cons in Hs as [_ Hs]. rewrite IH by done.
  unfold ascii_lower. by rewrite Hc.
Qed.

Lemma strip_accents_fixed (s : str) :
  Forall (fun c => letter_or_space c = true) s -> strip_accents U s = s.
Proof.
  intros Hs. unfold strip_accents. rewrite (nfkd_ascii U L) by done.
  induction Hs as [|c r Hc Hr IH]; simpl; [done|].
  by rewrite (combining_ascii U L c Hc), IH.
Qed.

Lemma non_letter_sub_fixed (s : str) :
  Forall (fun c => letter_or_space c = true) s -> non_letter_sub U s = s.
Proof.
  unfold non_letter_sub. induction 1 as [|c r Hc Hr IH]; simpl; [done|].
  rewrite IH. f_equal. unfold letter_or_space in Hc.
  destruct (is_ascii_letter c); simpl in *; [done|].
  apply N.eqb_eq in Hc as ->. by rewrite (space_isspace U L).
Qed.

Lemma normalize_fixed (y : str) :
  Forall (fun c => letter_or_space c = true) y ->
  single_spaced U false y ->
  strip U y = y ->
  Forall (fun c => is_ascii_upper c = false) y ->
  match_title U (titles) y = None ->
  normalize U y = y.
Proof.
  intros Hc Hs Hstrip Hu Ht. unfold normalize, normalize_strict.
  rewrite Hstrip, lower_fixed, strip_accents_fixed by done.
  unfold title_sub. rewrite Ht.
  rewrite non_letter_sub_fixed by done.
  unfold multispace_sub. by rewrite multispace_fixed.
Qed.
End Shape.

(** [latin1] satisfies the hypotheses on the database. *)
Lemma below_128 (P : N -> bool) :
  forallb P (map N.of_nat (seq 0 128)) = true ->
  forall c, (c < 128)%N -> P c = true.
Proof.
  intros H c Hc. rewrite forallb_forall in H. apply H.
  apply list_elem_of_In, list_elem_of_fmap. exists (N.to_nat c).
  split; [lia|]. apply elem_of_seq. lia.
Qed.

Lemma letter_or_space_below_128 (c : N) : letter_or_space c = true -> (c < 128)%N.
Proof.
  unfold letter_or_space, is_ascii_letter, is_ascii_upper, is_ascii_lower.
  rewrite !orb_true_iff, !andb_true_iff, !N.leb_le, N.eqb_eq. lia.
Qed.

Lemma latin1_laws : AsciiLaws latin1.
Proof.
  assert (Hlow : forall c, letter_or_space c = true -> latin1_lower_char c = ascii_lower c).
  { intros c Hc%letter_or_space_below_128.
    assert (Hall : forallb (fun c => bool_decide (latin1_lower_char c = ascii_lower c))
                           (map N.of_nat (seq 0 128)) = true) by (vm_compute; reflexivity).
    pose proof (below_128 _ Hall c Hc) as H. by apply bool_decide_eq_true_1 in H. }
  assert (Hnf : forall c, letter_or_space c = true -> latin1_nfkd_char c = [c]).
  { intros c Hc%letter_or_space_below_128.
    assert (Hall : forallb (fun c => bool_decide (latin1_nfkd_char c = [c]))
                           (map N.of_nat (seq 0 128)) = true) by (vm_compute; reflexivity).
    pose proof (below_128 _ Hall c Hc) as H. by apply bool_decide_eq_true_1 in H. }
  split; simpl.
  - done.
  - induction 1 as [|c r Hc Hr IH]; simpl; [done|]. by rewrite Hlow, IH.
  - induction 1 as [|c r Hc Hr IH]; simpl; [done|]. by rewrite Hnf, IH.
  - intros c Hc%letter_or_space_below_128. unfold latin1_combining.
    destruct (N.leb_spec 768 c); [lia|done].
Qed.

(** *** N-grams of the engine *)

Lemma char_ngrams_unpadded (s : str) (n : Z) :
  0 < n ->
  char_ngrams s n =
    match s with
    | [] => []
    | _ =>
        if len s <=? n then [s]
        else map (fun i => take (Z.to_nat n) (drop (Z.to_nat i) s))
                 (range (len s - n + 1))
    end.
Proof.
  intros Hn. unfold char_ngrams. destruct s as [|c r]; [done|].
  destruct (Z.leb_spec (len (c :: r)) n); [done|].
  apply map_ext_in. intros i Hi%list_elem_of_In%PyFacts.elem_of_range.
  apply PyFacts.slice_take_drop; lia.
Qed.

Lemma char_ngrams_length (s g : str) (n : Z) :
  0 < n -> n < len s -> g ∈ char_ngrams s n -> len g = n.
Proof.
  intros Hn Hlen. rewrite char_ngrams_unpadded by done.
  destruct s as [|c r]; [by intros ?%elem_of_nil|].
  destruct (Z.leb_spec (len (c :: r)) n); [lia|].
  intros (i & -> & Hi%PyFacts.elem_of_range)%list_elem_of_fmap.
  unfold len in *. rewrite length_take, length_drop. lia.
Qed.

(** The earlier module does pad: its grams are those of the
    specification. *)
Lemma code_char_ngrams_padded (text : str) (n : Z) :
  0 < n ->
  CodeMatching.char_ngrams text n = Ok (list_to_set (padded_ngrams text n)).
Proof.
  intros Hn. unfold CodeMatching.char_ngrams, padded_ngrams.
  destruct (Z.leb_spec n 0); [lia|].
  destruct (len ([32%N] ++ text ++ [32%N]) <? n) eqn:E.
  - f_equal. simpl. by rewrite union_empty_r_L.
  - apply Z.ltb_ge in E. do 2 f_equal. apply map_ext_in.
    intros i Hi%list_elem_of_In%PyFacts.elem_of_range.
    apply PyFacts.slice_take_drop; lia.
Qed.

(** C3, the counterexample: a second title survives the first pass and is
    removed by the second one. *)
Lemma normalize_not_idempotent :
  normalize latin1 (cp "dr dr juan"%string) = cp "dr juan"%string
  /\ normalize latin1 (normalize latin1 (cp "dr dr juan"%string)) = cp "juan"%string
  /\ normalize latin1 (normalize latin1 (cp "dr dr juan"%string))
     <> normalize latin1 (cp "dr dr juan"%string).
Proof. vm_compute. split_and!; [done | done | discriminate]. Qed.

(** C3, as amended: [normalize(normalize(x)) == normalize(x)] for every [x]
    whose normalized form has no upper-case letter and does not start with
    a title followed by a space. *)
Theorem normalize_idempotent_without_title (U : Unicode) (L : AsciiLaws U) (x : str) :
  Forall (fun c => is_ascii_upper c = false) (normalize U x) ->
  match_title U titles (normalize U x) = None ->
  normalize U (normalize U x) = normalize U x.
Proof.
  intros Hu Ht. destruct (normalize_shape U L x) as (Hc & Hs & Hstrip).
  by apply normalize_fixed.
Qed.

Lemma normalize_idempotent_witness :
  let x := cp "  Dra.  Juan-Carlos  P"%string ++ [201%N] ++ cp "REZ "%string in
  Forall (fun c => is_ascii_upper c = false) (normalize latin1 x)
  /\ match_title latin1 titles (normalize latin1 x) = None
  /\ normalize latin1 (normalize latin1 x) = normalize latin1 x.
Proof.
  intros x.
  assert (Hu : Forall (fun c => is_ascii_upper c = false) (normalize latin1 x)).
  { vm_compute. repeat constructor. }
  assert (Ht : match_title latin1 titles (normalize latin1 x) = None).
  { vm_compute. reflexivity. }
  split_and!; [exact Hu | exact Ht |].
  exact (normalize_idempotent_without_title latin1 latin1_laws x Hu Ht).
Defined.

End MatchingFacts.

(** ** search_engine.py: index, candidates and ranking *)

Module EngineFacts.
Import Py Engine.

(** *** The order of the sort keys *)

Lemma key_ltb_lt (a b : Q * Q * Q * Z) : key_ltb a b = true <-> key_lt a b.
Proof.
  destruct a as [[[a1 a2] a3] a4], b as [[[b1 b2] b3] b4]. unfold key_ltb, key_lt.
  rewrite <- Zlt_Qlt.
  destruct (Qeq_bool a1 b1) eqn:E1; simpl;
    [apply Qeq_bool_iff in E1 | apply PyFacts.Qeq_bool_false in E1; rewrite PyFacts.Qltb_lt; lra].
  destruct (Qeq_bool a2 b2) eqn:E2; simpl;
    [apply Qeq_bool_iff in E2 | apply PyFacts.Qeq_bool_false in E2; rewrite PyFacts.Qltb_lt; lra].
  destruct (Qeq_bool a3 b3) eqn:E3; simpl;
    [apply Qeq_bool_iff in E3 | apply PyFacts.Qeq_bool_false in E3; rewrite PyFacts.Qltb_lt; lra].
  rewrite Z.ltb_lt. split; [intros H|]; lra || (intuition lra).
Qed.

Lemma key_ltb_asym (a b : Q * Q * Q * Z) : key_ltb a b = true -> key_ltb b a = false.
Proof.
  intros H%key_ltb_lt. apply not_true_is_false. intros H'%key_ltb_lt.
  destruct a as [[[a1 a2] a3] a4], b as [[[b1 b2] b3] b4]. unfold key_lt in *. lra.
Qed.

Lemma key_ltb_negtrans (a b c : Q * Q * Q * Z) :
  key_ltb b a = false -> key_ltb c b = false -> key_ltb c a = false.
Proof.
  intros H1 H2. apply not_true_is_false. intros H3%key_ltb_lt.
  apply not_true_iff_false in H1, H2. rewrite key_ltb_lt in H1, H2.
  destruct a as [[[a1 a2] a3] a4], b as [[[b1 b2] b3] b4], c as [[[c1 c2] c3] c4].
  unfold key_lt in *. lra.
Qed.



(** *** The index built by [_build_index] *)

Lemma posting_inverted_add (inv : gmap str (gset Z)) (ng g : str) (rid : Z) :
  posting (inverted_add inv ng rid) g =
    if decide (ng = g) then posting inv g ∪ {[ rid ]} else posting inv g.
Proof.
  unfold posting, inverted_add. case_decide as Hg.
  - subst ng. by rewrite lookup_insert_eq.
  - by rewrite lookup_insert_ne.
Qed.

Lemma posting_foldl_add (grams : list str) (rid : Z) (inv : gmap str (gset Z))
    (g : str) (rid' : Z) :
  rid' ∈ posting (foldl (fun inv ng => inverted_add inv ng rid) inv grams) g
  <-> rid' ∈ posting inv g \/ (rid' = rid /\ g ∈ grams).
Proof.
  revert inv. induction grams as [|ng r IH]; intros inv; simpl.
  - set_solver.
  - rewrite IH, posting_inverted_add. case_decide; set_solver.
Qed.

Lemma indexes_empty (cfg : SearchConfig) :
  indexes [] {| config := cfg; records_by_id := []; inverted := ∅ |}.
Proof.
  unfold indexes. simpl. split_and!.
  - constructor.
  - done.
  - by intros rec ?%elem_of_nil.
  - intros g rid. unfold posting. rewrite lookup_empty. simpl. split.
    + by intros ?%elem_of_empty.
    + by intros (rec & ?%elem_of_nil & _).
Qed.

Lemma indexes_step (recs : list NameRecord) (e : SearchEngine) (rec : NameRecord) :
  indexes recs e -> indexes (recs ++ [rec]) (index_record e rec).
Proof.
  intros (Hnd & Hget & Hall & Hpost). unfold indexes. simpl. split_and!.
  - by apply PyFacts.dict_set_NoDup.
  - intros rid r. rewrite PyFacts.dict_get_set. case_decide as Hid.
    + intros [= <-]. split; [|done]. apply elem_of_app. right. by left.
    + intros [Hin ?]%Hget. split; [|done]. apply elem_of_app. by left.
  - intros r Hr. rewrite PyFacts.dict_get_set. case_decide; [by eexists|].
    apply elem_of_app in Hr as [Hr|Hr%list_elem_of_singleton]; [by apply Hall|].
    by subst r.
  - intros g rid. rewrite posting_foldl_add, Hpost. split.
    + intros [(r & Hr & Hid & Hg)|[-> Hg]].
      * exists r. split_and!; [|done..]. apply elem_of_app. by left.
      * exists rec. split_and!; [|done..]. apply elem_of_app. right. by left.
    + intros (r & [Hr|Hr%list_elem_of_singleton]%elem_of_app & Hid & Hg).
      * left. by exists r.
      * subst r. right. by split.
Qed.

Lemma indexes_build (recs done_recs : list NameRecord) (e : SearchEngine) :
  indexes done_recs e -> indexes (done_recs ++ recs) (_build_index e recs).
Proof.
  unfold _build_index. revert done_recs e. induction recs as [|rec r IH]; intros done_recs e He; simpl.
  - by rewrite app_nil_r.
  - replace (done_recs ++ rec :: r) with ((done_recs ++ [rec]) ++ r)
      by (by rewrite <- app_assoc).
    by apply IH, indexes_step.
Qed.

Lemma new_engine_indexes (recs : list NameRecord) (cfg : SearchConfig) :
  indexes recs (new_engine recs cfg).
Proof. apply (indexes_build recs []), indexes_empty. Qed.

Lemma config_build (recs : list NameRecord) (e : SearchEngine) :
  config (_build_index e recs) = config e.
Proof. unfold _build_index. revert e. induction recs as [|rec r IH]; intros e; simpl; [done|]. by rewrite IH. Qed.

Lemma new_engine_config (recs : list NameRecord) (cfg : SearchConfig) :
  config (new_engine recs cfg) = cfg.
Proof. apply config_build. Qed.

Lemma new_engine_keys (recs : list NameRecord) (cfg : SearchConfig) (rid : Z) :
  rid ∈ dict_keys (records_by_id (new_engine recs cfg))
  <-> exists rec, rec ∈ recs /\ id rec = rid.
Proof.
  destruct (new_engine_indexes recs cfg) as (_ & Hget & Hall & _).
  rewrite <- PyFacts.dict_get_is_Some. split.
  - intros [rec Hrec]. exists rec. by apply Hget.
  - intros (rec & Hrec & <-). by apply Hall.
Qed.

(** *** Candidate generation *)

Lemma elem_of_union_postings (e : SearchEngine) (grams : list str) (rid : Z) :
  rid ∈ union_postings e grams
  <-> exists g, g ∈ grams /\ rid ∈ posting (inverted e) g.
Proof.
  unfold union_postings.
  assert (Hgen : forall acc,
    rid ∈ foldl (fun acc g => acc ∪ posting (inverted e) g) acc grams
    <-> rid ∈ acc \/ exists g, g ∈ grams /\ rid ∈ posting (inverted e) g).
  { induction grams as [|g r IH]; intros acc; simpl.
    - split; [by left|]. intros [?|(g & ?%elem_of_nil & _)]; done.
    - rewrite IH, elem_of_union. split.
      + intros [[?|?]|(g' & ? & ?)]; [by left| |].
        * right. exists g. split; [by left|done].
        * right. exists g'. split; [by right|done].
      + intros [?|(g' & [->|?]%elem_of_cons & ?)]; [by do 2 left|by left; right|].
        right. by exists g'. }
  rewrite Hgen. split; [|by right]. by intros [?%elem_of_empty|?].
Qed.

Lemma candidate_ids_cases (e : SearchEngine) (q : str) (rid : Z) :
  rid ∈ candidate_ids e q ->
  rid ∈ dict_keys (records_by_id e)
  \/ rid ∈ union_postings e (Matching.char_ngrams q (ngram_n (config e))).
Proof.
  unfold candidate_ids. case_decide; [by left|]. intros Hrid. right.
  destruct (_ >? _); [|by apply elem_of_elements].
  apply PyFacts.slice_to_subseteq, PyFacts.sorted_elem_of in Hrid.
  by apply elem_of_elements.
Qed.

Lemma candidate_ids_known (recs : list NameRecord) (e : SearchEngine) (q : str) :
  indexes recs e ->
  Forall (fun rid => is_Some (dict_get (records_by_id e) rid)) (candidate_ids e q).
Proof.
  intros (_ & _ & Hall & Hpost). apply Forall_forall. intros rid Hrid.
  apply candidate_ids_cases in Hrid as [Hrid|Hrid].
  - by apply PyFacts.dict_get_is_Some.
  - apply elem_of_union_postings in Hrid as (g & _ & Hg).
    apply Hpost in Hg as (rec & Hrec & <- & _). by apply Hall.
Qed.

(** *** [search_explain] *)

Section Search.
Variables token_set_ratio ratio : str -> str -> Q.

Lemma score_all_spec (recs : list NameRecord) (e : SearchEngine)
    (q : str) (th w : Q) (ids : list Z) :
  indexes recs e ->
  Forall (fun rid => is_Some (dict_get (records_by_id e) rid)) ids ->
  exists scored raws,
    score_all token_set_ratio ratio e q th w ids = Ok scored
    /\ raw_all token_set_ratio ratio e q th w ids = Ok raws
    /\ Forall2 (shows w) scored raws
    /\ Forall (scored_for token_set_ratio ratio q th w recs) scored.
Proof.
  intros (_ & Hget & _ & _). induction 1 as [|rid r [rec Hrec] Hr IH].
  - exists [], []. by repeat split.
  - destruct IH as (scored & raws & Hs & Hraw & Hshow & Hfor).
    cbn [score_all raw_all]. unfold score_candidate, raw_candidate.
    rewrite Hrec, Hs, Hraw. destruct (Hget _ _ Hrec) as [Hin _].
    destruct (Qle_bool th _) eqn:Hth; simpl.
    + eexists (_ :: scored), (_ :: raws). split_and!; [done|done| |].
      * constructor; [|done]. by split.
      * constructor; [|done]. exists rec. by repeat split.
    + exists scored, raws. by repeat split.
Qed.




Lemma search_explain_run (recs : list NameRecord) (cfg : SearchConfig)
    (q : str) (th : Q) (limit : Z) (w : Q) :
  let e := new_engine recs cfg in
  exists (scored : list Scored) (raws : list Raw),
    search_explain token_set_ratio ratio e q th limit w
      = Ok (slice_to (map pop_raw (sorted scored_ltb scored)) limit,
            len (candidate_ids e q))
    /\ search_explain_spec token_set_ratio ratio e q th limit w
      = Ok (slice_to (map (display w) (sorted raw_ltb raws)) limit,
            len (candidate_ids e q))
    /\ Forall2 (shows w) scored raws
    /\ Forall (scored_for token_set_ratio ratio q th w recs) scored.
Proof.
  intros e. pose proof (new_engine_indexes recs cfg) as He. fold e in He.
  destruct (score_all_spec recs e q th w (candidate_ids e q) He
              (candidate_ids_known recs e q He))
    as (scored & raws & Hs & Hraw & Hshow & Hfor).
  exists scored, raws.
  unfold search_explain, search_explain_spec. rewrite Hs, Hraw. by simpl.
Qed.

(** [search_explain] never raises on an engine built from a repository. *)
Lemma search_explain_total (recs : list NameRecord) (cfg : SearchConfig)
    (q : str) (th : Q) (limit : Z) (w : Q) :
  exists r, search_explain token_set_ratio ratio (new_engine recs cfg) q th limit w = Ok r.
Proof.
  destruct (search_explain_run recs cfg q th limit w) as (scored & raws & H & _).
  eauto.
Qed.

End Search.

(** *** The grams of the index *)




(** *** The fallback of candidate generation *)

(** C6: when no gram of the query has a posting list, the candidates are
    the ids of all the records, and there is one at least as soon as the
    repository has a record. *)
Theorem candidate_fallback (recs : list NameRecord) (cfg : SearchConfig) (q : str) :
  let e := new_engine recs cfg in
  (forall g, g ∈ Matching.char_ngrams q (ngram_n cfg) -> posting (inverted e) g = ∅) ->
  candidate_ids e q = dict_keys (records_by_id e)
  /\ (forall rid, rid ∈ candidate_ids e q <-> exists rec, rec ∈ recs /\ id rec = rid)
  /\ (recs <> [] -> candidate_ids e q <> []).
Proof.
  intros e Hmiss.
  assert (Hcfg : ngram_n (config e) = ngram_n cfg) by (unfold e; by rewrite new_engine_config).
  assert (Hcand : candidate_ids e q = dict_keys (records_by_id e)).
  { unfold candidate_ids. rewrite Hcfg. case_decide as Hne; [done|]. exfalso.
    apply Hne, elem_of_equiv_empty_L. intros rid (g & Hg & Hrid)%elem_of_union_postings.
    rewrite (Hmiss g Hg) in Hrid. by apply elem_of_empty in Hrid. }
  rewrite Hcand. split_and!; [done|apply new_engine_keys|].
  intros Hrecs Hnil. destruct recs as [|rec r]; [done|].
  assert (Hin : id rec ∈ dict_keys (records_by_id e))
    by (apply new_engine_keys; exists rec; split; [by left|done]).
  rewrite Hnil in Hin. by apply elem_of_nil in Hin.
Qed.

Lemma candidate_fallback_witness :
  (forall g, g ∈ Matching.char_ngrams (cp "zzz"%string) 3 ->
             posting (inverted Example.engine) g = ∅)
  /\ candidate_ids Example.engine (cp "zzz"%string) = [1; 2].
Proof.
  assert (Hmiss : forall g, g ∈ Matching.char_ngrams (cp "zzz"%string) (ngram_n default_config) ->
                            posting (inverted Example.engine) g = ∅).
  { intros g Hg. vm_compute in Hg. apply list_elem_of_singleton in Hg as ->.
    vm_compute. reflexivity. }
  split; [exact Hmiss|].
  destruct (candidate_fallback Example.repo default_config (cp "zzz"%string) Hmiss) as (-> & _).
  vm_compute. reflexivity.
Defined.
End EngineFacts.

(** ** app.py: the cache and the request path *)

Module LRUCacheFacts.
Import Py LRUCache.

Section Cache.
Context {K V : Type} `{EqDecision K}.
Implicit Types (c : LRUCache K V) (d : list (K * V)) (k : K) (v : V).

Lemma dict_remove_set d k v : dict_remove (dict_set d k v) k = dict_remove d k.
Proof.
  induction d as [|[k0 v0] r IH]; simpl.
  - by case_decide.
  - destruct (decide (k0 = k)) as [->|Hne]; simpl.
    + by case_decide.
    + case_decide; [done|]. by rewrite IH.
Qed.

Lemma move_to_end_set d k v :
  move_to_end (dict_set d k v) k = dict_remove d k ++ [(k, v)].
Proof.
  unfold move_to_end. by rewrite PyFacts.dict_get_set_eq, dict_remove_set.
Qed.

Lemma set_data c k v :
  _data (set c k v) =
    let d := dict_remove (_data c) k ++ [(k, v)] in
    if len d >? maxsize c then tail d else d.
Proof. unfold set. simpl. by rewrite move_to_end_set. Qed.

Lemma set_fresh c k v :
  dict_get (_data c) k = None -> len (_data c) < maxsize c ->
  set c k v = {| maxsize := maxsize c; _data := _data c ++ [(k, v)] |}.
Proof.
  intros Hk Hlen. unfold set. rewrite move_to_end_set, PyFacts.dict_remove_absent by done.
  unfold len in *. rewrite length_app. simpl.
  destruct (Z.gtb_spec (Z.of_nat (length (_data c) + 1)) (maxsize c)); [lia|done].
Qed.

(** Distinct keys fill an empty cache in the order of their insertion. *)
Lemma fill_distinct (cap : Z) (kvs : list (K * V)) :
  NoDup (dict_keys kvs) -> len kvs <= cap ->
  foldl (fun c kv => set c (fst kv) (snd kv)) (new cap) kvs
    = {| maxsize := cap; _data := kvs |}.
Proof.
  induction kvs as [|[k v] r IH] using rev_ind; [done|].
  unfold dict_keys, len. rewrite fmap_app, length_app. simpl.
  intros (Hr & Hk & _)%NoDup_app Hlen. rewrite foldl_snoc, IH by (done || unfold len; lia).
  simpl. rewrite set_fresh; simpl; [done| |unfold len; lia].
  apply PyFacts.dict_get_None. intros Hin. apply (Hk k Hin). by left.
Qed.

Lemma dict_remove_length d k : (length (dict_remove d k) <= length d)%nat.
Proof.
  induction d as [|[k0 v0] r IH]; simpl; [done|]. case_decide; simpl; lia.
Qed.

Lemma NoDup_tail {A} (l : list A) : NoDup l -> NoDup (tail l).
Proof. destruct l; [done|]. by intros [_ ?]%NoDup_cons. Qed.

Lemma promoted_NoDup d k v :
  NoDup (dict_keys d) -> NoDup (dict_keys (dict_remove d k ++ [(k, v)])).
Proof.
  intros Hnd. unfold dict_keys. rewrite fmap_app. apply NoDup_app. split_and!.
  - by apply PyFacts.dict_remove_NoDup.
  - intros k' Hk' ->%list_elem_of_singleton.
    by apply (PyFacts.dict_keys_remove_not_in d k).
  - apply NoDup_singleton.
Qed.

(** C7: the cache is an LRU cache of capacity [maxsize].  A [get] on a
    stored key returns its value and makes the entry the most recently used
    one, the others keeping their order; a [get] on an absent key returns
    nothing and changes nothing; [set] stores the value as the most recently
    used entry and, when the size then exceeds the capacity, drops the least
    recently used entry and no other; [maxsize + 1] distinct keys inserted
    into an empty cache leave all of them but the first. *)
Theorem lru_cache_behaviour c :
  NoDup (dict_keys (_data c)) ->
  let others k := List.filter (fun kv => negb (bool_decide (fst kv = k))) (_data c) in
  (forall k, dict_get (_data c) k = None -> get c k = (None, c))
  /\ (forall k v, dict_get (_data c) k = Some v ->
        get c k = (Some v, {| maxsize := maxsize c; _data := others k ++ [(k, v)] |}))
  /\ (forall k v,
        maxsize (set c k v) = maxsize c
        /\ _data (set c k v) =
             (let d := others k ++ [(k, v)] in
              if len d >? maxsize c then tail d else d)
        /\ NoDup (dict_keys (_data (set c k v))))
  /\ (forall k v, len (_data c) <= maxsize c -> len (_data (set c k v)) <= maxsize c)
  /\ (forall cap (kvs : list (K * V)),
        NoDup (dict_keys kvs) -> len kvs = cap + 1 ->
        _data (foldl (fun c kv => set c (fst kv) (snd kv)) (new cap) kvs) = tail kvs).
Proof.
  intros Hnd others. split_and!.
  - intros k Hk. unfold get. by rewrite Hk.
  - intros k v Hk. unfold get, move_to_end. rewrite Hk.
    unfold others. by rewrite <- PyFacts.dict_remove_filter.
  - intros k v. split_and!; [done| |].
    + unfold others. rewrite <- PyFacts.dict_remove_filter by done. apply set_data.
    + rewrite set_data. simpl. pose proof (promoted_NoDup (_data c) k v Hnd) as Hp.
      destruct (_ >? _); [|done]. unfold dict_keys in *.
      rewrite fmap_tail. by apply NoDup_tail.
  - intros k v Hlen. rewrite set_data. cbn zeta.
    pose proof (dict_remove_length (_data c) k) as Hrem. unfold len in *.
    assert (Hd : (length (dict_remove (_data c) k ++ [(k, v)])
                  <= length (_data c) + 1)%nat) by (rewrite length_app; simpl; lia).
    destruct (Z.gtb_spec (Z.of_nat (length (dict_remove (_data c) k ++ [(k, v)])))
                (maxsize c)) as [Hgt|Hle]; [|done].
    destruct (dict_remove (_data c) k ++ [(k, v)]) as [|x d'] eqn:Ed; simpl in *; lia.
  - intros cap kvs Hkvs Hlen.
    destruct kvs as [|kv r _] using rev_ind.
    + unfold len in Hlen. simpl in *. done.
    + unfold dict_keys, len in *. rewrite fmap_app in Hkvs. rewrite length_app in Hlen.
      simpl in *. apply NoDup_app in Hkvs as (Hr & Hk & _).
      rewrite foldl_snoc, fill_distinct by (done || unfold len; lia).
      rewrite set_data. simpl. rewrite PyFacts.dict_remove_absent.
      * destruct kv as [k v]. simpl. unfold len. rewrite length_app. simpl.
        destruct (Z.gtb_spec (Z.of_nat (length r + 1)) cap); [done|lia].
      * apply PyFacts.dict_get_None. intros Hin. apply (Hk (fst kv) Hin). by left.
Qed.
End Cache.

Lemma lru_cache_behaviour_witness :
  let c : LRUCache Z Z := {| maxsize := 2; _data := [(1, 10); (2, 20)] |} in
  NoDup (dict_keys (_data c))
  /\ get c 3 = (None, c)
  /\ get c 1 = (Some 10, {| maxsize := 2; _data := [(2, 20); (1, 10)] |})
  /\ _data (set c 3 30) = [(2, 20); (3, 30)]
  /\ _data (set (snd (get c 1)) 3 30) = [(1, 10); (3, 30)]
  /\ _data (foldl (fun c kv => set c (fst kv) (snd kv)) (new 2) [(1, 10); (2, 20); (3, 30)])
     = [(2, 20); (3, 30)].
Proof.
  intros c.
  assert (Hnd : NoDup (dict_keys (_data c))).
  { simpl. apply NoDup_cons. split; [set_solver|]. apply NoDup_singleton. }
  destruct (lru_cache_behaviour c Hnd) as (Hmiss & Hhit & Hset & _ & Hfill).
  assert (Hnd' : NoDup (dict_keys (_data (snd (get c 1))))).
  { rewrite (Hhit 1 10 eq_refl). simpl.
    apply NoDup_cons. split; [set_solver|]. apply NoDup_singleton. }
  destruct (lru_cache_behaviour (snd (get c 1)) Hnd') as (_ & _ & Hset' & _).
  split_and!.
  - exact Hnd.
  - by apply Hmiss.
  - by rewrite (Hhit 1 10 eq_refl).
  - destruct (Hset 3 30) as (_ & -> & _). reflexivity.
  - destruct (Hset' 3 30) as (_ & -> & _). reflexivity.
  - rewrite (Hfill 2 [(1, 10); (2, 20); (3, 30)]); [done| |done].
    simpl. repeat (apply NoDup_cons; split; [set_solver|]). apply NoDup_nil_2.
Defined.
End LRUCacheFacts.

Module AppFacts.
Import Py App.

(** *** [run_match] on a cache hit *)

(** C10: when the key of the request is stored in the cache, [run_match]
    returns the stored payload and counts one request, one occurrence of
    the normalized query and one cache hit; the two rolling windows and
    the four tie-break counters are left as they were. *)
Theorem run_match_cache_hit (U : Matching.Unicode)
    (token_set_ratio ratio : str -> str -> Q) (eng : Engine.SearchEngine)
    (st : AppState) (latency_ms : Q) (name : str) (threshold : Q) (limit : Z)
    (w_token : Q) (explain include_by_id : bool) (payload : Payload) :
  let q_norm := Matching.normalize U name in
  let key : Key := (q_norm, Qred threshold, limit, Qred w_token, explain, include_by_id) in
  let m := metrics st in
  dict_get (LRUCache._data (cache st)) key = Some payload ->
  exists st',
    run_match U token_set_ratio ratio (Some eng) st latency_ms
              name threshold limit w_token explain include_by_id = (Ok payload, st')
    /\ Metrics.total_requests (metrics st') = Metrics.total_requests m + 1
    /\ dict_get (Metrics.top_queries (metrics st')) q_norm
       = Some (default 0 (dict_get (Metrics.top_queries m) q_norm) + 1)
    /\ (forall q, q <> q_norm ->
          dict_get (Metrics.top_queries (metrics st')) q
          = dict_get (Metrics.top_queries m) q)
    /\ Metrics.total_cache_hits (metrics st') = Metrics.total_cache_hits m + 1
    /\ Metrics.rolling (metrics st') = Metrics.rolling m
    /\ Metrics.tie_groups_total (metrics st') = Metrics.tie_groups_total m
    /\ Metrics.tie_resolved_by_token (metrics st') = Metrics.tie_resolved_by_token m
    /\ Metrics.tie_resolved_by_edit (metrics st') = Metrics.tie_resolved_by_edit m
    /\ Metrics.tie_resolved_by_id (metrics st') = Metrics.tie_resolved_by_id m
    /\ LRUCache._data (cache st')
       = dict_remove (LRUCache._data (cache st)) key ++ [(key, payload)].
Proof.
  intros q_norm key m Hhit. eexists. unfold run_match, LRUCache.get.
  fold q_norm. fold key. rewrite Hhit. split; [reflexivity|]. simpl.
  split_and!; try done.
  - apply PyFacts.dict_get_set_eq.
  - intros q Hq. by apply PyFacts.dict_get_set_ne.
  - unfold move_to_end. by rewrite Hhit.
Qed.

Lemma run_match_cache_hit_witness :
  let key : Key :=
    (Example.query, Qred 70, 10, Qred (65 # 100), false, true) in
  let stored : Payload := {| results := []; results_by_id := Some [] |} in
  let st : AppState :=
    {| metrics := Metrics.new_metrics 0;
       cache := LRUCache.set (LRUCache.new 256) key stored |} in
  dict_get (LRUCache._data (cache st)) key = Some stored
  /\ exists st',
      run_match Matching.latin1 Fuzz.token_set_ratio Fuzz.ratio (Some Example.engine)
                st 0 (cp "Juan Perez"%string) 70 10 (65 # 100) false true = (Ok stored, st')
      /\ Metrics.total_requests (metrics st') = 1
      /\ Metrics.total_cache_hits (metrics st') = 1
      /\ Metrics.rolling (metrics st') = Metrics.new_rolling.
Proof.
  intros key stored st.
  assert (Hhit : dict_get (LRUCache._data (cache st)) key = Some stored)
    by (vm_compute; reflexivity).
  split; [exact Hhit|].
  destruct (run_match_cache_hit Matching.latin1 Fuzz.token_set_ratio Fuzz.ratio
              Example.engine st 0 (cp "Juan Perez"%string) 70 10 (65 # 100) false true
              stored Hhit)
    as (st' & Hrun & Hreq & _ & _ & Hhits & Hroll & _).
  exists st'. by split_and!.
Defined.

(** *** Where [w_token] is checked *)

(** C4, the counterexample: with [w_token = 2] the search returns, and
    ranks the second record first with a similarity of 150. *)
Lemma search_explain_accepts_w_token_2 :
  ~ (0 <= 2 <= 1)%Q
  /\ exists ms,
      Engine.search_explain Fuzz.token_set_ratio Fuzz.ratio Example.engine
        Example.query 70 10 2 = Ok (ms, 2)
      /\ map Engine.m_id ms = [2; 1]
      /\ map Engine.similarity ms = [150%Q; 100%Q].
Proof.
  split; [intros [_ H]; by apply Qle_bool_iff in H|].
  eexists. split; [vm_compute; reflexivity|]. by split.
Qed.

(** C4, as amended: [search_explain] returns normally for every query,
    threshold, limit and [w_token], inside [0, 1] or not; the range of
    [w_token] is checked by [combined_score], which raises [ValueError]
    exactly outside [0, 1], and by the handler of [GET /match], which
    answers 422 before any search. *)
Theorem search_total_w_token_checked_outside
    (token_set_ratio ratio : str -> str -> Q) :
  (forall recs cfg q threshold limit w,
     exists r,
       Engine.search_explain token_set_ratio ratio (Engine.new_engine recs cfg)
         q threshold limit w = Ok r)
  /\ (forall q c w,
        CodeMatching.combined_score token_set_ratio ratio q c w = Raise ValueError
        <-> ~ (0 <= w <= 1)%Q)
  /\ (forall q c w,
        (0 <= w <= 1)%Q ->
        CodeMatching.combined_score token_set_ratio ratio q c w
        = Ok (w * token_set_ratio q c + (1 - w) * ratio q c)%Q)
  /\ (forall U eng st latency_ms name threshold limit w explain include_by_id,
        ~ (0 <= w <= 1)%Q ->
        App.match_get U token_set_ratio ratio eng st latency_ms name
          threshold limit w explain include_by_id
        = (Raise (HTTPException 422), st)).
Proof.
  assert (Hrange : forall w, Qle_bool 0 w && Qle_bool w 1 = true <-> (0 <= w <= 1)%Q).
  { intros w. by rewrite andb_true_iff, !Qle_bool_iff. }
  split_and!.
  - intros. apply EngineFacts.search_explain_total.
  - intros q c w. unfold CodeMatching.combined_score. rewrite <- Hrange.
    destruct (Qle_bool 0 w && Qle_bool w 1); simpl; split; (done || congruence || auto).
  - intros q c w Hw%Hrange. unfold CodeMatching.combined_score. by rewrite Hw.
  - intros U eng st latency_ms name threshold limit w explain include_by_id Hw.
    rewrite <- Hrange in Hw. apply not_true_is_false in Hw.
    unfold match_get. rewrite Hw.
    destruct (negb (Qle_bool 0 threshold && Qle_bool threshold 100)); [done|].
    by destruct (negb ((1 <=? limit) && (limit <=? 100))).
Qed.

Lemma search_total_w_token_checked_outside_witness :
  (exists r,
     Engine.search_explain Fuzz.token_set_ratio Fuzz.ratio Example.engine
       Example.query 70 10 2 = Ok r)
  /\ CodeMatching.combined_score Fuzz.token_set_ratio Fuzz.ratio
       (cp "juan perez"%string) (cp "perez juan"%string) 2 = Raise ValueError
  /\ CodeMatching.combined_score Fuzz.token_set_ratio Fuzz.ratio
       (cp "juan perez"%string) (cp "perez juan"%string) (1 # 2)
     = Ok ((1 # 2) * Fuzz.token_set_ratio (cp "juan perez"%string) (cp "perez juan"%string)
           + (1 - (1 # 2)) * Fuzz.ratio (cp "juan perez"%string) (cp "perez juan"%string))%Q.
Proof.
  destruct (search_total_w_token_checked_outside Fuzz.token_set_ratio Fuzz.ratio)
    as (Htotal & Hraise & Hok & _).
  split_and!.
  - apply (Htotal Example.repo Engine.default_config).
  - apply Hraise. intros [_ H]. by apply Qle_bool_iff in H.
  - apply Hok. split; by apply Qle_bool_iff.
Defined.

(** *** The example of the two records *)

(** C5, the counterexample: the second name is normalized to
    ["perez juan"], the tokens keeping their order; its similarity is
    82.5 and no tie is found. *)
Lemma perez_juan_keeps_its_order :
  Matching.normalize Matching.latin1 Example.perez_juan = cp "perez juan"%string
  /\ Matching.normalize Matching.latin1 Example.perez_juan <> cp "juan perez"%string
  /\ exists ms,
      Engine.search_explain Fuzz.token_set_ratio Fuzz.ratio Example.engine
        Example.query 70 10 (65 # 100) = Ok (ms, 2)
      /\ map Engine.similarity ms <> [100%Q; 100%Q]
      /\ compute_tie_break_stats ms <> (1, 0, 0, 1).
Proof.
  split_and!; [by vm_compute|by vm_compute|].
  eexists. split; [vm_compute; reflexivity|]. split; by vm_compute.
Qed.

(** C5, as amended: for the query ["Juan Perez"] against the records
    [{1, "Juan Pérez"}] and [{2, "Pérez, Juan"}], normalization gives
    ["juan perez"] for the query and the first record and ["perez juan"]
    for the second; with the default [w_token = 0.65], threshold 70 and
    limit 10 the first record scores 100.0 and the second 82.5 (token
    score 100, edit score 50); the order is [1, 2], decided by the
    similarity, and the tie-break pass finds no tie group.  ([165 # 2] is
    82.5 and [13 # 20] is 0.65.) *)
Theorem juan_perez_example :
  Example.query = cp "juan perez"%string
  /\ map Engine.normalized_name Example.repo = [cp "juan perez"%string; cp "perez juan"%string]
  /\ Engine.search_explain Fuzz.token_set_ratio Fuzz.ratio Example.engine
       Example.query 70 10 (65 # 100)
     = Ok ([ {| Engine.m_id := 1; Engine.m_name := Example.juan_perez;
                Engine.similarity := 100; Engine.token_score := 100;
                Engine.edit_score := 100; Engine.w_token := 13 # 20 |};
             {| Engine.m_id := 2; Engine.m_name := Example.perez_juan;
                Engine.similarity := 165 # 2; Engine.token_score := 100;
                Engine.edit_score := 50; Engine.w_token := 13 # 20 |} ], 2)
  /\ compute_tie_break_stats
       [ {| Engine.m_id := 1; Engine.m_name := Example.juan_perez;
            Engine.similarity := 100; Engine.token_score := 100;
            Engine.edit_score := 100; Engine.w_token := 13 # 20 |};
         {| Engine.m_id := 2; Engine.m_name := Example.perez_juan;
            Engine.similarity := 165 # 2; Engine.token_score := 100;
            Engine.edit_score := 50; Engine.w_token := 13 # 20 |} ]
     = (0, 0, 0, 0).
Proof. split_and!; by vm_compute. Qed.

End AppFacts.

(** ** metrics.py: the snapshot *)

Module MetricsFacts.
Import Py Metrics.

(** *** The percentile *)






(** *** The most frequent queries *)














End MetricsFacts.

(** ** storage copy.py: deduplication *)

Module StorageFacts.
Import Py Storage.

Section Dedupe.
Variable U : Matching.Unicode.
Implicit Types (rows members : list (Z * str)) (groups : list (str * list (Z * str))).

(** *** Grouping *)

Lemma group_rows_snoc rows (row : Z * str) :
  group_rows U (rows ++ [row]) = group_row U (group_rows U rows) row.
Proof. unfold group_rows. by rewrite foldl_snoc. Qed.

Lemma members_of_snoc (k : str) rows (row : Z * str) :
  members_of U k (rows ++ [row])
  = members_of U k rows ++ (if decide (_strict_key U (snd row) = k) then [row] else []).
Proof.
  unfold members_of. rewrite List.filter_app. simpl. case_decide.
  - by rewrite bool_decide_eq_true_2.
  - by rewrite bool_decide_eq_false_2.
Qed.

Lemma group_rows_get rows (k : str) : dict_get (group_rows U rows) k = group_of U k rows.
Proof.
  induction rows as [|[i name] r IH] using rev_ind.
  - unfold group_of. by case_decide.
  - rewrite group_rows_snoc. unfold group_row, group_of in *.
    rewrite members_of_snoc. cbn [snd]. fold (_strict_key U name).
    destruct (_strict_key U name) as [|c0 k0] eqn:Ek.
    + rewrite IH. case_decide as Hk; [done|].
      rewrite decide_False by congruence. by rewrite app_nil_r.
    + rewrite PyFacts.dict_get_set, IH.
      repeat case_decide; simplify_eq; try done.
      * rewrite IH. by destruct (members_of U (c0 :: k0) r) as [|m ms].
      * by rewrite app_nil_r.
Qed.

Lemma group_rows_NoDup rows : NoDup (dict_keys (group_rows U rows)).
Proof.
  induction rows as [|[i name] r IH] using rev_ind; [constructor|].
  rewrite group_rows_snoc. unfold group_row.
  destruct (_strict_key U name); [done|]. by apply PyFacts.dict_set_NoDup.
Qed.

Lemma elem_of_group_rows rows (k : str) members :
  (k, members) ∈ group_rows U rows
  <-> k <> [] /\ members <> [] /\ members = members_of U k rows.
Proof.
  split.
  - intros Hin%(PyFacts.elem_of_dict_get _ _ _ (group_rows_NoDup rows)).
    rewrite group_rows_get in Hin. unfold group_of in Hin.
    case_decide as Hk; [done|].
    destruct (members_of U k rows) as [|m ms]; [done|].
    by simplify_eq.
  - intros (Hk & Hm & ->). apply PyFacts.dict_get_Some_elem_of.
    rewrite group_rows_get. unfold group_of. rewrite decide_False by done.
    by destruct (members_of U k rows).
Qed.

(** *** Counting *)

Lemma dict_set_total groups (k : str) members :
  (sum_list_with (fun g => length (snd g)) (dict_set groups k members)
   + length (default [] (dict_get groups k))
   = sum_list_with (fun g => length (snd g)) groups + length members)%nat.
Proof.
  induction groups as [|[k0 v0] r IH]; simpl; [lia|].
  case_decide; simpl; lia.
Qed.

Lemma keyed_rows_snoc rows (row : Z * str) :
  keyed_rows U (rows ++ [row])
  = keyed_rows U rows ++ (match _strict_key U (snd row) with [] => [] | _ => [row] end).
Proof.
  unfold keyed_rows. rewrite List.filter_app. simpl.
  by destruct (_strict_key U (snd row)).
Qed.

Lemma group_rows_total rows :
  sum_list_with (fun g => length (snd g)) (group_rows U rows) = length (keyed_rows U rows).
Proof.
  induction rows as [|[i name] r IH] using rev_ind; [done|].
  rewrite group_rows_snoc, keyed_rows_snoc, length_app, <- IH. unfold group_row.
  cbn [snd]. fold (_strict_key U name).
  destruct (_strict_key U name) as [|c0 k0]; simpl; [lia|].
  pose proof (dict_set_total (group_rows U r) (c0 :: k0)
                (default [] (dict_get (group_rows U r) (c0 :: k0)) ++ [(i, name)])) as H.
  rewrite length_app in H. simpl in H. lia.
Qed.

(** *** The representative of a group *)

Lemma id_sorted members :
  StronglySorted (fun a b => fst a <= fst b) (sorted id_ltb members).
Proof.
  eapply PyFacts.StronglySorted_weaken;
    [|apply (PyFacts.sorted_StronglySorted id_ltb)].
  - intros a b. unfold may_precede, id_ltb. by rewrite Z.ltb_ge.
  - intros a b. unfold id_ltb. rewrite Z.ltb_lt, Z.ltb_ge. lia.
  - intros a b c. unfold may_precede, id_ltb. rewrite !Z.ltb_ge. lia.
Qed.

Lemma member_ids_sorted (g : str * list (Z * str)) : StronglySorted Z.le (member_ids g).
Proof.
  unfold member_ids. induction (id_sorted (snd g)) as [|m l Hl IH Hm]; simpl.
  - constructor.
  - constructor; [done|]. by apply Forall_fmap.
Qed.

Lemma member_ids_perm (g : str * list (Z * str)) : member_ids g ≡ₚ map fst (snd g).
Proof. unfold member_ids. by rewrite PyFacts.sorted_perm. Qed.

Lemma representative_spec members :
  members <> [] ->
  exists rest, sorted id_ltb members = representative members :: rest
    /\ representative members ∈ members
    /\ forall m, m ∈ members -> fst (representative members) <= fst m.
Proof.
  intros Hne. unfold representative.
  pose proof (id_sorted members) as Hs. pose proof (PyFacts.sorted_perm id_ltb members) as Hp.
  destruct (sorted id_ltb members) as [|rep rest] eqn:E.
  - by apply PyFacts.sorted_nil_inv in E.
  - simpl. exists rest. split_and!; [done| |].
    + rewrite <- Hp. by left.
    + intros m Hm. rewrite <- Hp in Hm. apply StronglySorted_inv in Hs as [_ Hrest].
      apply elem_of_cons in Hm as [->|Hm]; [done|].
      by apply (proj1 (Forall_forall _ _) Hrest).
Qed.

Lemma record_of_represents (g : str * list (Z * str)) :
  snd g <> [] -> represents (record_of g) g.
Proof.
  intros (rest & _ & Hin & Hmin)%representative_spec.
  unfold represents, record_of. simpl. split_and!; [done| |done].
  by destruct (representative (snd g)).
Qed.

(** *** The second loop *)

Lemma emit_groups_eq groups (records : list Engine.NameRecord) (by_rep : gmap Z (list Z)) :
  Forall (fun g => snd g <> []) groups ->
  emit_groups groups records by_rep
  = Ok (records ++ map record_of groups,
        foldl (fun m g => <[ Engine.id (record_of g) := member_ids g ]> m) by_rep groups).
Proof.
  intros Hne. revert records by_rep.
  induction Hne as [|[k members] r Hg Hr IH]; intros records by_rep; simpl.
  - by rewrite app_nil_r.
  - destruct (representative_spec members Hg) as (rest & Hs & _).
    unfold record_of, member_ids. simpl. rewrite Hs.
    destruct (representative members) as [rep_id rep_name] eqn:Erep. simpl.
    rewrite IH. by rewrite <- app_assoc.
Qed.

Lemma audit_lookup groups (by_rep : gmap Z (list Z)) (rep : Z) (ids : list Z) :
  foldl (fun m g => <[ Engine.id (record_of g) := member_ids g ]> m) by_rep groups !! rep
    = Some ids ->
  by_rep !! rep = Some ids
  \/ exists g, g ∈ groups /\ Engine.id (record_of g) = rep /\ member_ids g = ids.
Proof.
  induction groups as [|g r IH] using rev_ind; [by left|].
  rewrite foldl_snoc. destruct (decide (Engine.id (record_of g) = rep)) as [Hrep|Hrep].
  - subst rep. rewrite lookup_insert_eq. intros [= <-]. right. exists g.
    split_and!; [|done..]. apply elem_of_app. right. by left.
  - rewrite lookup_insert_ne by done. intros [?|(g' & ? & ? & ?)]%IH; [by left|].
    right. exists g'. split_and!; [|done..]. apply elem_of_app. by left.
Qed.

Lemma audit_distinct groups (by_rep : gmap Z (list Z)) (g : str * list (Z * str)) :
  NoDup (map (fun g => Engine.id (record_of g)) groups) -> g ∈ groups ->
  foldl (fun m g => <[ Engine.id (record_of g) := member_ids g ]> m) by_rep groups
    !! Engine.id (record_of g) = Some (member_ids g).
Proof.
  induction groups as [|g0 r IH] using rev_ind; [by intros _ ?%elem_of_nil|].
  rewrite fmap_app, foldl_snoc. simpl. intros (Hr & Hfresh & _)%NoDup_app.
  intros [Hin|Hin]%elem_of_app.
  - rewrite lookup_insert_ne; [by apply IH|].
    intros Heq. apply (Hfresh (Engine.id (record_of g))).
    + by apply (list_elem_of_fmap_2 (fun g => Engine.id (record_of g))).
    + rewrite Heq. by left.
  - apply list_elem_of_singleton in Hin as ->. by rewrite lookup_insert_eq.
Qed.

(** With distinct source ids, two groups never share a representative. *)
Lemma representatives_distinct rows :
  NoDup (map fst rows) ->
  NoDup (map (fun g => Engine.id (record_of g)) (group_rows U rows)).
Proof.
  intros Hids. apply NoDup_fmap_2_strong.
  - intros [k1 m1] [k2 m2] (Hk1 & Hm1 & E1)%elem_of_group_rows
      (Hk2 & Hm2 & E2)%elem_of_group_rows Hrep.
    destruct (representative_spec m1 Hm1) as (_ & _ & Hin1 & _).
    destruct (representative_spec m2 Hm2) as (_ & _ & Hin2 & _).
    unfold record_of in Hrep. simpl in Hrep.
    rewrite E1 in Hin1 at 2. rewrite E2 in Hin2 at 2.
    unfold members_of in Hin1, Hin2.
    apply PyFacts.elem_of_bfilter in Hin1 as [Hr1 Hkey1%bool_decide_eq_true].
    apply PyFacts.elem_of_bfilter in Hin2 as [Hr2 Hkey2%bool_decide_eq_true].
    assert (Hsame : representative m1 = representative m2).
    { apply list_elem_of_lookup in Hr1 as [i1 Hi1], Hr2 as [i2 Hi2].
      assert (i1 = i2); [|congruence].
      apply (NoDup_lookup (map fst rows) i1 i2 (fst (representative m1))); [done|..].
      - by rewrite list_lookup_fmap, Hi1.
      - by rewrite Hrep, list_lookup_fmap, Hi2. }
    assert (k1 = k2) by congruence. subst k2. congruence.
  - eapply NoDup_fmap_1. apply group_rows_NoDup.
Qed.

Lemma groups_nonempty rows : Forall (fun g => snd g <> []) (group_rows U rows).
Proof.
  apply Forall_forall. intros [k members] Hin. simpl.
  by apply elem_of_group_rows in Hin as (_ & ? & _).
Qed.

(** C8: deduplication groups the rows by [normalize(name)], rows with an
    empty key left out; every group gives exactly one record, whose id is
    the smallest id of the group; the ids recorded for a representative
    are those of a group, in ascending order; the groups together hold as
    many members as there are rows with a non-empty key. *)
Theorem dedupe_group_invariant rows :
  let groups := group_rows U rows in
  exists repo,
    build_repository U StandardizedDedupe rows = Ok repo
    /\ NoDup (dict_keys groups)
    /\ (forall k members,
          (k, members) ∈ groups <->
          k <> [] /\ members <> [] /\ members = members_of U k rows)
    /\ Forall2 represents (records repo) groups
    /\ (forall rep ids,
          get_group_ids repo rep = Some ids ->
          StronglySorted Z.le ids /\ head ids = Some rep
          /\ exists g, g ∈ groups /\ ids ≡ₚ map fst (snd g))
    /\ (NoDup (map fst rows) ->
        Forall2 (fun rec g =>
                   exists ids, get_group_ids repo (Engine.id rec) = Some ids
                     /\ StronglySorted Z.le ids /\ ids ≡ₚ map fst (snd g))
                (records repo) groups)
    /\ sum_list_with (fun g => length (snd g)) groups = length (keyed_rows U rows)
    /\ dedupe_groups (_LAST_STATS repo) = len groups
    /\ sot_rows (_LAST_STATS repo) = len rows.
Proof.
  intros groups. unfold build_repository. fold groups.
  rewrite (emit_groups_eq groups [] ∅ (groups_nonempty rows)).
  eexists. split; [reflexivity|]. cbn [records _LAST_STATS dedupe_groups sot_rows].
  unfold get_group_ids. cbn [_GROUP_IDS_BY_REP_ID]. split_and!.
  - apply group_rows_NoDup.
  - apply elem_of_group_rows.
  - simpl. apply Forall2_fmap_l, Forall_Forall2_diag.
    eapply Forall_impl; [apply groups_nonempty|]. apply record_of_represents.
  - intros rep ids [Hempty|(g & Hg & Hrep & Hids)]%audit_lookup;
      [by rewrite lookup_empty in Hempty|].
    subst rep ids. split_and!.
    + apply member_ids_sorted.
    + pose proof (proj1 (Forall_forall _ _) (groups_nonempty rows) g Hg) as Hne.
      destruct (representative_spec (snd g) Hne) as (rest & Hs & _).
      unfold member_ids, record_of. rewrite Hs. done.
    + exists g. split; [done|]. apply member_ids_perm.
  - intros Hids. simpl. apply Forall2_fmap_l, Forall_Forall2_diag.
    apply Forall_forall. intros g Hg. exists (member_ids g). split_and!.
    + apply audit_distinct; [|done]. by apply representatives_distinct.
    + apply member_ids_sorted.
    + apply member_ids_perm.
  - apply group_rows_total.
  - simpl. unfold len. by rewrite length_map.
  - done.
Qed.
End Dedupe.

Lemma dedupe_group_invariant_witness :
  let rows : list (Z * str) :=
    [ (3, Example.juan_perez); (1, cp "juan  perez"%string); (2, cp "Dr. Ana"%string); (5, cp "?"%string) ] in
  NoDup (map fst rows)
  /\ exists repo,
      build_repository Matching.latin1 StandardizedDedupe rows = Ok repo
      /\ map Engine.id (records repo) = [1; 2]
      /\ get_group_ids repo 1 = Some [1; 3]
      /\ Forall2 (fun rec g =>
                    exists ids, get_group_ids repo (Engine.id rec) = Some ids
                      /\ StronglySorted Z.le ids /\ ids ≡ₚ map fst (snd g))
                  (records repo) (group_rows Matching.latin1 rows).
Proof.
  intros rows.
  assert (Hnd : NoDup (map fst rows)).
  { simpl. repeat (apply NoDup_cons; split; [set_solver|]). apply NoDup_nil_2. }
  split; [exact Hnd|].
  destruct (dedupe_group_invariant Matching.latin1 rows)
    as (repo & Hbuild & _ & _ & _ & _ & Haudit & _).
  exists repo. split; [exact Hbuild|].
  assert (Hrepo : Ok repo = build_repository Matching.latin1 StandardizedDedupe rows)
    by done.
  vm_compute in Hrepo. injection Hrepo as ->.
  split_and!; [by vm_compute|by vm_compute|].
  exact (Haudit Hnd).
Defined.
End StorageFacts.

(** ** search_engine.py: candidates, results and thresholds *)

Module RoundFacts.
Import Py.

(** *** Rounding keeps a value between two integers *)

Lemma round_half_even_between (a b : Z) (y : Q) :
  (inject_Z a <= y <= inject_Z b)%Q -> a <= round_half_even y <= b.
Proof.
  intros [Ha Hb]. unfold round_half_even.
  pose proof (Qfloor_le y) as Hfl. pose proof (Qlt_floor y) as Hfu.
  assert (Hfa : a <= Qfloor y).
  { rewrite <- (Qfloor_Z a). by apply Qfloor_resp_le. }
  assert (Hfb : Qfloor y <= b).
  { rewrite <- (Qfloor_Z b). by apply Qfloor_resp_le. }
  assert (Hup : (1 # 2 <= y - inject_Z (Qfloor y))%Q -> Qfloor y + 1 <= b).
  { intros Hr. destruct (Z.eq_dec (Qfloor y) b) as [Heq|]; [|lia].
    rewrite Heq in Hr. lra. }
  destruct (Qcompare_spec (y - inject_Z (Qfloor y)) (1 # 2)) as [Heq|Hlt|Hgt].
  - destruct (Z.even (Qfloor y)); [lia|]. split; [lia|]. apply Hup. lra.
  - lia.
  - split; [lia|]. apply Hup. lra.
Qed.

Lemma round_between (a b : Z) (x : Q) (d : nat) :
  (inject_Z a <= x <= inject_Z b)%Q -> (inject_Z a <= round x d <= inject_Z b)%Q.
Proof.
  intros [Ha Hb]. unfold round. rewrite Qred_correct.
  set (p := 10 ^ Z.of_nat d).
  assert (Hp : 0 < p) by (apply Z.pow_pos_nonneg; lia).
  assert (HpQ : (0 < inject_Z p)%Q) by (change 0%Q with (inject_Z 0); by rewrite <- Zlt_Qlt).
  destruct (round_half_even_between (a * p) (b * p) (x * inject_Z p)) as [Hl Hu].
  { rewrite !inject_Z_mult. split; apply Qmult_le_compat_r; (done || lra). }
  split.
  - apply Qle_shift_div_l; [done|]. rewrite <- inject_Z_mult. by rewrite <- Zle_Qle.
  - apply Qle_shift_div_r; [done|]. rewrite <- inject_Z_mult. by rewrite <- Zle_Qle.
Qed.

Lemma round_half_even_near (y : Q) :
  (inject_Z (round_half_even y) - (1 # 2) <= y <= inject_Z (round_half_even y) + (1 # 2))%Q.
Proof.
  unfold round_half_even.
  pose proof (Qfloor_le y) as Hfl. pose proof (Qlt_floor y) as Hfu.
  rewrite inject_Z_plus in Hfu. change (inject_Z 1) with 1%Q in Hfu.
  destruct (Qcompare_spec (y - inject_Z (Qfloor y)) (1 # 2)) as [Heq|Hlt|Hgt].
  - destruct (Z.even (Qfloor y)); rewrite ?inject_Z_plus; change (inject_Z 1) with 1%Q; lra.
  - lra.
  - rewrite inject_Z_plus. change (inject_Z 1) with 1%Q. lra.
Qed.

(** Two decimals: the rounded value is within half a hundredth. *)
Lemma round2_near (x : Q) : (x - (1 # 200) <= round x 2 <= x + (1 # 200))%Q.
Proof.
  unfold round. rewrite Qred_correct. change (10 ^ Z.of_nat 2) with 100.
  pose proof (round_half_even_near (x * inject_Z 100)) as [Hl Hu].
  set (n := inject_Z (round_half_even (x * inject_Z 100))) in *.
  change (inject_Z 100) with (100 # 1)%Q in *.
  split.
  - apply Qle_shift_div_l; [done|]. lra.
  - apply Qle_shift_div_r; [done|]. lra.
Qed.

End RoundFacts.

Module EngineMore.
Import Py Engine.

(** *** More on sorting *)

Section SortMore.
Context {A : Type} (ltb : A -> A -> bool).
Hypothesis ltb_asym : forall a b, ltb a b = true -> ltb b a = false.
Hypothesis ltb_negtrans :
  forall a b c, may_precede ltb a b -> may_precede ltb b c -> may_precede ltb a c.

(** In a sorted list the elements smaller than [x] come first. *)
Lemma insert_sorted_filter_comm (P : A -> bool) (x : A) (l : list A) :
  StronglySorted (may_precede ltb) l ->
  List.filter P (insert_sorted ltb x l)
  = if P x then insert_sorted ltb x (List.filter P l) else List.filter P l.
Proof.
  induction 1 as [|y r Hr IH Hy]; simpl.
  - by destruct (P x).
  - destruct (ltb y x) eqn:Hyx; simpl.
    + rewrite IH. destruct (P y) eqn:Py, (P x) eqn:Px; simpl; try done.
      by rewrite Hyx.
    + destruct (P x) eqn:Px; simpl; [|done].
      destruct (P y) eqn:Py; simpl; [by rewrite Hyx|].
      (* [x] stays in front of what is left of [r] *)
      clear IH. induction Hy as [|z r' Hz Hr' IH']; simpl; [done|].
      apply StronglySorted_inv in Hr as [Hr _].
      destruct (P z) eqn:Pz; simpl; [|by apply IH'].
      assert (Hzx : ltb z x = false).
      { apply (ltb_negtrans x y z); [exact Hyx | exact Hz]. }
      by rewrite Hzx.
Qed.

Lemma sorted_filter_comm (P : A -> bool) (l : list A) :
  sorted ltb (List.filter P l) = List.filter P (sorted ltb l).
Proof.
  induction l as [|x r IH]; [done|]. simpl.
  rewrite insert_sorted_filter_comm by (by apply PyFacts.sorted_StronglySorted).
  destruct (P x); simpl; by rewrite IH.
Qed.

End SortMore.

Lemma NoDup_fmap_elem_inj {A B} (f : A -> B) (l : list A) (a b : A) :
  NoDup (map f l) -> a ∈ l -> b ∈ l -> f a = f b -> a = b.
Proof.
  induction l as [|x l IH]; simpl; [by intros _ ?%elem_of_nil|].
  intros [Hx Hl]%NoDup_cons [->|Ha]%elem_of_cons [->|Hb]%elem_of_cons Hf; [done|..].
  - exfalso. apply Hx. rewrite Hf. by apply list_elem_of_fmap_2.
  - exfalso. apply Hx. rewrite <- Hf. by apply list_elem_of_fmap_2.
  - by apply IH.
Qed.

Lemma slice_to_sublist {A} (l : list A) (hi : Z) : slice_to l hi `sublist_of` l.
Proof.
  unfold slice_to, slice. etrans; [apply sublist_take|apply sublist_drop].
Qed.

Lemma slice_to_length {A} (l : list A) (hi : Z) :
  0 <= hi -> len (slice_to l hi) = Z.min hi (len l).
Proof.
  intros Hhi. rewrite PyFacts.slice_to_take by done. unfold len.
  rewrite length_take. lia.
Qed.

Lemma slice_to_all {A} (l : list A) (hi : Z) : len l <= hi -> slice_to l hi = l.
Proof.
  intros Hhi. unfold len in Hhi. rewrite PyFacts.slice_to_take by lia.
  apply take_ge. lia.
Qed.

(** The length of [l[:hi]], for every [hi], and how it grows with [l]. *)
Lemma slice_to_length_any {A} (l : list A) (hi : Z) :
  length (slice_to l hi) = Z.to_nat (slice_bound (len l) hi).
Proof.
  unfold slice_to, slice. rewrite length_take, length_drop.
  unfold slice_bound at 2 3. replace (0 <? 0) with false by done.
  assert (0 <= len l) by (unfold len; lia). rewrite (Z.min_l 0) by done.
  assert (0 <= slice_bound (len l) hi <= len l).
  { unfold slice_bound. destruct (Z.ltb_spec hi 0); lia. }
  unfold len in *. lia.
Qed.

Lemma slice_to_length_mono {A B} (l1 : list A) (l2 : list B) (hi : Z) :
  (length l2 <= length l1)%nat ->
  (length (slice_to l2 hi) <= length (slice_to l1 hi))%nat.
Proof.
  intros Hlen. rewrite !slice_to_length_any. unfold slice_bound, len.
  destruct (Z.ltb_spec hi 0); lia.
Qed.

(** *** Candidate generation *)

Lemma dict_keys_build_length (recs : list NameRecord) (e : SearchEngine) :
  (length (dict_keys (records_by_id (_build_index e recs)))
   <= length (dict_keys (records_by_id e)) + length recs)%nat.
Proof.
  unfold _build_index. revert e. induction recs as [|rec r IH]; intros e; simpl; [lia|].
  etrans; [apply IH|]. simpl. rewrite PyFacts.dict_keys_set.
  destruct (dict_get _ _); rewrite ?length_app; simpl; lia.
Qed.

Lemma candidate_ids_NoDup (recs : list NameRecord) (e : SearchEngine) (q : str) :
  indexes recs e -> NoDup (candidate_ids e q).
Proof.
  intros (Hnd & _). unfold candidate_ids. case_decide; [done|].
  destruct (_ >? _); [|apply NoDup_elements].
  eapply sublist_NoDup; [|apply slice_to_sublist].
  rewrite PyFacts.sorted_perm. apply NoDup_elements.
Qed.

Lemma ids_ascending (l : list Z) : StronglySorted Z.le (sorted Z.ltb l).
Proof.
  eapply PyFacts.StronglySorted_weaken; [|apply (PyFacts.sorted_StronglySorted Z.ltb)].
  - intros a b. unfold may_precede. by rewrite Z.ltb_ge.
  - intros a b. rewrite Z.ltb_lt, Z.ltb_ge. lia.
  - intros a b c. unfold may_precede. rewrite !Z.ltb_ge. lia.
Qed.

Lemma StronglySorted_le_lt (l : list Z) :
  NoDup l -> StronglySorted Z.le l -> StronglySorted Z.lt l.
Proof.
  intros Hnd. induction 1 as [|x l Hl IH Hx]; constructor.
  - apply IH. by apply NoDup_cons in Hnd as [_ ?].
  - apply NoDup_cons in Hnd as [Hnx _]. apply Forall_forall. intros y Hy.
    pose proof (proj1 (Forall_forall _ _) Hx y Hy).
    assert (x <> y) by (by intros ->). lia.
Qed.

(** X1: above the cap, the candidates are the [max_candidates] smallest
    ids of the union of the posting lists, in ascending order. *)
Theorem candidate_ids_capped (e : SearchEngine) (q : str) :
  let cands := union_postings e (Matching.char_ngrams q (ngram_n (config e))) in
  let cap := max_candidates (config e) in
  0 <= cap < Z.of_nat (size cands) ->
  len (candidate_ids e q) = cap
  /\ StronglySorted Z.lt (candidate_ids e q)
  /\ (forall rid, rid ∈ candidate_ids e q -> rid ∈ cands)
  /\ (forall kept other,
        kept ∈ candidate_ids e q -> other ∈ cands -> other ∉ candidate_ids e q ->
        kept < other).
Proof.
  intros cands cap Hcap.
  assert (Hcand : candidate_ids e q = take (Z.to_nat cap) (sorted Z.ltb (elements cands))).
  { unfold candidate_ids. fold cands. fold cap. case_decide as Hempty.
    - rewrite Hempty, size_empty in Hcap. lia.
    - destruct (Z.gtb_spec (Z.of_nat (size cands)) cap); [|lia].
      apply PyFacts.slice_to_take. lia. }
  set (l := sorted Z.ltb (elements cands)) in *.
  assert (Hperm : l ≡ₚ elements cands) by apply PyFacts.sorted_perm.
  assert (Hnd : NoDup l) by (rewrite Hperm; apply NoDup_elements).
  assert (Hlen : length l = size cands)
    by (unfold l; by rewrite PyFacts.sorted_length).
  assert (Hlt : StronglySorted Z.lt l)
    by (apply StronglySorted_le_lt; [done|apply ids_ascending]).
  rewrite Hcand. split_and!.
  - unfold len. rewrite length_take. lia.
  - rewrite <- (take_drop (Z.to_nat cap) l) in Hlt.
    by apply StronglySorted_app_1_l in Hlt.
  - intros rid Hrid%subseteq_take. rewrite Hperm in Hrid. by apply elem_of_elements.
  - intros kept other Hkept Hother Hout.
    assert (Hin : other ∈ drop (Z.to_nat cap) l).
    { apply elem_of_elements in Hother. rewrite <- Hperm in Hother.
      rewrite <- (take_drop (Z.to_nat cap) l) in Hother.
      by apply elem_of_app in Hother as [?|?]. }
    rewrite <- (take_drop (Z.to_nat cap) l) in Hlt.
    by apply (StronglySorted_app_1_elem_of Z.lt _ _ kept other Hlt).
Qed.

Lemma candidate_ids_capped_witness :
  let e := new_engine Example.repo {| ngram_n := 3; max_candidates := 1 |} in
  0 <= max_candidates (config e)
    < Z.of_nat (size (union_postings e (Matching.char_ngrams Example.query
                                          (ngram_n (config e)))))
  /\ len (candidate_ids e Example.query) = 1
  /\ candidate_ids e Example.query = [1].
Proof.
  intros e.
  assert (Hcap : 0 <= max_candidates (config e)
    < Z.of_nat (size (union_postings e (Matching.char_ngrams Example.query
                                          (ngram_n (config e)))))).
  { vm_compute. split; [by intros ?|done]. }
  split; [exact Hcap|].
  split; [exact (proj1 (candidate_ids_capped e Example.query Hcap))|].
  vm_compute. reflexivity.
Defined.

(** X2: the candidates of a query are distinct ids of indexed records. *)
Theorem candidate_ids_distinct (recs : list NameRecord) (cfg : SearchConfig) (q : str) :
  let e := new_engine recs cfg in
  NoDup (candidate_ids e q)
  /\ (forall rid, rid ∈ candidate_ids e q -> exists rec, rec ∈ recs /\ id rec = rid)
  /\ (length (candidate_ids e q) <= length recs)%nat.
Proof.
  intros e. pose proof (EngineFacts.new_engine_indexes recs cfg) as He. fold e in He.
  assert (Hsub : forall rid, rid ∈ candidate_ids e q -> rid ∈ dict_keys (records_by_id e)).
  { intros rid Hrid. apply PyFacts.dict_get_is_Some.
    by apply (proj1 (Forall_forall _ _) (EngineFacts.candidate_ids_known recs e q He)). }
  split_and!.
  - by apply (candidate_ids_NoDup recs).
  - intros rid Hrid%Hsub. by apply (proj1 (EngineFacts.new_engine_keys recs cfg rid)).
  - etrans; [|apply (dict_keys_build_length recs
                       {| config := cfg; records_by_id := []; inverted := ∅ |})].
    apply submseteq_length, NoDup_submseteq; [by apply (candidate_ids_NoDup recs)|].
    intros rid. apply Hsub.
Qed.

(** *** The scoring loop *)

Section SearchMore.
Variables token_set_ratio ratio : str -> str -> Q.
Variable e : SearchEngine.

Lemma score_all_cons_inv (q : str) (th w : Q) (rid : Z) (ids : list Z) (s : list Scored) :
  score_all token_set_ratio ratio e q th w (rid :: ids) = Ok s ->
  exists m ms,
    score_candidate token_set_ratio ratio e q th w rid = Ok m
    /\ score_all token_set_ratio ratio e q th w ids = Ok ms
    /\ s = m ++ ms.
Proof.
  cbn [score_all].
  destruct (score_candidate token_set_ratio ratio e q th w rid) as [m|]; [|done].
  destruct (score_all token_set_ratio ratio e q th w ids) as [ms|]; [|done].
  simpl. intros [= <-]. by exists m, ms.
Qed.

Lemma score_all_perm (q : str) (th w : Q) (ids ids' : list Z) (s : list Scored) :
  ids ≡ₚ ids' ->
  score_all token_set_ratio ratio e q th w ids = Ok s ->
  exists s', score_all token_set_ratio ratio e q th w ids' = Ok s' /\ s ≡ₚ s'.
Proof.
  intros Hp. revert s. induction Hp as [|x l l' Hp IH|x y l|l l' l'' Hp IH Hp' IH']; intros s.
  - intros [= <-]. by exists [].
  - intros (m & ms & Hm & Hms & ->)%score_all_cons_inv.
    destruct (IH ms Hms) as (ms' & Hms' & Hperm).
    exists (m ++ ms'). cbn [score_all]. rewrite Hm, Hms'. simpl.
    split; [done|]. by rewrite Hperm.
  - intros (my & ms & Hy & (mx & ms' & Hx & Hms & ->)%score_all_cons_inv & ->)%score_all_cons_inv.
    exists (mx ++ my ++ ms'). cbn [score_all]. rewrite Hx, Hy, Hms. simpl.
    split; [done|]. rewrite !app_assoc. apply Permutation_app_tail, Permutation_app_comm.
  - intros Hs. destruct (IH s Hs) as (s' & Hs' & Hperm).
    destruct (IH' s' Hs') as (s'' & Hs'' & Hperm'). exists s''. split; [done|].
    by rewrite Hperm.
Qed.

(** The entries made by the loop, in the order of the candidates. *)
Lemma score_all_entries (recs : list NameRecord) (q : str) (th w : Q)
    (ids : list Z) (s : list Scored) :
  indexes recs e ->
  score_all token_set_ratio ratio e q th w ids = Ok s ->
  map s_id s `sublist_of` ids
  /\ (forall rid, rid ∈ map s_id s <->
        rid ∈ ids /\ exists rec, dict_get (records_by_id e) rid = Some rec
          /\ Qle_bool th (w * token_set_ratio q (normalized_name rec)
                          + (1 - w) * ratio q (normalized_name rec)) = true).
Proof.
  intros (_ & Hget & _ & _). revert s. induction ids as [|rid ids IH]; intros s.
  - intros [= <-]. split; [done|]. intros rid. split; [by intros ?%elem_of_nil|].
    by intros [?%elem_of_nil _].
  - intros (m & ms & Hm & Hms & ->)%score_all_cons_inv.
    destruct (IH ms Hms) as [Hsub Hiff]. unfold score_candidate in Hm.
    destruct (dict_get (records_by_id e) rid) as [rec|] eqn:Hrec; [|done].
    destruct (Hget rid rec Hrec) as [_ Hid].
    destruct (Qle_bool th _) eqn:Hth; injection Hm as <-; simpl.
    + rewrite Hid. split; [by apply sublist_skip|].
      intros rid'. rewrite !elem_of_cons, Hiff. split.
      * intros [->|[? ?]]; [|by auto]. split; [by left|]. by exists rec.
      * intros [[->|?] ?]; [by left|by right].
    + split; [by apply sublist_cons|].
      intros rid'. rewrite elem_of_cons, Hiff. split; [by intros [? ?]; auto|].
      intros [[->|?] (rec' & Hrec' & Hth')]; [|by eauto].
      rewrite Hrec in Hrec'. injection Hrec' as <-. congruence.
Qed.

(** A higher threshold keeps the entries that reach it. *)
Lemma score_all_threshold (q : str) (th1 th2 w : Q) (ids : list Z) (s1 : list Scored) :
  (th1 <= th2)%Q ->
  score_all token_set_ratio ratio e q th1 w ids = Ok s1 ->
  score_all token_set_ratio ratio e q th2 w ids
  = Ok (List.filter (fun m => Qle_bool th2 (similarity_raw m)) s1).
Proof.
  intros Hth. revert s1. induction ids as [|rid ids IH]; intros s1.
  - by intros [= <-].
  - intros (m & ms & Hm & Hms & ->)%score_all_cons_inv.
    cbn [score_all]. rewrite (IH ms Hms), List.filter_app.
    unfold score_candidate in *.
    destruct (dict_get (records_by_id e) rid) as [rec|]; [|done].
    destruct (Qle_bool th1 _) eqn:H1; injection Hm as <-; simpl.
    + by destruct (Qle_bool th2 _) eqn:H2.
    + destruct (Qle_bool th2 _) eqn:H2; [|done]. exfalso.
      apply Qle_bool_iff in H2. apply not_true_iff_false in H1. apply H1.
      apply Qle_bool_iff. lra.
Qed.

Lemma search_explain_unfold (q : str) (th : Q) (limit : Z) (w : Q) (scored : list Scored) :
  score_all token_set_ratio ratio e q th w (candidate_ids e q) = Ok scored ->
  search_explain token_set_ratio ratio e q th limit w
  = Ok (slice_to (map pop_raw (sorted scored_ltb scored)) limit, len (candidate_ids e q)).
Proof. intros Hs. unfold search_explain. by rewrite Hs. Qed.
End SearchMore.

Lemma bfilter_sublist {A} (P : A -> bool) (l : list A) : List.filter P l `sublist_of` l.
Proof.
  induction l as [|x l IH]; simpl; [done|].
  destruct (P x); [by apply sublist_skip | by apply sublist_cons].
Qed.

Lemma scored_ltb_asym (a b : Scored) : scored_ltb a b = true -> scored_ltb b a = false.
Proof. apply EngineFacts.key_ltb_asym. Qed.

Lemma scored_ltb_negtrans (a b c : Scored) :
  may_precede scored_ltb a b -> may_precede scored_ltb b c -> may_precede scored_ltb a c.
Proof. apply EngineFacts.key_ltb_negtrans. Qed.

(** Entries that the order cannot tell apart have the same id. *)
Lemma may_precede_both_id (a b : Scored) :
  may_precede scored_ltb a b -> may_precede scored_ltb b a -> s_id a = s_id b.
Proof.
  unfold may_precede, scored_ltb. rewrite <- !not_true_iff_false, !EngineFacts.key_ltb_lt.
  unfold key_lt, sort_key. intros H1 H2.
  destruct (Z.lt_trichotomy (s_id a) (s_id b)) as [Hlt|[?|Hlt]]; [|done|];
    exfalso; rewrite Zlt_Qlt in Hlt; lra.
Qed.

Section Recall.
Variables (recs : list NameRecord) (cfg : SearchConfig).



Lemma shared_gram_candidate (q : str) (rec : NameRecord) (g : str) :
  let e := new_engine recs cfg in
  Z.of_nat (size (union_postings e (Matching.char_ngrams q (ngram_n cfg))))
    <= max_candidates cfg ->
  rec ∈ recs ->
  g ∈ Matching.char_ngrams q (ngram_n cfg) ->
  g ∈ Matching.char_ngrams (normalized_name rec) (ngram_n cfg) ->
  id rec ∈ candidate_ids e q.
Proof.
  intros e Hcap Hrec Hq Hg.
  destruct (EngineFacts.new_engine_indexes recs cfg) as (_ & _ & _ & Hpost).
  fold e in Hpost.
  assert (Hcfg : config e = cfg) by apply EngineFacts.new_engine_config.
  assert (Hin : id rec ∈ union_postings e (Matching.char_ngrams q (ngram_n cfg))).
  { apply EngineFacts.elem_of_union_postings. exists g. split; [done|].
    apply Hpost. exists rec. by rewrite Hcfg. }
  unfold candidate_ids. rewrite Hcfg. case_decide as Hempty; [set_solver|].
  destruct (Z.gtb_spec (Z.of_nat (size (union_postings e
              (Matching.char_ngrams q (ngram_n cfg))))) (max_candidates cfg)); [lia|].
  by apply elem_of_elements.
Qed.

(** X3: unless the cap on candidates applies, every record that shares an
    n-gram with the query is a candidate, and a query without any
    indexed n-gram has every record as a candidate. *)
Theorem shared_gram_recall (q : str) :
  let e := new_engine recs cfg in
  let grams := Matching.char_ngrams q (ngram_n cfg) in
  Z.of_nat (size (union_postings e grams)) <= max_candidates cfg ->
  forall rec, rec ∈ recs ->
    (exists g, g ∈ grams /\ g ∈ Matching.char_ngrams (normalized_name rec) (ngram_n cfg))
    \/ union_postings e grams = ∅ ->
    id rec ∈ candidate_ids e q.
Proof.
  intros e grams Hcap rec Hrec [(g & Hq & Hg)|Hnone].
  - by apply (shared_gram_candidate q rec g).
  - assert (Hcfg : config e = cfg) by apply EngineFacts.new_engine_config.
    unfold candidate_ids. rewrite Hcfg. fold grams. rewrite decide_True by done.
    apply EngineFacts.new_engine_keys. by exists rec.
Qed.

End Recall.

Section Results.
Variables token_set_ratio ratio : str -> str -> Q.
Variables (recs : list NameRecord) (cfg : SearchConfig).

Lemma scored_of_candidates (q : str) (th w : Q) :
  let e := new_engine recs cfg in
  exists scored,
    score_all token_set_ratio ratio e q th w (candidate_ids e q) = Ok scored
    /\ map s_id scored `sublist_of` candidate_ids e q
    /\ NoDup (map s_id scored)
    /\ Forall (scored_for token_set_ratio ratio q th w recs) scored.
Proof.
  intros e. pose proof (EngineFacts.new_engine_indexes recs cfg) as He. fold e in He.
  destruct (EngineFacts.score_all_spec token_set_ratio ratio recs e q th w
              (candidate_ids e q) He (EngineFacts.candidate_ids_known recs e q He))
    as (scored & _ & Hs & _ & _ & Hfor).
  exists scored. destruct (score_all_entries token_set_ratio ratio e recs q th w _ _ He Hs)
    as [Hsub _].
  split_and!; [done..| |done].
  eapply sublist_NoDup; [|exact Hsub]. by apply (candidate_ids_NoDup recs).
Qed.

Lemma search_shape (q : str) (th : Q) (limit : Z) (w : Q) :
  let e := new_engine recs cfg in
  exists ms,
    search_explain token_set_ratio ratio e q th limit w
      = Ok (ms, len (candidate_ids e q))
    /\ NoDup (map m_id ms)
    /\ (length ms <= length (candidate_ids e q))%nat
    /\ (0 <= limit -> len ms <= limit)
    /\ (forall m, m ∈ ms ->
          m_id m ∈ candidate_ids e q
          /\ exists rec, rec ∈ recs /\ id rec = m_id m /\ full_name rec = m_name m).
Proof.
  intros e. destruct (scored_of_candidates q th w) as (scored & Hs & Hsub & Hnd & Hfor).
  fold e in Hs, Hsub.
  eexists. split; [by apply search_explain_unfold|].
  set (all := map pop_raw (sorted scored_ltb scored)).
  assert (Hids : map m_id all ≡ₚ map s_id scored).
  { unfold all. rewrite map_map. simpl.
    apply (Permutation_map s_id), PyFacts.sorted_perm. }
  assert (Hcut : map m_id (slice_to all limit) `sublist_of` map m_id all)
    by apply (fmap_sublist m_id), slice_to_sublist.
  split_and!.
  - eapply sublist_NoDup; [|exact Hcut]. by rewrite Hids.
  - apply sublist_length in Hcut, Hsub. apply Permutation_length in Hids.
    rewrite !length_map in *. lia.
  - intros Hlimit. rewrite slice_to_length by done. lia.
  - intros m Hm. split.
    + apply (list_elem_of_fmap_2 m_id) in Hm.
      apply (sublist_subseteq _ _ Hcut) in Hm. rewrite Hids in Hm.
      by apply (sublist_subseteq _ _ Hsub).
    + apply (sublist_subseteq _ _ (slice_to_sublist all limit)) in Hm.
      apply list_elem_of_fmap in Hm as (sc & -> & Hsc%PyFacts.sorted_elem_of).
      rewrite Forall_forall in Hfor.
      destruct (Hfor sc Hsc) as (rec & Hrec & Hid & Hname & _).
      exists rec. by split_and!.
Qed.

(** X4: a search returns at most [limit] matches, one per record at most,
    each of them a candidate shown with the id and the name of a record;
    the count it returns is the number of candidates. *)
Theorem search_results_distinct (q : str) (th : Q) (limit : Z) (w : Q) :
  let e := new_engine recs cfg in
  exists ms,
    search_explain token_set_ratio ratio e q th limit w
      = Ok (ms, len (candidate_ids e q))
    /\ NoDup (map m_id ms)
    /\ (length ms <= length (candidate_ids e q))%nat
    /\ (0 <= limit -> len ms <= limit)
    /\ (forall m, m ∈ ms ->
          m_id m ∈ candidate_ids e q
          /\ exists rec, rec ∈ recs /\ id rec = m_id m /\ full_name rec = m_name m).
Proof. apply search_shape. Qed.



(** X6: raising the threshold never gives more matches; without a cut by
    [limit], the matches at the higher threshold are among those at the
    lower one, in the same order. *)
Theorem threshold_monotone (q : str) (th1 th2 : Q) (limit : Z) (w : Q) :
  let e := new_engine recs cfg in
  (th1 <= th2)%Q ->
  exists ms1 ms2,
    search_explain token_set_ratio ratio e q th1 limit w
      = Ok (ms1, len (candidate_ids e q))
    /\ search_explain token_set_ratio ratio e q th2 limit w
      = Ok (ms2, len (candidate_ids e q))
    /\ (length ms2 <= length ms1)%nat
    /\ (len (candidate_ids e q) <= limit -> ms2 `sublist_of` ms1).
Proof.
  intros e Hth. destruct (scored_of_candidates q th1 w) as (s1 & Hs1 & Hsub & _ & _).
  fold e in Hs1, Hsub.
  pose proof (score_all_threshold token_set_ratio ratio e q th1 th2 w _ _ Hth Hs1) as Hs2.
  do 2 eexists. split; [by apply search_explain_unfold|].
  split; [by apply search_explain_unfold|].
  rewrite (sorted_filter_comm scored_ltb scored_ltb_asym scored_ltb_negtrans).
  set (S1 := sorted scored_ltb s1).
  assert (Hall : map pop_raw (List.filter (fun m => Qle_bool th2 (similarity_raw m)) S1)
                 `sublist_of` map pop_raw S1) by apply (fmap_sublist pop_raw), bfilter_sublist.
  split.
  - apply slice_to_length_mono. by apply sublist_length.
  - intros Hlimit. apply sublist_length in Hsub. pose proof (sublist_length _ _ Hall).
    unfold len in Hlimit. unfold S1 in *.
    rewrite !length_map, ?PyFacts.sorted_length in *.
    rewrite !slice_to_all; [done|unfold len; rewrite length_map, PyFacts.sorted_length; lia|].
    unfold len. rewrite length_map. lia.
Qed.

(** X7: the ranking does not depend on the order in which the candidate
    ids are enumerated. *)
Theorem ranking_ignores_enumeration_order (q : str) (th w : Q)
    (ids ids' : list Z) (s s' : list Scored) :
  let e := new_engine recs cfg in
  NoDup ids -> ids ≡ₚ ids' ->
  score_all token_set_ratio ratio e q th w ids = Ok s ->
  score_all token_set_ratio ratio e q th w ids' = Ok s' ->
  sorted scored_ltb s = sorted scored_ltb s'.
Proof.
  intros e Hnd Hp Hs Hs'.
  pose proof (EngineFacts.new_engine_indexes recs cfg) as He. fold e in He.
  destruct (score_all_perm token_set_ratio ratio e q th w ids ids' s Hp Hs)
    as (s'' & Hs'' & Hperm).
  rewrite Hs' in Hs''. injection Hs'' as <-.
  destruct (score_all_entries token_set_ratio ratio e recs q th w _ _ He Hs) as [Hsub _].
  assert (Hids : NoDup (map s_id s)) by (by eapply sublist_NoDup).
  apply (StronglySorted_unique_strong (may_precede scored_ltb)).
  - intros a b Ha%PyFacts.sorted_elem_of Hb%PyFacts.sorted_elem_of Hab Hba.
    rewrite <- Hperm in Hb.
    apply (NoDup_fmap_elem_inj s_id s); [done..|]. by apply may_precede_both_id.
  - apply PyFacts.sorted_StronglySorted; [apply scored_ltb_asym|apply scored_ltb_negtrans].
  - apply PyFacts.sorted_StronglySorted; [apply scored_ltb_asym|apply scored_ltb_negtrans].
  - by rewrite !PyFacts.sorted_perm.
Qed.


(** X9: when the two scorers give values between 0 and 100 on the names
    of the repository and the weight is between 0 and 1, every match shows
    a similarity, a token score and an edit score between 0 and 100 and a
    weight between 0 and 1; the similarity shown is at most half a
    hundredth under the threshold. *)
Theorem shown_scores_in_range (q : str) (th : Q) (limit : Z) (w : Q) :
  let e := new_engine recs cfg in
  (forall rec, rec ∈ recs ->
     (0 <= token_set_ratio q (normalized_name rec) <= 100)%Q
     /\ (0 <= ratio q (normalized_name rec) <= 100)%Q) ->
  (0 <= w <= 1)%Q ->
  exists ms,
    search_explain token_set_ratio ratio e q th limit w
      = Ok (ms, len (candidate_ids e q))
    /\ forall m, m ∈ ms ->
         (0 <= similarity m <= 100)%Q /\ (0 <= token_score m <= 100)%Q
         /\ (0 <= edit_score m <= 100)%Q /\ (0 <= Engine.w_token m <= 1)%Q
         /\ (th - (1 # 200) <= similarity m)%Q.
Proof.
  intros e Hscores [Hw0 Hw1].
  destruct (scored_of_candidates q th w) as (scored & Hs & _ & _ & Hfor). fold e in Hs.
  eexists. split; [by apply search_explain_unfold|].
  intros m Hm. apply (sublist_subseteq _ _ (slice_to_sublist _ limit)) in Hm.
  apply list_elem_of_fmap in Hm as (sc & -> & Hsc%PyFacts.sorted_elem_of).
  rewrite Forall_forall in Hfor.
  destruct (Hfor sc Hsc)
    as (rec & Hrec & _ & _ & Htok & Hed & Hraw & Hth & Hsim & Hts & Hes & Hwt).
  destruct (Hscores rec Hrec) as [[Ht0 Ht1] [He0 He1]].
  rewrite <- Htok in Ht0, Ht1. rewrite <- Hed in He0, He1.
  apply Qle_bool_iff in Hth.
  assert (Hrange : (0 <= similarity_raw sc <= 100)%Q).
  { rewrite Hraw.
    assert (H1 : (0 <= w * token_raw sc)%Q) by (apply Qmult_le_0_compat; lra).
    assert (H2 : (0 <= (1 - w) * edit_raw sc)%Q) by (apply Qmult_le_0_compat; lra).
    assert (H3 : (0 <= w * (100 - token_raw sc))%Q) by (apply Qmult_le_0_compat; lra).
    assert (H4 : (0 <= (1 - w) * (100 - edit_raw sc))%Q) by (apply Qmult_le_0_compat; lra).
    split; lra. }
  cbn [pop_raw similarity token_score edit_score Engine.w_token].
  rewrite Hsim, Hts, Hes, Hwt.
  pose proof (RoundFacts.round2_near (similarity_raw sc)) as [Hnear _].
  split_and!; try (apply (RoundFacts.round_between 0 100); done);
    try (apply (RoundFacts.round_between 0 1); done).
  lra.
Qed.
End Results.


Lemma shared_gram_recall_witness :
  let e := new_engine Example.repo default_config in
  let grams := Matching.char_ngrams Example.query 3 in
  Z.of_nat (size (union_postings e grams)) <= 2000
  /\ forall rec, rec ∈ Example.repo ->
       (exists g, g ∈ grams /\ g ∈ Matching.char_ngrams (normalized_name rec) 3)
       \/ union_postings e grams = ∅ ->
       id rec ∈ candidate_ids e Example.query.
Proof.
  intros e grams.
  assert (Hcap : Z.of_nat (size (union_postings e grams)) <= 2000) by (by vm_compute).
  split; [exact Hcap|].
  exact (shared_gram_recall Example.repo default_config Example.query Hcap).
Defined.


Lemma shown_scores_in_range_witness :
  let e := new_engine Example.repo default_config in
  (forall rec, rec ∈ Example.repo ->
     (0 <= Fuzz.token_set_ratio Example.query (normalized_name rec) <= 100)%Q
     /\ (0 <= Fuzz.ratio Example.query (normalized_name rec) <= 100)%Q)
  /\ (0 <= 13 # 20 <= 1)%Q
  /\ exists ms,
       search_explain Fuzz.token_set_ratio Fuzz.ratio e Example.query 60 5 (13 # 20)
         = Ok (ms, len (candidate_ids e Example.query))
       /\ forall m, m ∈ ms ->
            (0 <= similarity m <= 100)%Q /\ (0 <= token_score m <= 100)%Q
            /\ (0 <= edit_score m <= 100)%Q /\ (0 <= Engine.w_token m <= 1)%Q
            /\ (60 - (1 # 200) <= similarity m)%Q.
Proof.
  intros e.
  assert (Hscores : forall rec, rec ∈ Example.repo ->
     (0 <= Fuzz.token_set_ratio Example.query (normalized_name rec) <= 100)%Q
     /\ (0 <= Fuzz.ratio Example.query (normalized_name rec) <= 100)%Q).
  { intros rec [->|[->|Hnil%elem_of_nil]%elem_of_cons]%elem_of_cons; [| |done];
      (split; split; by vm_compute). }
  assert (Hw : (0 <= 13 # 20 <= 1)%Q) by (split; by vm_compute).
  split; [exact Hscores|]. split; [exact Hw|].
  exact (shown_scores_in_range Fuzz.token_set_ratio Fuzz.ratio Example.repo default_config
           Example.query 60 5 (13 # 20) Hscores Hw).
Defined.

Lemma threshold_monotone_witness :
  let e := new_engine Example.repo default_config in
  (60 <= 90)%Q
  /\ exists ms1 ms2,
       search_explain Fuzz.token_set_ratio Fuzz.ratio e Example.query 60 5 (13 # 20)
         = Ok (ms1, len (candidate_ids e Example.query))
       /\ search_explain Fuzz.token_set_ratio Fuzz.ratio e Example.query 90 5 (13 # 20)
         = Ok (ms2, len (candidate_ids e Example.query))
       /\ (length ms2 <= length ms1)%nat
       /\ (len (candidate_ids e Example.query) <= 5 -> ms2 `sublist_of` ms1).
Proof.
  intros e.
  assert (Hth : (60 <= 90)%Q) by (by vm_compute).
  split; [exact Hth|].
  exact (threshold_monotone Fuzz.token_set_ratio Fuzz.ratio
           Example.repo default_config Example.query 60 90 5 (13 # 20) Hth).
Defined.

Lemma ranking_ignores_enumeration_order_witness :
  let e := new_engine Example.repo default_config in
  NoDup [1; 2] /\ [1; 2] ≡ₚ [2; 1]
  /\ exists s s',
       score_all Fuzz.token_set_ratio Fuzz.ratio e Example.query 60 (13 # 20) [1; 2] = Ok s
       /\ score_all Fuzz.token_set_ratio Fuzz.ratio e Example.query 60 (13 # 20) [2; 1] = Ok s'
       /\ sorted scored_ltb s = sorted scored_ltb s'.
Proof.
  intros e.
  assert (Hnd : NoDup [1; 2]) by (apply NoDup_cons; split; [set_solver|apply NoDup_singleton]).
  assert (Hp : [1; 2] ≡ₚ [2; 1]) by apply Permutation_swap.
  split; [exact Hnd|]. split; [exact Hp|].
  destruct (score_all Fuzz.token_set_ratio Fuzz.ratio e Example.query 60 (13 # 20) [1; 2])
    as [s|x] eqn:Hs; [|by vm_compute in Hs].
  destruct (score_all Fuzz.token_set_ratio Fuzz.ratio e Example.query 60 (13 # 20) [2; 1])
    as [s'|x] eqn:Hs'; [|by vm_compute in Hs'].
  exists s, s'. split; [done|]. split; [done|].
  exact (ranking_ignores_enumeration_order Fuzz.token_set_ratio Fuzz.ratio
           Example.repo default_config Example.query 60 (13 # 20) [1; 2] [2; 1] s s'
           Hnd Hp Hs Hs').
Defined.
End EngineMore.

(** ** app.py: the tie-break statistics *)

Module TieFacts.
Import Py App.

Lemma span_run_app (sim : Q) (l : list Engine.Match) :
  fst (span_run sim l) ++ snd (span_run sim l) = l.
Proof.
  induction l as [|m r IH]; simpl; [done|].
  destruct (Qeq_bool (Engine.similarity m) sim); [|done].
  destruct (span_run sim r) as [run rest]. simpl in *. by rewrite IH.
Qed.

Lemma span_run_nil (sim : Q) (l : list Engine.Match) :
  fst (span_run sim l) = [] <->
  forall m, head l = Some m -> Qeq_bool (Engine.similarity m) sim = false.
Proof.
  destruct l as [|m r]; simpl; [done|].
  destruct (Qeq_bool (Engine.similarity m) sim) eqn:E.
  - destruct (span_run sim r). simpl. split; [done|]. intros H. specialize (H m eq_refl).
    congruence.
  - simpl. split; [|done]. by intros _ m' [= <-].
Qed.

(** What one run of the outer loop adds to the counters, and whether it
    met a tie, for every amount of fuel that covers the list. *)
Lemma tie_loop_counts (fuel : nat) (ms : list Engine.Match) (g t e i : Z) :
  (length ms <= fuel)%nat ->
  exists g' t' e' i',
    tie_loop fuel ms (g, t, e, i) = (g', t', e', i')
    /\ g' - g = (t' - t) + (e' - e) + (i' - i)
    /\ t <= t' /\ e <= e' /\ i <= i' /\ g <= g'
    /\ 2 * (g' - g) <= len ms
    /\ (g' = g <->
        forall k a b, ms !! k = Some a -> ms !! S k = Some b ->
          Qeq_bool (Engine.similarity b) (Engine.similarity a) = false).
Proof.
  revert ms g t e i. induction fuel as [|fuel IH]; intros ms g t e i Hlen.
  - destruct ms; [|simpl in Hlen; lia]. exists g, t, e, i. simpl.
    split_and!; try done; try lia. unfold len. simpl. lia.
  - destruct ms as [|m r].
    { exists g, t, e, i. simpl. split_and!; try done; try lia. unfold len. simpl. lia. }
    cbn [tie_loop].
    pose proof (span_run_app (Engine.similarity m) r) as Happ.
    pose proof (span_run_nil (Engine.similarity m) r) as Hnil.
    destruct (span_run (Engine.similarity m) r) as [run rest]. simpl in Happ, Hnil.
    assert (Hrest : (length rest <= fuel)%nat).
    { apply (f_equal length) in Happ. rewrite length_app in Happ. simpl in Hlen. lia. }
    assert (Hlens : len (m :: r) = 1 + len run + len rest).
    { apply (f_equal length) in Happ. rewrite length_app in Happ. unfold len. simpl. lia. }
    destruct run as [|h run].
    + simpl in Happ. subst rest.
      replace (1 <? len [m]) with false by done.
      destruct (IH r g t e i Hrest) as (g' & t' & e' & i' & Hrun & Hsum & ? & ? & ? & ? & H2 & Hiff).
      exists g', t', e', i'. split_and!; try done.
      * unfold len in *. simpl. lia.
      * rewrite Hiff. split.
        -- intros Hr [|k] a b Ha Hb; simpl in *.
           ++ injection Ha as <-. apply (proj1 Hnil eq_refl). by destruct r.
           ++ by apply (Hr k).
        -- intros Hall k a b Ha Hb. by apply (Hall (S k)).
    + assert (Hgt : (1 <? len (m :: h :: run)) = true).
      { apply Z.ltb_lt. unfold len. simpl. lia. }
      rewrite Hgt.
      assert (Hstep : exists t1 e1 i1,
        (if (1 <? count_distinct (map Engine.token_score (m :: h :: run)))%nat
         then (g + 1, t + 1, e, i)
         else if (1 <? count_distinct (map Engine.edit_score (m :: h :: run)))%nat
              then (g + 1, t, e + 1, i) else (g + 1, t, e, i + 1))
        = (g + 1, t1, e1, i1)
        /\ (t1 - t) + (e1 - e) + (i1 - i) = 1 /\ t <= t1 /\ e <= e1 /\ i <= i1).
      { destruct (_ <? _)%nat; [|destruct (_ <? _)%nat];
          eexists _, _, _; (split; [reflexivity|lia]). }
      destruct Hstep as (t1 & e1 & i1 & -> & Hone & ? & ? & ?).
      destruct (IH rest (g + 1) t1 e1 i1 Hrest)
        as (g' & t' & e' & i' & Hrun & Hsum & ? & ? & ? & ? & H2 & _).
      exists g', t', e', i'. split_and!; try done; try lia.
      * unfold len in *. simpl in *. lia.
      * split; [lia|]. intros Hall. exfalso.
        assert (Hh : Qeq_bool (Engine.similarity h) (Engine.similarity m) = true).
        { destruct (Qeq_bool (Engine.similarity h) (Engine.similarity m)) eqn:E; [done|].
          assert (Hnil' : h :: run = []); [|done].
          apply Hnil. intros m' Hm'. rewrite <- Happ in Hm'. simpl in Hm'.
          by injection Hm' as <-. }
        rewrite (Hall O m h) in Hh; [done|done|]. by rewrite <- Happ.
Qed.

(** X10: the first counter of [compute_tie_break_stats] is the sum of the
    other three, none is negative, a group takes at least two matches, and
    no group is counted exactly when no match has the similarity of the one
    before it. *)
Theorem tie_break_stats_partition (matches : list Engine.Match) :
  exists groups_total by_token by_edit by_id,
    compute_tie_break_stats matches = (groups_total, by_token, by_edit, by_id)
    /\ groups_total = by_token + by_edit + by_id
    /\ 0 <= by_token /\ 0 <= by_edit /\ 0 <= by_id
    /\ 2 * groups_total <= len matches
    /\ (groups_total = 0 <->
        forall k a b, matches !! k = Some a -> matches !! S k = Some b ->
          Qeq_bool (Engine.similarity b) (Engine.similarity a) = false).
Proof.
  unfold compute_tie_break_stats.
  destruct (tie_loop_counts (length matches) matches 0 0 0 0 (le_n _))
    as (g & t & e & i & -> & Hsum & ? & ? & ? & ? & H2 & Hiff).
  exists g, t, e, i. split_and!; try done; lia.
Qed.

End TieFacts.

(** ** app.py: the cache under any calls *)

Module CacheCallFacts.
Import Py LRUCache Session.

Section Cache.
Context {K V : Type} `{EqDecision K}.
Implicit Types (c : LRUCache K V) (d : list (K * V)) (k : K) (v : V).

Lemma dict_get_promoted d k v k' :
  NoDup (dict_keys d) ->
  dict_get (dict_remove d k ++ [(k, v)]) k'
  = if decide (k = k') then Some v else dict_get d k'.
Proof.
  intros Hnd. rewrite PyFacts.dict_get_app, PyFacts.dict_get_remove by done.
  case_decide as Hk; simpl.
  - by rewrite decide_True.
  - destruct (dict_get d k'); [done|]. by rewrite decide_False.
Qed.

Lemma dict_get_move_to_end d k k' :
  NoDup (dict_keys d) -> dict_get (move_to_end d k) k' = dict_get d k'.
Proof.
  intros Hnd. unfold move_to_end. destruct (dict_get d k) as [v|] eqn:Hk; [|done].
  rewrite dict_get_promoted by done. case_decide; congruence.
Qed.

Lemma move_to_end_NoDup d k : NoDup (dict_keys d) -> NoDup (dict_keys (move_to_end d k)).
Proof.
  intros Hnd. unfold move_to_end. destruct (dict_get d k) as [v|]; [|done].
  by apply LRUCacheFacts.promoted_NoDup.
Qed.

Lemma move_to_end_length d k :
  NoDup (dict_keys d) -> length (move_to_end d k) = length d.
Proof.
  intros Hnd. unfold move_to_end. destruct (dict_get d k) as [v|] eqn:Hk; [|done].
  rewrite length_app. simpl.
  assert (Hrem : S (length (dict_remove d k)) = length d); [|lia].
  clear Hnd. revert Hk. induction d as [|[k0 v0] r IH]; simpl; [done|].
  case_decide; [done|]. intros Hk. simpl. by rewrite IH.
Qed.

Lemma dict_get_tail d k v :
  NoDup (dict_keys d) -> dict_get (tail d) k = Some v -> dict_get d k = Some v.
Proof.
  destruct d as [|[k0 v0] r]; simpl; [done|]. intros [Hk0 _]%NoDup_cons Hk.
  case_decide as Heq; [|done]. subst k0. exfalso. apply Hk0.
  apply PyFacts.dict_get_is_Some. by eexists.
Qed.

Lemma set_lookup c k v k' v' :
  NoDup (dict_keys (_data c)) ->
  dict_get (_data (set c k v)) k' = Some v' ->
  if decide (k = k') then v' = v else dict_get (_data c) k' = Some v'.
Proof.
  intros Hnd. rewrite LRUCacheFacts.set_data. cbn zeta.
  pose proof (LRUCacheFacts.promoted_NoDup (_data c) k v Hnd) as Hp.
  intros Hget.
  assert (Hfull : dict_get (dict_remove (_data c) k ++ [(k, v)]) k' = Some v').
  { destruct (_ >? _); [by apply dict_get_tail|done]. }
  rewrite dict_get_promoted in Hfull by done. case_decide; congruence.
Qed.

Lemma set_NoDup c k v :
  NoDup (dict_keys (_data c)) -> NoDup (dict_keys (_data (set c k v))).
Proof.
  intros Hnd. rewrite LRUCacheFacts.set_data. cbn zeta.
  pose proof (LRUCacheFacts.promoted_NoDup (_data c) k v Hnd) as Hp.
  destruct (_ >? _); [|done]. unfold dict_keys in *. rewrite fmap_tail.
  by apply LRUCacheFacts.NoDup_tail.
Qed.

Lemma set_length c k v :
  len (_data c) <= Z.max 0 (maxsize c) ->
  len (_data (set c k v)) <= Z.max 0 (maxsize c).
Proof.
  intros Hlen. rewrite LRUCacheFacts.set_data. cbn zeta.
  pose proof (LRUCacheFacts.dict_remove_length (_data c) k) as Hrem. unfold len in *.
  assert (Hd : (length (dict_remove (_data c) k ++ [(k, v)])
                <= length (_data c) + 1)%nat) by (rewrite length_app; simpl; lia).
  destruct (Z.gtb_spec (Z.of_nat (length (dict_remove (_data c) k ++ [(k, v)])))
              (maxsize c)) as [Hgt|Hle]; [|lia].
  destruct (dict_remove (_data c) k ++ [(k, v)]) as [|x d'] eqn:Ed; simpl in *; lia.
Qed.

Lemma get_data c k :
  _data (snd (get c k)) = move_to_end (_data c) k /\ maxsize (snd (get c k)) = maxsize c.
Proof.
  unfold get, move_to_end. by destruct (dict_get (_data c) k).
Qed.

Lemma call_invariant c (op : CacheCall K V) :
  NoDup (dict_keys (_data c)) -> len (_data c) <= Z.max 0 (maxsize c) ->
  maxsize (call c op) = maxsize c
  /\ NoDup (dict_keys (_data (call c op)))
  /\ len (_data (call c op)) <= Z.max 0 (maxsize c).
Proof.
  intros Hnd Hlen. destruct op as [k|k v]; cbn [call].
  - destruct (get_data c k) as [-> ->]. split_and!; [done|by apply move_to_end_NoDup|].
    unfold len. by rewrite move_to_end_length.
  - split_and!; [done|by apply set_NoDup|by apply set_length].
Qed.

Lemma calls_invariant (cap : Z) (ops : list (CacheCall K V)) :
  let c := calls (new cap) ops in
  maxsize c = cap
  /\ NoDup (dict_keys (_data c))
  /\ len (_data c) <= Z.max 0 cap.
Proof.
  induction ops as [|op ops IH] using rev_ind.
  - simpl. split_and!; [done|apply NoDup_nil_2|unfold len; simpl; lia].
  - unfold calls in *. rewrite foldl_snoc. simpl in *. destruct IH as (Hcap & Hnd & Hlen).
    set (c0 := foldl call (new cap) ops) in *.
    assert (Hlen' : len (_data c0) <= Z.max 0 (maxsize c0)) by (by rewrite Hcap).
    destruct (call_invariant c0 op Hnd Hlen') as (-> & ? & ?). by rewrite <- Hcap.
Qed.

(** X11: in a cache reached from an empty one by any calls, no key is
    stored twice, the size is within the capacity, and the value stored
    under a key is the one given by the last [set] of that key. *)
Theorem cache_holds_last_set (cap : Z) (ops : list (CacheCall K V)) :
  let c := calls (new cap) ops in
  maxsize c = cap
  /\ NoDup (dict_keys (_data c))
  /\ len (_data c) <= Z.max 0 cap
  /\ forall k v, fst (get c k) = Some v ->
       exists before after,
         ops = before ++ CallSet k v :: after
         /\ Forall (fun op => forall v', op <> CallSet k v') after.
Proof.
  intros c. destruct (calls_invariant cap ops) as (Hcap & Hnd & Hlen). fold c in Hcap, Hnd, Hlen.
  split_and!; [done..|]. intros k v Hget.
  assert (Hk : dict_get (_data c) k = Some v).
  { unfold get in Hget. by destruct (dict_get (_data c) k). }
  clear Hget Hcap Hnd Hlen. subst c. revert v Hk.
  induction ops as [|op ops IH] using rev_ind; intros v Hk; [done|].
  unfold calls in *. rewrite foldl_snoc in Hk.
  destruct (calls_invariant cap ops) as (_ & Hnd & _). unfold calls in Hnd. simpl in Hnd.
  destruct op as [k'|k' v']; cbn [call] in Hk.
  - rewrite (proj1 (get_data _ _)), dict_get_move_to_end in Hk by done.
    destruct (IH v Hk) as (before & after & -> & Hafter).
    exists before, (after ++ [CallGet k']). split; [by rewrite <- app_assoc|].
    apply Forall_app. split; [done|]. by apply Forall_singleton.
  - apply set_lookup in Hk; [|done]. case_decide as Heq.
    + subst. exists ops, []. split; [done|]. apply Forall_nil_2.
    + destruct (IH v Hk) as (before & after & -> & Hafter).
      exists before, (after ++ [CallSet k' v']). split; [by rewrite <- app_assoc|].
      apply Forall_app. split; [done|]. apply Forall_singleton. congruence.
Qed.

Lemma set_stores c k v :
  NoDup (dict_keys (_data c)) -> 1 <= maxsize c ->
  dict_get (_data (set c k v)) k = Some v.
Proof.
  intros Hnd Hcap. rewrite LRUCacheFacts.set_data. cbn zeta.
  pose proof (LRUCacheFacts.promoted_NoDup (_data c) k v Hnd) as Hp.
  assert (Hfull : dict_get (dict_remove (_data c) k ++ [(k, v)]) k = Some v).
  { rewrite dict_get_promoted by done. by rewrite decide_True. }
  destruct (Z.gtb_spec (len (dict_remove (_data c) k ++ [(k, v)])) (maxsize c)) as [Hgt|];
    [|done].
  destruct (dict_remove (_data c) k) as [|[k0 v0] r] eqn:Er.
  - unfold len in Hgt. simpl in Hgt. lia.
  - simpl in *. apply NoDup_cons in Hp as [Hk0 _].
    rewrite decide_False in Hfull; [done|]. intros ->. apply Hk0.
    unfold dict_keys. rewrite fmap_app. set_solver.
Qed.

(** X12: with room for one entry at least, a value just stored is read
    back; a cache of capacity zero or less stays empty. *)
Theorem set_then_get c k v :
  NoDup (dict_keys (_data c)) ->
  (1 <= maxsize c -> fst (get (set c k v) k) = Some v)
  /\ (maxsize c <= 0 -> _data c = [] -> _data (set c k v) = []).
Proof.
  intros Hnd. split.
  - intros Hcap. unfold get. by rewrite set_stores.
  - intros Hcap Hempty. rewrite LRUCacheFacts.set_data, Hempty. simpl.
    destruct (Z.gtb_spec (len [(k, v)]) (maxsize c)) as [|Hle]; [done|].
    unfold len in Hle. simpl in Hle. lia.
Qed.
End Cache.

Lemma set_then_get_witness :
  let c : LRUCache Z Z := {| maxsize := 2; _data := [(1, 10); (2, 20)] |} in
  NoDup (dict_keys (_data c))
  /\ (1 <= maxsize c -> fst (get (set c 3 30) 3) = Some 30)
  /\ (maxsize c <= 0 -> _data c = [] -> _data (set c 3 30) = []).
Proof.
  intros c.
  assert (Hnd : NoDup (dict_keys (_data c)))
    by (apply NoDup_cons; split; [set_solver|apply NoDup_singleton]).
  split; [exact Hnd|]. exact (set_then_get c 3 30 Hnd).
Defined.

End CacheCallFacts.

(** ** app.py: requests served in a row *)

Module ServeFacts.
Import Py App Session.

(** *** Floats that are equal are treated alike *)

Lemma Qeq_bool_compat (x x' y y' : Q) :
  (x == x')%Q -> (y == y')%Q -> Qeq_bool x y = Qeq_bool x' y'.
Proof.
  intros Hx Hy. apply eq_true_iff_eq. rewrite !Qeq_bool_iff. by rewrite Hx, Hy.
Qed.

Lemma Qle_bool_compat (x x' y y' : Q) :
  (x == x')%Q -> (y == y')%Q -> Qle_bool x y = Qle_bool x' y'.
Proof.
  intros Hx Hy. apply eq_true_iff_eq. rewrite !Qle_bool_iff. by rewrite Hx, Hy.
Qed.

Lemma round_half_even_compat (x y : Q) : (x == y)%Q -> round_half_even x = round_half_even y.
Proof.
  intros Hxy. unfold round_half_even. rewrite (Qfloor_comp _ _ Hxy).
  assert (Hc : ((x - inject_Z (Qfloor y)) ?= 1 # 2)%Q = ((y - inject_Z (Qfloor y)) ?= 1 # 2)%Q)
    by (by rewrite Hxy).
  by rewrite Hc.
Qed.

Lemma round_compat (x y : Q) (d : nat) : (x == y)%Q -> round x d = round y d.
Proof.
  intros Hxy. unfold round.
  rewrite (round_half_even_compat (x * inject_Z (10 ^ Z.of_nat d))
                                  (y * inject_Z (10 ^ Z.of_nat d))); [done|].
  by rewrite Hxy.
Qed.

Lemma scored_ltb_compat (a a' b b' : Engine.Scored) :
  same_entry a a' -> same_entry b b' -> Engine.scored_ltb a b = Engine.scored_ltb a' b'.
Proof.
  intros (Hid & _ & Hsim & Htok & Hed & _) (Hid' & _ & Hsim' & Htok' & Hed' & _).
  unfold Engine.scored_ltb, Engine.sort_key, Engine.key_ltb, Qltb.
  rewrite Hid, Hid', Htok, Htok', Hed, Hed'.
  rewrite (Qeq_bool_compat (- Engine.similarity_raw a) (- Engine.similarity_raw a')
             (- Engine.similarity_raw b) (- Engine.similarity_raw b'))
    by (by rewrite ?Hsim, ?Hsim').
  rewrite (Qle_bool_compat (- Engine.similarity_raw b) (- Engine.similarity_raw b')
             (- Engine.similarity_raw a) (- Engine.similarity_raw a'))
    by (by rewrite ?Hsim, ?Hsim').
  done.
Qed.

Lemma insert_sorted_compat (x x' : Engine.Scored) (l l' : list Engine.Scored) :
  same_entry x x' -> Forall2 same_entry l l' ->
  Forall2 same_entry (insert_sorted Engine.scored_ltb x l)
                     (insert_sorted Engine.scored_ltb x' l').
Proof.
  intros Hx Hl. induction Hl as [|y y' r r' Hy Hr IH]; simpl.
  - constructor; [done|constructor].
  - rewrite (scored_ltb_compat y y' x x' Hy Hx).
    destruct (Engine.scored_ltb y' x').
    + constructor; [done|]. apply IH.
    + constructor; [done|]. by constructor.
Qed.

Lemma sorted_compat (l l' : list Engine.Scored) :
  Forall2 same_entry l l' ->
  Forall2 same_entry (sorted Engine.scored_ltb l) (sorted Engine.scored_ltb l').
Proof.
  induction 1 as [|x x' r r' Hx Hr IH]; simpl; [constructor|].
  by apply insert_sorted_compat.
Qed.

Lemma pop_raw_compat (l l' : list Engine.Scored) :
  Forall2 same_entry l l' -> map Engine.pop_raw l = map Engine.pop_raw l'.
Proof.
  induction 1 as [|x x' r r' Hx Hr IH]; simpl; [done|]. rewrite IH. f_equal.
  destruct Hx as (? & ? & _ & _ & _ & ? & ? & ? & ?). unfold Engine.pop_raw. congruence.
Qed.

Section Compat.
Variables token_set_ratio ratio : str -> str -> Q.
Variable e : Engine.SearchEngine.

Lemma score_all_compat (q : str) (th th' w w' : Q) (ids : list Z) :
  (th == th')%Q -> (w == w')%Q ->
  match Engine.score_all token_set_ratio ratio e q th w ids,
        Engine.score_all token_set_ratio ratio e q th' w' ids with
  | Ok s, Ok s' => Forall2 same_entry s s'
  | Raise x, Raise x' => x = x'
  | _, _ => False
  end.
Proof.
  intros Hth Hw. induction ids as [|rid ids IH]; cbn [Engine.score_all]; [constructor|].
  unfold Engine.score_candidate.
  destruct (dict_get (Engine.records_by_id e) rid) as [rec|]; [|done].
  set (tok := token_set_ratio q (Engine.normalized_name rec)).
  set (ed := ratio q (Engine.normalized_name rec)).
  assert (Hc : (w * tok + (1 - w) * ed == w' * tok + (1 - w') * ed)%Q) by (by rewrite Hw).
  rewrite (Qle_bool_compat th th' _ _ Hth Hc).
  destruct (Engine.score_all token_set_ratio ratio e q th w ids) as [s|x],
           (Engine.score_all token_set_ratio ratio e q th' w' ids) as [s'|x'];
    destruct (Qle_bool th' _); simpl; try done.
  constructor; [|done].
  unfold same_entry. simpl.
  rewrite (round_compat _ _ 2 Hc), (round_compat _ _ 3 Hw). by repeat split.
Qed.

Lemma search_explain_compat (q : str) (th th' : Q) (limit : Z) (w w' : Q) :
  (th == th')%Q -> (w == w')%Q ->
  Engine.search_explain token_set_ratio ratio e q th limit w
  = Engine.search_explain token_set_ratio ratio e q th' limit w'.
Proof.
  intros Hth Hw. unfold Engine.search_explain.
  pose proof (score_all_compat q th th' w w' (Engine.candidate_ids e q) Hth Hw) as Hs.
  destruct (Engine.score_all token_set_ratio ratio e q th w _) as [s|x],
           (Engine.score_all token_set_ratio ratio e q th' w' _) as [s'|x']; simpl;
    try done; [|by subst].
  by rewrite (pop_raw_compat _ _ (sorted_compat _ _ Hs)).
Qed.

Lemma search_explain_Qred (q : str) (th : Q) (limit : Z) (w : Q) :
  Engine.search_explain token_set_ratio ratio e q (Qred th) limit (Qred w)
  = Engine.search_explain token_set_ratio ratio e q th limit w.
Proof. apply search_explain_compat; apply Qred_correct. Qed.
End Compat.


Lemma rate_between (a b : Z) : 0 <= a <= b -> (0 <= Metrics.rate a b <= 1)%Q.
Proof.
  intros [Ha Hb]. unfold Metrics.rate. destruct (Z.eqb_spec b 0) as [|Hne]; [lra|].
  assert (HbQ : (0 < inject_Z b)%Q) by (change 0%Q with (inject_Z 0); rewrite <- Zlt_Qlt; lia).
  split.
  - apply Qle_shift_div_l; [done|]. rewrite Qmult_0_l.
    change 0%Q with (inject_Z 0). by rewrite <- Zle_Qle.
  - apply Qle_shift_div_r; [done|]. rewrite Qmult_1_l. by rewrite <- Zle_Qle.
Qed.

(** *** The counters *)

Lemma sum_dict_set (d : list (str * Z)) (k : str) (v : Z) :
  foldr Z.add 0 (map snd (dict_set d k v))
  = foldr Z.add 0 (map snd d) - default 0 (dict_get d k) + v.
Proof.
  induction d as [|[k0 v0] r IH]; simpl; [lia|].
  case_decide; simpl; [lia|]. rewrite IH. lia.
Qed.

Lemma Forall_dict_set {K V} `{EqDecision K} (P : K * V -> Prop)
    (d : list (K * V)) (k : K) (v : V) :
  Forall P d -> P (k, v) -> Forall P (dict_set d k v).
Proof.
  intros Hd Hkv. induction Hd as [|[k0 v0] r H0 Hr IH]; simpl.
  - by constructor.
  - case_decide; constructor; (done || by subst).
Qed.

Lemma deque_append_length {A} (cap : Z) (d : list A) (x : A) :
  len d <= cap -> len (Metrics.deque_append cap d x) = Z.min cap (len d + 1).
Proof.
  intros Hd. unfold Metrics.deque_append, len in *. rewrite length_app. simpl.
  destruct (Z.gtb_spec (Z.of_nat (length d + 1)) cap) as [Hgt|Hle].
  - destruct d as [|y d']; simpl in *; [lia|]. rewrite length_app. simpl. lia.
  - rewrite length_app. simpl. lia.
Qed.

Lemma inc_request_consistent (m : Metrics.Metrics) (q : str) :
  let m' := Metrics.inc_request m q in
  NoDup (dict_keys (Metrics.top_queries m)) ->
  Forall (fun kv => 1 <= snd kv) (Metrics.top_queries m) ->
  foldr Z.add 0 (map snd (Metrics.top_queries m)) = Metrics.total_requests m ->
  NoDup (dict_keys (Metrics.top_queries m'))
  /\ Forall (fun kv => 1 <= snd kv) (Metrics.top_queries m')
  /\ foldr Z.add 0 (map snd (Metrics.top_queries m')) = Metrics.total_requests m'.
Proof.
  intros m' Hnd Hpos Hsum. unfold m', Metrics.inc_request. simpl.
  assert (Hk : 0 <= default 0 (dict_get (Metrics.top_queries m) q)).
  { destruct (dict_get (Metrics.top_queries m) q) as [v|] eqn:E; simpl; [|lia].
    apply PyFacts.dict_get_Some_elem_of in E. rewrite Forall_forall in Hpos.
    specialize (Hpos _ E). simpl in Hpos. lia. }
  split_and!.
  - by apply PyFacts.dict_set_NoDup.
  - apply Forall_dict_set; [done|]. simpl. lia.
  - rewrite sum_dict_set. lia.
Qed.

(** *** The cache entries *)

Lemma dict_remove_subseteq {K V} `{EqDecision K} (d : list (K * V)) (k : K) :
  dict_remove d k ⊆ d.
Proof.
  induction d as [|[k0 v0] r IH]; simpl; [done|]. case_decide; set_solver.
Qed.

Lemma move_to_end_subseteq {K V} `{EqDecision K} (d : list (K * V)) (k : K) :
  move_to_end d k ⊆ d.
Proof.
  unfold move_to_end. destruct (dict_get d k) as [v|] eqn:E; [|done].
  apply PyFacts.dict_get_Some_elem_of in E.
  pose proof (dict_remove_subseteq d k). set_solver.
Qed.

Lemma tail_subseteq {A} (l : list A) : tail l ⊆ l.
Proof. destruct l; set_solver. Qed.

Lemma set_elem_of {K V} `{EqDecision K} (c : LRUCache.LRUCache K V) (k : K) (v : V)
    (x : K * V) :
  x ∈ LRUCache._data (LRUCache.set c k v) -> x = (k, v) \/ x ∈ LRUCache._data c.
Proof.
  rewrite LRUCacheFacts.set_data. cbn zeta. intros Hx.
  assert (Hin : x ∈ dict_remove (LRUCache._data c) k ++ [(k, v)]).
  { destruct (_ >? _); [by apply tail_subseteq|done]. }
  apply elem_of_app in Hin as [Hin|Hin%list_elem_of_singleton]; [|by left].
  right. by apply (dict_remove_subseteq _ k).
Qed.

(** *** One request *)

Section Serve.
Variable U : Matching.Unicode.
Variables token_set_ratio ratio : str -> str -> Q.

Lemma handle_cases (engine : option Engine.SearchEngine) (st : AppState) (r : Request) :
  handle U token_set_ratio ratio engine st r =
  if accepted r then
    run_match U token_set_ratio ratio engine st (latency_ms r) (name r) (threshold r)
              (limit r) (Session.w_token r) (explain r) (include_by_id r)
  else (Raise (HTTPException 422), st).
Proof.
  unfold handle, match_get, accepted.
  destruct (Qle_bool 0 (threshold r)), (Qle_bool (threshold r) 100),
           (1 <=? limit r), (limit r <=? 100),
           (Qle_bool 0 (Session.w_token r)), (Qle_bool (Session.w_token r) 1); reflexivity.
Qed.

Lemma run_match_cases (eng : Engine.SearchEngine) (st : AppState) (r : Request) :
  let q := Matching.normalize U (name r) in
  let m1 := Metrics.inc_request (metrics st) q in
  run_match U token_set_ratio ratio (Some eng) st (latency_ms r) (name r) (threshold r)
            (limit r) (Session.w_token r) (explain r) (include_by_id r) =
  match dict_get (LRUCache._data (cache st)) (key_of U r) with
  | Some p =>
      (Ok p, {| metrics := Metrics.inc_cache_hit m1;
                cache := snd (LRUCache.get (cache st) (key_of U r)) |})
  | None =>
      match Engine.search_explain token_set_ratio ratio eng q (threshold r) (limit r)
                                  (Session.w_token r) with
      | Raise x => (Raise x, {| metrics := m1; cache := cache st |})
      | Ok (ms, cnt) =>
          let '(g, t, e, i) := compute_tie_break_stats ms in
          (Ok (build_payload (explain r) (include_by_id r) ms),
           {| metrics :=
                Metrics.add_tie_stats (Metrics.add_search_stats m1 (latency_ms r) cnt) g t e i;
              cache := LRUCache.set (cache st) (key_of U r)
                         (build_payload (explain r) (include_by_id r) ms) |})
      end
  end.
Proof.
  intros q m1. unfold run_match, LRUCache.get, key_of. fold q.
  destruct (dict_get _ _) as [p|]; [done|].
  destruct (Engine.search_explain _ _ _ _ _ _ _) as [[ms cnt]|x]; [|destruct st; done].
  by destruct (compute_tie_break_stats ms) as [[[g t] e] i].
Qed.

(** The response to an accepted request is the one a search gives,
    whatever the cache holds, as long as the cache is sound. *)
Lemma handle_response (eng : Engine.SearchEngine) (st : AppState) (r : Request) :
  cache_sound token_set_ratio ratio eng (cache st) ->
  fst (handle U token_set_ratio ratio (Some eng) st r) =
  if accepted r then
    match Engine.search_explain token_set_ratio ratio eng (Matching.normalize U (name r))
            (threshold r) (limit r) (Session.w_token r) with
    | Ok (ms, cnt) => Ok (build_payload (explain r) (include_by_id r) ms)
    | Raise x => Raise x
    end
  else Raise (HTTPException 422).
Proof.
  intros Hsound. rewrite handle_cases. destruct (accepted r); [|done].
  rewrite run_match_cases. cbn zeta.
  destruct (dict_get _ _) as [p|] eqn:Hget.
  - apply PyFacts.dict_get_Some_elem_of in Hget. unfold key_of in Hget.
    destruct (Hsound _ _ _ _ _ _ _ Hget) as (ms & cnt & Hs & ->).
    rewrite search_explain_Qred in Hs. by rewrite Hs.
  - destruct (Engine.search_explain _ _ _ _ _ _ _) as [[ms cnt]|x]; [|done].
    by destruct (compute_tie_break_stats ms) as [[[g t] e] i].
Qed.

Lemma handle_sound (eng : Engine.SearchEngine) (st : AppState) (r : Request) :
  cache_sound token_set_ratio ratio eng (cache st) ->
  cache_sound token_set_ratio ratio eng
    (cache (snd (handle U token_set_ratio ratio (Some eng) st r))).
Proof.
  intros Hsound. rewrite handle_cases. destruct (accepted r); [|done].
  rewrite run_match_cases. cbn zeta.
  destruct (dict_get _ _) as [p|] eqn:Hget.
  - simpl. intros q th lim w ex inc p' Hin. apply (Hsound q th lim w ex inc p').
    rewrite (proj1 (CacheCallFacts.get_data _ _)) in Hin.
    by apply move_to_end_subseteq in Hin.
  - destruct (Engine.search_explain _ _ _ _ _ _ _) as [[ms cnt]|x] eqn:Hs; [|done].
    destruct (compute_tie_break_stats ms) as [[[g t] e] i]. simpl.
    intros q th lim w ex inc p' [Hnew|Hold]%set_elem_of; [|by eapply Hsound].
    unfold key_of in Hnew. injection Hnew as -> -> -> -> -> -> ->.
    exists ms, cnt. by rewrite search_explain_Qred.
Qed.

Lemma serve_snoc (engine : option Engine.SearchEngine) (st : AppState)
    (reqs : list Request) (r : Request) :
  serve U token_set_ratio ratio engine st (reqs ++ [r])
  = snd (handle U token_set_ratio ratio engine
           (serve U token_set_ratio ratio engine st reqs) r).
Proof. unfold serve. by rewrite foldl_snoc. Qed.

Lemma serve_sound (eng : Engine.SearchEngine) (now : Q) (cap : Z) (reqs : list Request) :
  cache_sound token_set_ratio ratio eng
    (cache (serve U token_set_ratio ratio (Some eng) (initial now cap) reqs)).
Proof.
  induction reqs as [|r reqs IH] using rev_ind.
  - intros q th lim w ex inc p Hin. by apply elem_of_nil in Hin.
  - rewrite serve_snoc. by apply handle_sound.
Qed.

(** X13: the response to a request does not depend on the requests served
    before it, nor on the capacity of the cache. *)
Theorem responses_ignore_history (engine : option Engine.SearchEngine)
    (now now' : Q) (cap cap' : Z) (reqs : list Request) (r : Request) :
  fst (handle U token_set_ratio ratio engine
         (serve U token_set_ratio ratio engine (initial now cap) reqs) r)
  = fst (handle U token_set_ratio ratio engine (initial now' cap') r).
Proof.
  destruct engine as [eng|].
  - rewrite !handle_response; [done| |apply serve_sound].
    intros q th lim w ex inc p Hin. by apply elem_of_nil in Hin.
  - rewrite !handle_cases. by destruct (accepted r).
Qed.

(** The state after one request, in the three ways a request can go. *)
Lemma handle_consistent (eng : Engine.SearchEngine) (st : AppState) (r : Request) :
  (forall q th lim w, exists res,
      Engine.search_explain token_set_ratio ratio eng q th lim w = Ok res) ->
  metrics_consistent (metrics st) ->
  let st' := snd (handle U token_set_ratio ratio (Some eng) st r) in
  metrics_consistent (metrics st')
  /\ Metrics.total_requests (metrics st')
     = Metrics.total_requests (metrics st) + (if accepted r then 1 else 0).
Proof.
  intros Htotal Hm st'. unfold st'. rewrite handle_cases.
  destruct (accepted r); [|split; [done|simpl; lia]].
  rewrite run_match_cases. cbn zeta.
  destruct Hm as (Hhits & Hnd & Hpos & Hsum & Htie & Ht & He & Hi & Hwin & Hlen).
  destruct (inc_request_consistent (metrics st) (Matching.normalize U (name r))
              Hnd Hpos Hsum) as (Hnd' & Hpos' & Hsum').
  destruct (dict_get _ _) as [p|].
  - split; [|done]. unfold metrics_consistent. simpl in *.
    split_and!; try done; try lia.
  - destruct (Htotal (Matching.normalize U (name r)) (threshold r) (limit r)
                (Session.w_token r)) as [[ms cnt] ->].
    unfold compute_tie_break_stats.
    destruct (TieFacts.tie_loop_counts (length ms) ms 0 0 0 0 (le_n _))
      as (g & t & e & i & -> & Hg & ? & ? & ? & ? & _).
    split; [|done]. unfold metrics_consistent. simpl in *.
    assert (Hcap : len (Metrics.lat_ms (Metrics.rolling (metrics st))) <= Metrics.window_cap)
      by lia.
    assert (Hcap' : len (Metrics.candidates (Metrics.rolling (metrics st)))
                    <= Metrics.window_cap) by lia.
    rewrite !deque_append_length by done.
    unfold Metrics.window_cap in *. split_and!; try done; try lia.
Qed.

Lemma handle_cache (eng : Engine.SearchEngine) (st : AppState) (r : Request) :
  NoDup (dict_keys (LRUCache._data (cache st))) ->
  len (LRUCache._data (cache st)) <= Z.max 0 (LRUCache.maxsize (cache st)) ->
  let st' := snd (handle U token_set_ratio ratio (Some eng) st r) in
  LRUCache.maxsize (cache st') = LRUCache.maxsize (cache st)
  /\ NoDup (dict_keys (LRUCache._data (cache st')))
  /\ len (LRUCache._data (cache st')) <= Z.max 0 (LRUCache.maxsize (cache st)).
Proof.
  intros Hnd Hlen st'. unfold st'. rewrite handle_cases.
  destruct (accepted r); [|done]. rewrite run_match_cases. cbn zeta.
  destruct (dict_get _ _) as [p|].
  - apply (CacheCallFacts.call_invariant (cache st) (CallGet (key_of U r)) Hnd Hlen).
  - destruct (Engine.search_explain _ _ _ _ _ _ _) as [[ms cnt]|x]; [|done].
    destruct (compute_tie_break_stats ms) as [[[g t] e] i].
    apply (CacheCallFacts.call_invariant (cache st) (CallSet (key_of U r) _) Hnd Hlen).
Qed.

Lemma serve_consistent (recs : list Engine.NameRecord) (cfg : Engine.SearchConfig)
    (now : Q) (cap : Z) (reqs : list Request) :
  let st := serve U token_set_ratio ratio (Some (Engine.new_engine recs cfg))
                  (initial now cap) reqs in
  metrics_consistent (metrics st)
  /\ Metrics.total_requests (metrics st) = len (List.filter accepted reqs)
  /\ LRUCache.maxsize (cache st) = cap
  /\ NoDup (dict_keys (LRUCache._data (cache st)))
  /\ len (LRUCache._data (cache st)) <= Z.max 0 cap.
Proof.
  induction reqs as [|r reqs IH] using rev_ind.
  - simpl. unfold metrics_consistent, len, Metrics.window_cap. simpl.
    split_and!; try done; try lia; constructor.
  - rewrite serve_snoc. simpl in *. destruct IH as (Hm & Hreq & Hcap & Hnd & Hlen).
    set (st := serve U token_set_ratio ratio (Some (Engine.new_engine recs cfg))
                     (initial now cap) reqs) in *.
    destruct (handle_consistent (Engine.new_engine recs cfg) st r) as [Hm' Hreq']; [|done|].
    { intros q th lim w. apply EngineFacts.search_explain_total. }
    rewrite <- Hcap in Hlen.
    destruct (handle_cache (Engine.new_engine recs cfg) st r Hnd Hlen) as (Hcap' & Hnd' & Hlen').
    split_and!; [done| |congruence|done|by rewrite <- Hcap].
    rewrite Hreq', Hreq, List.filter_app. unfold len. rewrite length_app. simpl.
    destruct (accepted r); simpl; lia.
Qed.

(** X14: after any requests served by a started service, the counters
    agree: the requests counted are the accepted ones, the hits are no
    more than the requests, the per-query counters add up to the number of
    requests, every tie group is resolved in one of three ways, the two
    windows hold one entry per search up to 5000, the cache holds no key
    twice and is within its capacity, and the hit rate of the snapshot is
    between 0 and 1. *)
Theorem served_state_consistent (recs : list Engine.NameRecord) (cfg : Engine.SearchConfig)
    (now : Q) (cap : Z) (reqs : list Request) (later : Q) (topk : Z) :
  let st := serve U token_set_ratio ratio (Some (Engine.new_engine recs cfg))
                  (initial now cap) reqs in
  let m := metrics st in
  Metrics.total_requests m = len (List.filter accepted reqs)
  /\ 0 <= Metrics.total_cache_hits m <= Metrics.total_requests m
  /\ foldr Z.add 0 (map snd (Metrics.top_queries m)) = Metrics.total_requests m
  /\ Metrics.tie_groups_total m
     = Metrics.tie_resolved_by_token m + Metrics.tie_resolved_by_edit m
       + Metrics.tie_resolved_by_id m
  /\ len (Metrics.lat_ms (Metrics.rolling m))
     = Z.min 5000 (Metrics.total_requests m - Metrics.total_cache_hits m)
  /\ len (Metrics.candidates (Metrics.rolling m)) = len (Metrics.lat_ms (Metrics.rolling m))
  /\ NoDup (dict_keys (LRUCache._data (cache st)))
  /\ len (LRUCache._data (cache st)) <= Z.max 0 cap
  /\ (0 <= Metrics.cache_hit_rate (Metrics.snapshot m later topk) <= 1)%Q.
Proof.
  intros st m.
  destruct (serve_consistent recs cfg now cap reqs)
    as ((Hhits & _ & _ & Hsum & Htie & _ & _ & _ & Hwin & Hlen) & Hreq & _ & Hnd & Hsize).
  fold st in Hhits, Hsum, Htie, Hwin, Hlen, Hreq, Hnd, Hsize. fold m in Hhits, Hsum, Htie, Hwin, Hlen, Hreq.
  assert (Hrate : (0 <= Metrics.cache_hit_rate (Metrics.snapshot m later topk) <= 1)%Q).
  { cbn [Metrics.snapshot Metrics.cache_hit_rate].
    apply (RoundFacts.round_between 0 1), rate_between. done. }
  unfold Metrics.window_cap in Hlen. destruct Hrate.
  split_and!; try done; lia.
Qed.


Lemma by_id_of_results (ex : bool) (hits : list Hit) :
  NoDup (map h_id hits) ->
  foldl (fun d r => dict_set d (h_id r) (by_id_of ex r)) [] hits
  = map (fun r => (h_id r, by_id_of ex r)) hits.
Proof.
  induction hits as [|h hits IH] using rev_ind; [done|].
  rewrite map_app, foldl_snoc. intros (Hnd & Hh & _)%NoDup_app.
  rewrite IH, map_app by done. simpl. apply PyFacts.dict_set_length_new.
  apply PyFacts.dict_get_None. unfold dict_keys. rewrite map_map. simpl.
  intros Hin. apply (Hh _ Hin). by left.
Qed.

Lemma hit_of_id (ex : bool) (ms : list Engine.Match) :
  map h_id (map (hit_of ex) ms) = map Engine.m_id ms.
Proof. rewrite map_map. apply map_ext. intros m. by destruct ex. Qed.

Lemma response_of_search (recs : list Engine.NameRecord) (cfg : Engine.SearchConfig)
    (now : Q) (cap : Z) (reqs : list Request) (r : Request) :
  accepted r = true ->
  let engine := Some (Engine.new_engine recs cfg) in
  exists p,
    fst (handle U token_set_ratio ratio engine
           (serve U token_set_ratio ratio engine (initial now cap) reqs) r) = Ok p
    /\ len (results p) <= limit r
    /\ NoDup (map h_id (results p))
    /\ (forall h, h ∈ results p ->
          (exists rec, rec ∈ recs /\ Engine.id rec = h_id h /\ Engine.full_name rec = h_name h)
          /\ (is_Some (h_token_score h) <-> explain r = true)
          /\ (is_Some (h_edit_score h) <-> explain r = true)
          /\ (is_Some (h_w_token h) <-> explain r = true))
    /\ results_by_id p
       = if include_by_id r
         then Some (map (fun h => (h_id h, by_id_of (explain r) h)) (results p))
         else None.
Proof.
  intros Hacc engine. unfold engine.
  rewrite handle_response by apply serve_sound. rewrite Hacc.
  destruct (EngineMore.search_shape token_set_ratio ratio recs cfg
              (Matching.normalize U (name r)) (threshold r) (limit r) (Session.w_token r))
    as (ms & -> & Hnd & _ & Hlen & Hrec).
  eexists. split; [done|].
  assert (Hlimit : 1 <= limit r).
  { unfold accepted in Hacc. rewrite !andb_true_iff in Hacc.
    destruct Hacc as [[_ [H1 _]] _]. by apply Z.leb_le. }
  cbn [build_payload results results_by_id]. split_and!.
  - unfold len in *. rewrite length_map. apply Hlen. lia.
  - by rewrite hit_of_id.
  - intros h (m & -> & Hm)%list_elem_of_fmap. destruct (Hrec m Hm) as [_ (rec & ? & ? & ?)].
    split; [exists rec; by destruct (explain r)|].
    unfold hit_of. destruct (explain r); simpl.
    + split_and!; split; eauto.
    + split_and!; split; (done || by intros [? ?]).
  - destruct (include_by_id r); [|done]. f_equal. apply by_id_of_results.
    by rewrite hit_of_id.
Qed.

(** X16: an accepted request to a started service is answered, whatever
    was served before: with at most [limit] results, no record twice, each
    result carrying the id and the name of a record of the repository and
    the three explain fields exactly when [explain] is set, and with
    [results_by_id] listing the same results by id when it is asked for. *)
Theorem response_shape (recs : list Engine.NameRecord) (cfg : Engine.SearchConfig)
    (now : Q) (cap : Z) (reqs : list Request) (r : Request) :
  accepted r = true ->
  let engine := Some (Engine.new_engine recs cfg) in
  exists p,
    fst (handle U token_set_ratio ratio engine
           (serve U token_set_ratio ratio engine (initial now cap) reqs) r) = Ok p
    /\ len (results p) <= limit r
    /\ NoDup (map h_id (results p))
    /\ (forall h, h ∈ results p ->
          (exists rec, rec ∈ recs /\ Engine.id rec = h_id h /\ Engine.full_name rec = h_name h)
          /\ (is_Some (h_token_score h) <-> explain r = true)
          /\ (is_Some (h_edit_score h) <-> explain r = true)
          /\ (is_Some (h_w_token h) <-> explain r = true))
    /\ results_by_id p
       = if include_by_id r
         then Some (map (fun h => (h_id h, by_id_of (explain r) h)) (results p))
         else None.
Proof. apply response_of_search. Qed.

(** X17: a request outside the ranges of [match_get] is answered with
    status 422 and leaves no trace: the state after any requests is the
    state after the accepted ones. *)
Theorem rejected_requests_leave_no_trace (engine : option Engine.SearchEngine)
    (st : AppState) (reqs : list Request) :
  (forall r, accepted r = false ->
     handle U token_set_ratio ratio engine st r = (Raise (HTTPException 422), st))
  /\ serve U token_set_ratio ratio engine st reqs
     = serve U token_set_ratio ratio engine st (List.filter accepted reqs).
Proof.
  split.
  - intros r Hr. by rewrite handle_cases, Hr.
  - unfold serve. revert st. induction reqs as [|r reqs IH]; intros st; [done|].
    simpl. rewrite IH. destruct (accepted r) eqn:Hr; simpl; [done|].
    by rewrite handle_cases, Hr.
Qed.
End Serve.


Lemma response_shape_witness :
  let r := {| name := cp "Juan Perez"; threshold := 70; limit := 10;
              Session.w_token := 13 # 20; explain := true; include_by_id := true;
              latency_ms := 3 |} in
  let engine := Some (Engine.new_engine Example.repo Engine.default_config) in
  accepted r = true
  /\ exists p,
       fst (handle Matching.latin1 Fuzz.token_set_ratio Fuzz.ratio engine
              (serve Matching.latin1 Fuzz.token_set_ratio Fuzz.ratio engine
                     (initial 0 256) [r; r]) r) = Ok p
       /\ len (results p) <= 10
       /\ NoDup (map h_id (results p)).
Proof.
  intros r engine.
  assert (Hacc : accepted r = true) by (by vm_compute).
  split; [exact Hacc|].
  destruct (response_shape Matching.latin1 Fuzz.token_set_ratio Fuzz.ratio
              Example.repo Engine.default_config 0 256 [r; r] r Hacc)
    as (p & Hp & Hlen & Hnd & _).
  exists p. by split_and!.
Defined.

End ServeFacts.

(** ** metrics.py: the rolling windows *)

Module RollingFacts.
Import Py Metrics.

(** *** The windows *)

Lemma deque_append_latest {A} (l : list A) (x : A) :
  deque_append window_cap (drop (Z.to_nat (len l - window_cap)) l) x
  = drop (Z.to_nat (len (l ++ [x]) - window_cap)) (l ++ [x]).
Proof.
  unfold deque_append, window_cap, len. rewrite !length_app, length_drop. cbn [length].
  destruct (Z_le_gt_dec 5000 (Z.of_nat (length l))) as [Hfull|Hroom].
  - set (k := Z.to_nat (Z.of_nat (length l) - 5000)).
    replace (Z.to_nat (Z.of_nat (length l + 1) - 5000)) with (S k) by lia.
    destruct (Z.gtb_spec (Z.of_nat (length l - k + 1)) 5000) as [_|Hle]; [|lia].
    rewrite drop_app_le by lia.
    destruct (drop k l) as [|y r] eqn:Ed.
    + apply (f_equal length) in Ed. rewrite length_drop in Ed. simpl in Ed. lia.
    + cbn [app tail]. replace (S k) with (k + 1)%nat by lia.
      rewrite <- (drop_drop l 1 k), Ed. simpl. by rewrite drop_0.
  - replace (Z.to_nat (Z.of_nat (length l) - 5000)) with O by lia.
    replace (Z.to_nat (Z.of_nat (length l + 1) - 5000)) with O by lia.
    rewrite !drop_0, Nat.sub_0_r.
    destruct (Z.gtb_spec (Z.of_nat (length l + 1)) 5000) as [Hgt|_]; [lia|done].
Qed.

(** X18: the rolling windows hold the latencies and the candidate counts
    of the last 5000 searches, in the order of the searches. *)
Theorem rolling_window_keeps_latest (obs : list (Q * Z)) :
  let r := foldl (fun r o => add r (fst o) (snd o)) new_rolling obs in
  lat_ms r = drop (Z.to_nat (len obs - 5000)) (map fst obs)
  /\ candidates r = drop (Z.to_nat (len obs - 5000)) (map snd obs)
  /\ len (lat_ms r) = Z.min 5000 (len obs)
  /\ len (candidates r) = Z.min 5000 (len obs).
Proof.
  induction obs as [|o obs IH] using rev_ind.
  - simpl. by split_and!.
  - rewrite foldl_snoc. cbn zeta in IH. destruct IH as (Hlat & Hcand & _ & _).
    cbn [add lat_ms candidates]. rewrite Hlat, Hcand.
    pose proof (deque_append_latest (map fst obs) (fst o)) as H1.
    pose proof (deque_append_latest (map snd obs) (snd o)) as H2.
    unfold len, window_cap in *. rewrite !length_app, !length_map in *. cbn [length] in *.
    rewrite !map_app. cbn [map]. rewrite H1, H2.
    rewrite !length_drop, !length_app, !length_map. cbn [length]. split_and!; try done; lia.
Qed.

(** *** Mean and percentile *)








End RollingFacts.

(** ** matching.py: the shape of names and grams *)

Module NameFacts.
Import Py Matching.

Section Shape.
Variable U : Unicode.

Lemma rstrip_last (s r : str) (c : N) : rstrip U s = r ++ [c] -> isspace U c = false.
Proof.
  revert r. induction s as [|c0 s' IH]; intros r; simpl.
  - by destruct r.
  - destruct (rstrip U s') as [|c1 r1] eqn:E.
    + destruct (isspace U c0) eqn:E0; [by destruct r|].
      destruct r as [|? [|]]; intros [=]; by subst.
    + destruct r as [|c2 r2]; [intros [=]; by destruct r1|].
      intros [= -> Hr]. by apply (IH r2).
Qed.

Lemma single_spaced_app (b : bool) (s t : str) :
  single_spaced U b (s ++ t) -> exists b', single_spaced U b' t.
Proof.
  revert b. induction s as [|c r IH]; intros b; simpl; [eauto|].
  destruct (isspace U c); [intros (_ & _ & Hr)|intros Hr]; by eapply IH.
Qed.
End Shape.

(** X20: a normalized name is made of ASCII letters and single spaces,
    and neither starts nor ends with a space. *)
Theorem normalize_output_shape (U : Unicode) (L : AsciiLaws U) (x : str) :
  let y := normalize U x in
  Forall (fun c => is_ascii_letter c = true \/ c = 32%N) y
  /\ (forall r, y <> 32%N :: r)
  /\ (forall r, y <> r ++ [32%N])
  /\ (forall a b, y <> a ++ [32%N; 32%N] ++ b).
Proof.
  intros y. destruct (MatchingFacts.normalize_shape U L x) as (Hc & Hs & Hstrip).
  fold y in Hc, Hs, Hstrip. pose proof (space_isspace U L) as Hsp. split_and!.
  - eapply Forall_impl; [exact Hc|]. intros c. unfold letter_or_space.
    rewrite orb_true_iff, N.eqb_eq. tauto.
  - intros r Hy. unfold strip in Hstrip. rewrite Hy in Hstrip at 2.
    apply MatchingFacts.rstrip_head in Hstrip as [r0 Hl].
    pose proof (MatchingFacts.lstrip_head U y) as Hh. rewrite Hl in Hh. congruence.
  - intros r Hy. unfold strip in Hstrip. rewrite Hy in Hstrip at 2.
    apply rstrip_last in Hstrip. congruence.
  - intros a b Hy. rewrite Hy in Hs.
    apply single_spaced_app in Hs as [b' Hs]. simpl in Hs. rewrite Hsp in Hs.
    destruct Hs as (_ & _ & _ & ? & _). done.
Qed.

Lemma normalize_output_shape_witness :
  let y := normalize latin1 (cp "  Sra.  Mar" ++ [237%N] ++ cp "a-Jos" ++ [233%N] ++ cp "  ") in
  Forall (fun c => is_ascii_letter c = true \/ c = 32%N) y
  /\ (forall r, y <> 32%N :: r)
  /\ (forall r, y <> r ++ [32%N])
  /\ (forall a b, y <> a ++ [32%N; 32%N] ++ b).
Proof.
  exact (normalize_output_shape latin1 MatchingFacts.latin1_laws
           (cp "  Sra.  Mar" ++ [237%N] ++ cp "a-Jos" ++ [233%N] ++ cp "  ")).
Defined.

(** *** N-grams *)

Lemma char_ngrams_infix (s : str) (n : Z) :
  0 < n ->
  (n < len s ->
     len (char_ngrams s n) = len s - n + 1
     /\ forall g, g ∈ char_ngrams s n <->
          len g = n /\ exists pre post, s = pre ++ g ++ post)
  /\ (len s <= n -> char_ngrams s n = if decide (s = []) then [] else [s]).
Proof.
  intros Hn. split.
  - intros Hlen. rewrite MatchingFacts.char_ngrams_unpadded by done.
    destruct s as [|c0 r0] eqn:E; [unfold len in Hlen; simpl in Hlen; lia|]. rewrite <- E in *.
    destruct (Z.leb_spec (len s) n); [lia|]. split.
    + unfold len, range in *. rewrite length_map, length_map, length_seq. lia.
    + intros g. rewrite list_elem_of_fmap. split.
      * intros (i & -> & Hi%PyFacts.elem_of_range). split.
        -- unfold len in *. rewrite length_take, length_drop. lia.
        -- exists (take (Z.to_nat i) s), (drop (Z.to_nat n) (drop (Z.to_nat i) s)).
           by rewrite take_drop, take_drop.
      * intros (Hg & pre & post & Hs). exists (len pre). split.
        -- unfold len. rewrite Nat2Z.id, Hs, drop_app_length.
           rewrite take_app_length'; [done|]. unfold len in Hg. lia.
        -- apply PyFacts.elem_of_range. rewrite Hs. unfold len in *.
           rewrite !length_app. lia.
  - intros Hlen. unfold char_ngrams. destruct s as [|c r]; [done|].
    rewrite decide_False by done. by destruct (Z.leb_spec (len (c :: r)) n); [|lia].
Qed.

(** X21: for [0 < n < len(s)] the n-grams of [s] are its substrings of
    length [n], one per position; a string of length [n] or less is its
    own only gram, and the empty string has none. *)
Theorem char_ngrams_are_substrings (s : str) (n : Z) :
  0 < n ->
  (n < len s ->
     len (char_ngrams s n) = len s - n + 1
     /\ forall g, g ∈ char_ngrams s n <->
          len g = n /\ exists pre post, s = pre ++ g ++ post)
  /\ (len s <= n -> char_ngrams s n = if decide (s = []) then [] else [s]).
Proof. apply char_ngrams_infix. Qed.

Lemma char_ngrams_are_substrings_witness :
  0 < 3
  /\ (3 < len (cp "juan") ->
        len (char_ngrams (cp "juan") 3) = len (cp "juan") - 3 + 1
        /\ forall g, g ∈ char_ngrams (cp "juan") 3 <->
             len g = 3 /\ exists pre post, cp "juan" = pre ++ g ++ post).
Proof.
  assert (Hn : 0 < 3) by lia.
  split; [exact Hn|]. exact (proj1 (char_ngrams_are_substrings (cp "juan") 3 Hn)).
Defined.

(** *** The earlier module *)

Section Scoring.
Variables token_set_ratio ratio : str -> str -> Q.

End Scoring.


(** X23: the earlier [char_ngrams] raises [ValueError] for [n <= 0];
    otherwise it returns a set that is never empty: the padded text alone
    when that is shorter than [n], else its substrings of length [n],
    among them every gram that the newer function makes of a text longer
    than [n]. *)
Theorem earlier_char_ngrams (text : str) (n : Z) :
  let t := [32%N] ++ text ++ [32%N] in
  (n <= 0 -> CodeMatching.char_ngrams text n = Raise ValueError)
  /\ (0 < n ->
      exists grams,
        CodeMatching.char_ngrams text n = Ok grams
        /\ grams <> ∅
        /\ (len t < n -> grams = {[ t ]})
        /\ (n <= len t ->
            forall g, g ∈ grams <-> len g = n /\ exists pre post, t = pre ++ g ++ post)
        /\ (n < len text -> forall g, g ∈ char_ngrams text n -> g ∈ grams)).
Proof.
  intros t. unfold CodeMatching.char_ngrams. fold t. split.
  - intros Hn. by destruct (Z.leb_spec n 0); [|lia].
  - intros Hn. destruct (Z.leb_spec n 0); [lia|].
    assert (Hinfix : n <= len t ->
      forall g, g ∈ map (fun i => slice t i (i + n)) (range (len t - n + 1))
        <-> len g = n /\ exists pre post, t = pre ++ g ++ post).
    { intros Hlen g. rewrite list_elem_of_fmap. split.
      - intros (i & -> & Hi%PyFacts.elem_of_range).
        rewrite PyFacts.slice_take_drop by lia. split.
        + unfold len in *. rewrite length_take, length_drop. lia.
        + exists (take (Z.to_nat i) t), (drop (Z.to_nat n) (drop (Z.to_nat i) t)).
          by rewrite take_drop, take_drop.
      - intros (Hg & pre & post & Ht). exists (len pre).
        assert (Hi : 0 <= len pre < len t - n + 1).
        { rewrite Ht. unfold len in *. rewrite !length_app. lia. }
        split; [|by apply PyFacts.elem_of_range].
        rewrite PyFacts.slice_take_drop by lia.
        unfold len. rewrite Nat2Z.id. rewrite Ht at 1. rewrite drop_app_length.
        rewrite take_app_length'; [done|]. unfold len in Hg. lia. }
    destruct (Z.ltb_spec (len t) n) as [Hshort|Hlong].
    + eexists. split; [done|]. split_and!; [set_solver|done|lia|].
      intros Hlen. unfold t, len in Hshort. rewrite !length_app in Hshort. simpl in Hshort.
      unfold len in Hlen. lia.
    + eexists. split; [done|]. split_and!.
      * intros Hempty.
        assert (Hin : slice t 0 (0 + n) ∈
                      map (fun i => slice t i (i + n)) (range (len t - n + 1))).
        { apply list_elem_of_fmap. exists 0. split; [done|]. apply PyFacts.elem_of_range. lia. }
        apply (elem_of_list_to_set (C := gset str)) in Hin. rewrite Hempty in Hin.
        by apply elem_of_empty in Hin.
      * lia.
      * intros _ g. rewrite elem_of_list_to_set. by apply Hinfix.
      * intros Hlen g Hg. rewrite elem_of_list_to_set. apply Hinfix; [done|].
        apply (proj1 (proj2 (proj1 (char_ngrams_infix text n Hn) Hlen) g)) in Hg
          as (Hlg & pre & post & Htext).
        split; [done|]. exists (32%N :: pre), (post ++ [32%N]). unfold t. rewrite Htext.
        simpl. by rewrite <- !app_assoc.
Qed.

End NameFacts.

(** ** storage copy.py: the repository in its three modes *)

Module RepositoryFacts.
Import Py Storage.

Section Build.
Variable U : Matching.Unicode.
Implicit Types (rows members : list (Z * str)).

Lemma ratio_of_between (a b : Z) : 0 <= a <= b -> (0 <= ratio_of a b <= 1)%Q.
Proof.
  intros [Ha Hb]. unfold ratio_of. destruct (Z.eqb_spec b 0) as [|Hne]; [lra|].
  assert (HbQ : (0 < inject_Z b)%Q) by (change 0%Q with (inject_Z 0); rewrite <- Zlt_Qlt; lia).
  split.
  - apply Qle_shift_div_l; [done|]. rewrite Qmult_0_l.
    change 0%Q with (inject_Z 0). by rewrite <- Zle_Qle.
  - apply Qle_shift_div_r; [done|]. rewrite Qmult_1_l. by rewrite <- Zle_Qle.
Qed.

Lemma keyed_rows_length rows : (length (keyed_rows U rows) <= length rows)%nat.
Proof.
  unfold keyed_rows. induction rows as [|row r IH]; simpl; [done|].
  destruct (negb _); simpl; lia.
Qed.

Lemma elem_of_keyed_rows rows (row : Z * str) :
  row ∈ keyed_rows U rows <-> row ∈ rows /\ Matching.normalize U (snd row) <> [].
Proof.
  unfold keyed_rows. rewrite PyFacts.elem_of_bfilter, negb_true_iff, bool_decide_eq_false.
  done.
Qed.

(** The records of the two modes without grouping: one per row that has
    a key. *)
Lemma one_to_one_records rows :
  omap (fun row : Z * str =>
          match Matching.normalize U (snd row) with
          | [] => None
          | k => Some {| Engine.id := fst row; Engine.full_name := snd row;
                         Engine.normalized_name := k |}
          end) rows
  = map (fun row => {| Engine.id := fst row; Engine.full_name := snd row;
                       Engine.normalized_name := Matching.normalize U (snd row) |})
        (keyed_rows U rows).
Proof.
  unfold keyed_rows, _strict_key. induction rows as [|row r IH]; [done|].
  csimpl. rewrite IH. destruct (Matching.normalize U (snd row)) as [|c k] eqn:E; simpl; [done|].
  by rewrite E.
Qed.

Lemma groups_length rows : (length (group_rows U rows) <= length (keyed_rows U rows))%nat.
Proof.
  rewrite <- StorageFacts.group_rows_total.
  pose proof (StorageFacts.groups_nonempty U rows) as Hne.
  induction Hne as [|g r Hg Hr IH]; simpl; [done|].
  destruct (snd g); [done|]. simpl. lia.
Qed.

Lemma dedupe_build rows :
  build_repository U StandardizedDedupe rows
  = Ok {| records := map record_of (group_rows U rows);
          _LAST_STATS :=
            {| mode := StandardizedDedupe; sot_rows := len rows;
               search_rows := len (map record_of (group_rows U rows));
               dedupe_groups := len (map record_of (group_rows U rows));
               dedupe_ratio := ratio_of (len (map record_of (group_rows U rows))) (len rows) |};
          _GROUP_IDS_BY_REP_ID :=
            foldl (fun m g => <[ Engine.id (record_of g) := member_ids g ]> m) ∅
                  (group_rows U rows) |}.
Proof.
  unfold build_repository.
  by rewrite (StorageFacts.emit_groups_eq (group_rows U rows) [] ∅
                (StorageFacts.groups_nonempty U rows)).
Qed.

Lemma dedupe_record rows (g : str * list (Z * str)) :
  g ∈ group_rows U rows ->
  Engine.normalized_name (record_of g) = fst g
  /\ fst g <> []
  /\ (Engine.id (record_of g), Engine.full_name (record_of g)) ∈ rows
  /\ Matching.normalize U (Engine.full_name (record_of g)) = fst g
  /\ forall m, m ∈ snd g -> Engine.id (record_of g) <= fst m.
Proof.
  destruct g as [k members]. intros Hg.
  apply (proj1 (StorageFacts.elem_of_group_rows U rows k members)) in Hg as (Hk & Hm & Hmem).
  destruct (StorageFacts.record_of_represents (k, members) Hm) as (Hname & Hin & Hmin).
  simpl in *.
  set (rep := representative members) in *.
  assert (Hin' : (fst rep, snd rep) ∈ members_of U k rows) by (by rewrite <- Hmem).
  unfold members_of in Hin'.
  apply PyFacts.elem_of_bfilter in Hin' as [Hrow Hkey]. apply bool_decide_eq_true_1 in Hkey.
  unfold _strict_key in Hkey. simpl in Hkey. split_and!; done.
Qed.

Lemma one_to_one_covers (md : Mode) rows :
  md <> StandardizedDedupe ->
  exists repo,
    build_repository U md rows = Ok repo
    /\ (forall rec, rec ∈ records repo ->
          (Engine.id rec, Engine.full_name rec) ∈ rows
          /\ Engine.normalized_name rec = Matching.normalize U (Engine.full_name rec)
          /\ Engine.normalized_name rec <> [])
    /\ (forall row, row ∈ rows -> Matching.normalize U (snd row) <> [] ->
          exists rec, rec ∈ records repo
            /\ Engine.normalized_name rec = Matching.normalize U (snd row)
            /\ Engine.id rec <= fst row)
    /\ mode (_LAST_STATS repo) = md
    /\ sot_rows (_LAST_STATS repo) = len rows
    /\ search_rows (_LAST_STATS repo) = len (records repo)
    /\ search_rows (_LAST_STATS repo) <= sot_rows (_LAST_STATS repo)
    /\ (0 <= dedupe_ratio (_LAST_STATS repo) <= 1)%Q.
Proof.
  intros Hmd.
  assert (Hb : build_repository U md rows = Ok _) by (destruct md; [reflexivity..|done]).
  eexists. split; [exact Hb|]. cbn [records _LAST_STATS mode sot_rows search_rows dedupe_ratio].
  rewrite one_to_one_records. pose proof (keyed_rows_length rows) as Hlen.
  set (recs := map _ (keyed_rows U rows)).
  assert (Hle : len recs <= len rows) by (unfold recs, len; rewrite length_map; lia).
  assert (Hratio : (0 <= ratio_of (len recs) (len rows) <= 1)%Q)
    by (apply ratio_of_between; unfold len in *; lia).
  destruct Hratio. split_and!; try done.
  - intros rec (row & -> & [Hrow Hkey]%elem_of_keyed_rows)%list_elem_of_fmap. simpl.
    split_and!; [by destruct row|done|done].
  - intros row Hrow Hkey. eexists. split.
    + apply list_elem_of_fmap. exists row. split; [done|]. by apply elem_of_keyed_rows.
    + simpl. split; [done|lia].
Qed.

Lemma dedupe_covers rows :
  let md := StandardizedDedupe in
  exists repo,
    build_repository U md rows = Ok repo
    /\ (forall rec, rec ∈ records repo ->
          (Engine.id rec, Engine.full_name rec) ∈ rows
          /\ Engine.normalized_name rec = Matching.normalize U (Engine.full_name rec)
          /\ Engine.normalized_name rec <> [])
    /\ (forall row, row ∈ rows -> Matching.normalize U (snd row) <> [] ->
          exists rec, rec ∈ records repo
            /\ Engine.normalized_name rec = Matching.normalize U (snd row)
            /\ Engine.id rec <= fst row)
    /\ mode (_LAST_STATS repo) = md
    /\ sot_rows (_LAST_STATS repo) = len rows
    /\ search_rows (_LAST_STATS repo) = len (records repo)
    /\ search_rows (_LAST_STATS repo) <= sot_rows (_LAST_STATS repo)
    /\ (0 <= dedupe_ratio (_LAST_STATS repo) <= 1)%Q.
Proof.
  intros md. unfold md. rewrite dedupe_build. eexists. split; [done|].
  cbn [records _LAST_STATS mode sot_rows search_rows dedupe_ratio].
  pose proof (keyed_rows_length rows) as Hlen. pose proof (groups_length rows) as Hg.
  assert (Hle : len (map record_of (group_rows U rows)) <= len rows)
    by (unfold len; rewrite length_map; lia).
  assert (Hratio : (0 <= ratio_of (len (map record_of (group_rows U rows))) (len rows) <= 1)%Q)
    by (apply ratio_of_between; unfold len in *; lia).
  destruct Hratio. split_and!; try done.
  - intros rec (g & -> & Hg')%list_elem_of_fmap.
    destruct (dedupe_record rows g Hg') as (Hname & Hk & Hrow & Hnorm & _).
    split_and!; [done|congruence|congruence].
  - intros row Hrow Hkey.
    set (k := Matching.normalize U (snd row)) in *.
    assert (Hmem : row ∈ members_of U k rows).
    { apply PyFacts.elem_of_bfilter. split; [done|]. by apply bool_decide_eq_true_2. }
    assert (Hin : (k, members_of U k rows) ∈ group_rows U rows).
    { apply StorageFacts.elem_of_group_rows. split_and!; [done| |done].
      intros Hnil. rewrite Hnil in Hmem. by apply elem_of_nil in Hmem. }
    destruct (dedupe_record rows _ Hin) as (Hname & _ & _ & _ & Hmin).
    exists (record_of (k, members_of U k rows)). split_and!.
    + apply list_elem_of_fmap. by eexists.
    + done.
    + by apply Hmin.
Qed.

Lemma build_covers (md : Mode) rows :
  exists repo,
    build_repository U md rows = Ok repo
    /\ (forall rec, rec ∈ records repo ->
          (Engine.id rec, Engine.full_name rec) ∈ rows
          /\ Engine.normalized_name rec = Matching.normalize U (Engine.full_name rec)
          /\ Engine.normalized_name rec <> [])
    /\ (forall row, row ∈ rows -> Matching.normalize U (snd row) <> [] ->
          exists rec, rec ∈ records repo
            /\ Engine.normalized_name rec = Matching.normalize U (snd row)
            /\ Engine.id rec <= fst row)
    /\ mode (_LAST_STATS repo) = md
    /\ sot_rows (_LAST_STATS repo) = len rows
    /\ search_rows (_LAST_STATS repo) = len (records repo)
    /\ search_rows (_LAST_STATS repo) <= sot_rows (_LAST_STATS repo)
    /\ (0 <= dedupe_ratio (_LAST_STATS repo) <= 1)%Q.
Proof.
  destruct md; [by apply one_to_one_covers..|apply dedupe_covers].
Qed.

(** X24: in every mode the repository is built without error; each of
    its records stands for a row of the data set, under the normalized
    form of its own name, which is not empty; each row with a non-empty
    normalized name is covered by a record of that normalized name whose
    id is not greater; and the statistics count the rows and the records,
    with a ratio between 0 and 1. *)
Theorem repository_covers_rows (md : Mode) rows :
  exists repo,
    build_repository U md rows = Ok repo
    /\ (forall rec, rec ∈ records repo ->
          (Engine.id rec, Engine.full_name rec) ∈ rows
          /\ Engine.normalized_name rec = Matching.normalize U (Engine.full_name rec)
          /\ Engine.normalized_name rec <> [])
    /\ (forall row, row ∈ rows -> Matching.normalize U (snd row) <> [] ->
          exists rec, rec ∈ records repo
            /\ Engine.normalized_name rec = Matching.normalize U (snd row)
            /\ Engine.id rec <= fst row)
    /\ mode (_LAST_STATS repo) = md
    /\ sot_rows (_LAST_STATS repo) = len rows
    /\ search_rows (_LAST_STATS repo) = len (records repo)
    /\ search_rows (_LAST_STATS repo) <= sot_rows (_LAST_STATS repo)
    /\ (0 <= dedupe_ratio (_LAST_STATS repo) <= 1)%Q.
Proof. apply build_covers. Qed.

(** X25: without deduplication the records are the rows that have a
    non-empty normalized name, in the order of the data set and with their
    own ids and names; no group is recorded. *)
Theorem one_to_one_repository (md : Mode) rows :
  md <> StandardizedDedupe ->
  exists repo,
    build_repository U md rows = Ok repo
    /\ map (fun rec => (Engine.id rec, Engine.full_name rec)) (records repo)
       = List.filter (fun row => negb (bool_decide (Matching.normalize U (snd row) = []))) rows
    /\ dedupe_groups (_LAST_STATS repo) = 0
    /\ forall rep, get_group_ids repo rep = None.
Proof.
  intros Hmd.
  assert (Hb : build_repository U md rows = Ok _) by (destruct md; [reflexivity..|done]).
  eexists. split; [exact Hb|]. cbn [records _LAST_STATS dedupe_groups].
  rewrite one_to_one_records, map_map. simpl. split_and!; [|done|done].
  unfold keyed_rows, _strict_key. rewrite <- (map_id (List.filter _ rows)) at 2.
  apply map_ext. by intros [i name].
Qed.

(** X26: with deduplication no two records have the same normalized name,
    there are as many records as groups, and when the ids of the rows are
    distinct so are those of the records. *)
Theorem dedupe_names_distinct rows :
  exists repo,
    build_repository U StandardizedDedupe rows = Ok repo
    /\ NoDup (map Engine.normalized_name (records repo))
    /\ (forall row, row ∈ rows -> Matching.normalize U (snd row) <> [] ->
          exists rec, rec ∈ records repo
            /\ Engine.normalized_name rec = Matching.normalize U (snd row)
            /\ forall rec', rec' ∈ records repo ->
                 Engine.normalized_name rec' = Matching.normalize U (snd row) -> rec' = rec)
    /\ dedupe_groups (_LAST_STATS repo) = len (records repo)
    /\ (NoDup (map fst rows) -> NoDup (map Engine.id (records repo))).
Proof.
  rewrite dedupe_build. eexists. split; [done|].
  cbn [records _LAST_STATS dedupe_groups].
  assert (Hnames : NoDup (map Engine.normalized_name (map record_of (group_rows U rows)))).
  { rewrite map_map. simpl. apply (StorageFacts.group_rows_NoDup U rows). }
  split_and!; [done| |done|].
  - intros row Hrow Hkey.
    set (k := Matching.normalize U (snd row)) in *.
    assert (Hmem : row ∈ members_of U k rows).
    { apply PyFacts.elem_of_bfilter. split; [done|]. by apply bool_decide_eq_true_2. }
    assert (Hin : (k, members_of U k rows) ∈ group_rows U rows).
    { apply StorageFacts.elem_of_group_rows. split_and!; [done| |done].
      intros Hnil. rewrite Hnil in Hmem. by apply elem_of_nil in Hmem. }
    exists (record_of (k, members_of U k rows)). split_and!.
    + apply list_elem_of_fmap. by eexists.
    + done.
    + intros rec' Hrec' Hname.
      apply (EngineMore.NoDup_fmap_elem_inj Engine.normalized_name _ _ _ Hnames); [done| |done].
      apply list_elem_of_fmap. by eexists.
  - intros Hids. rewrite map_map. by apply StorageFacts.representatives_distinct.
Qed.
End Build.

Lemma one_to_one_repository_witness :
  let rows : list (Z * str) := [ (3, Example.juan_perez); (5, cp "?"); (1, cp "Dr. Ana") ] in
  Original <> StandardizedDedupe
  /\ exists repo,
       build_repository Matching.latin1 Original rows = Ok repo
       /\ map (fun rec => (Engine.id rec, Engine.full_name rec)) (records repo)
          = List.filter
              (fun row => negb (bool_decide (Matching.normalize Matching.latin1 (snd row) = [])))
              rows
       /\ dedupe_groups (_LAST_STATS repo) = 0
       /\ forall rep, get_group_ids repo rep = None.
Proof.
  intros rows.
  assert (Hmd : Original <> StandardizedDedupe) by done.
  split; [exact Hmd|]. exact (one_to_one_repository Matching.latin1 Original rows Hmd).
Defined.

End RepositoryFacts.

(** ** storage.py: the records read from the CSV file *)

Module CsvFacts.
Import Py CsvStorage.

Section Build.
Variable U : Matching.Unicode.
Variable int_of_str : str -> option Z.

Lemma record_of_row_ok (mode : Storage.Mode) (r : Row) (rec : Engine.NameRecord) :
  record_of_row U int_of_str mode r = Ok rec <->
  get_first r name_columns = Some (Engine.full_name rec)
  /\ (exists raw_id, get_first r id_columns = Some raw_id
        /\ int_of_str (Matching.strip U raw_id) = Some (Engine.id rec))
  /\ Engine.normalized_name rec
     = match mode with
       | Storage.Original => Matching.normalize U (Engine.full_name rec)
       | _ => default (Matching.normalize U (Engine.full_name rec))
                      (get_first r [cp "strict_key"])
       end.
Proof.
  unfold record_of_row.
  destruct (get_first r id_columns) as [raw_id|]; [|split; [done|by intros (_ & (? & ? & _) & _)]].
  destruct (get_first r name_columns) as [raw_name|]; [|split; [done|by intros (? & _)]].
  destruct (int_of_str (Matching.strip U raw_id)) as [rid|] eqn:Hid.
  - split.
    + intros [= <-]. simpl. split_and!; [done|by eexists|].
      by destruct mode; [|destruct (get_first r [cp "strict_key"])..].
    + intros (Hname & (raw & [= <-] & Hrid) & Hnorm). destruct rec as [i f n]. simpl in *.
      injection Hname as ->. rewrite Hid in Hrid. injection Hrid as ->. do 2 f_equal.
      rewrite Hnorm. by destruct mode; [|destruct (get_first r [cp "strict_key"])..].
  - split; [done|]. intros (_ & (raw & [= <-] & Hrid) & _). congruence.
Qed.

Lemma record_of_row_error (mode : Storage.Mode) (r : Row) (x : exn) :
  record_of_row U int_of_str mode r = Raise x -> x = ValueError.
Proof.
  unfold record_of_row.
  destruct (get_first r id_columns) as [raw_id|]; [|by intros [= <-]].
  destruct (get_first r name_columns) as [raw_name|]; [|by intros [= <-]].
  destruct (int_of_str (Matching.strip U raw_id)); [done|by intros [= <-]].
Qed.

Lemma build_records_ok (mode : Storage.Mode) (rows : list Row) (recs : list Engine.NameRecord) :
  _build_records_from_csv U int_of_str rows mode = Ok recs <->
  Forall2 (fun r rec => record_of_row U int_of_str mode r = Ok rec) rows recs.
Proof.
  revert recs. induction rows as [|r rows IH]; intros recs; simpl.
  - split; [intros [= <-]; constructor|]. by intros ->%Forall2_nil_inv_l.
  - destruct (record_of_row U int_of_str mode r) as [rec|x] eqn:Hr; simpl.
    + destruct (_build_records_from_csv U int_of_str rows mode) as [recs'|x] eqn:Hrs; simpl.
      * split.
        -- intros [= <-]. constructor; [done|]. by apply IH.
        -- intros (rec' & recs'' & Hrec & Hrecs & ->)%Forall2_cons_inv_l.
           apply IH in Hrecs. congruence.
      * split; [done|].
        intros (rec' & recs'' & Hrec & Hrecs & ->)%Forall2_cons_inv_l.
        apply (IH recs'') in Hrecs. congruence.
    + split; [done|]. intros (rec' & recs'' & Hrec & _)%Forall2_cons_inv_l. congruence.
Qed.

Lemma build_records_error (mode : Storage.Mode) (rows : list Row) (x : exn) :
  _build_records_from_csv U int_of_str rows mode = Raise x -> x = ValueError.
Proof.
  induction rows as [|r rows IH]; simpl; [done|].
  destruct (record_of_row U int_of_str mode r) as [rec|x'] eqn:Hr; simpl.
  - destruct (_build_records_from_csv U int_of_str rows mode) as [recs'|x'']; simpl; [done|].
    intros [= <-]. by apply IH.
  - intros [= <-]. by apply record_of_row_error in Hr.
Qed.

Lemma build_records_modes (rows : list Row) :
  _build_records_from_csv U int_of_str rows Storage.StandardizedDedupe
  = _build_records_from_csv U int_of_str rows Storage.Standardized.
Proof. induction rows as [|r rows IH]; simpl; [done|]. by rewrite IH. Qed.

Lemma build_records_loadable (mode : Storage.Mode) (rows : list Row) :
  Forall (fun r => exists raw_id raw_name rid,
            get_first r id_columns = Some raw_id /\ get_first r name_columns = Some raw_name
            /\ int_of_str (Matching.strip U raw_id) = Some rid) rows ->
  exists recs,
    _build_records_from_csv U int_of_str rows mode = Ok recs
    /\ Forall2 (fun r rec => record_of_row U int_of_str mode r = Ok rec) rows recs.
Proof.
  intros Hrows.
  assert (Hex : exists recs,
    Forall2 (fun r rec => record_of_row U int_of_str mode r = Ok rec) rows recs).
  { induction Hrows as [|r rows' (raw_id & raw_name & rid & Hid & Hname & Hrid) _ IH].
    - exists []. constructor.
    - destruct IH as [recs Hrecs].
      destruct (record_of_row U int_of_str mode r) as [rec|x] eqn:Hr.
      + exists (rec :: recs). by constructor.
      + exfalso. unfold record_of_row in Hr. by rewrite Hid, Hname, Hrid in Hr. }
  destruct Hex as [recs Hrecs]. exists recs. split; [by apply build_records_ok|done].
Qed.

Lemma Forall2_elem_of_right {A B} (P : A -> B -> Prop) (l : list A) (k : list B) (y : B) :
  Forall2 P l k -> y ∈ k -> exists x, x ∈ l /\ P x y.
Proof.
  induction 1 as [|x y' l k Hxy Hlk IH]; [by intros ?%elem_of_nil|].
  intros [->|Hy]%elem_of_cons.
  - exists x. split; [by left|done].
  - destruct (IH Hy) as (x' & Hx' & HP). exists x'. split; [by right|done].
Qed.

(** X27: the records are read all or none: when every row has an id
    column and a name column with a value, and the id is an integer, there
    is one record per row, in the order of the file, with the id and the
    name of its row, normalized by [normalize], or by the [strict_key]
    column when a mode other than [original] finds one; any other file
    raises [ValueError].  The mode [standardized+dedupe] reads the same
    records as [standardized]: no row is merged with another. *)
Theorem csv_records_one_per_row (mode : Storage.Mode) (rows : list Row) :
  let loadable (r : Row) :=
    exists raw_id raw_name rid,
      get_first r id_columns = Some raw_id /\ get_first r name_columns = Some raw_name
      /\ int_of_str (Matching.strip U raw_id) = Some rid in
  (Forall loadable rows ->
     exists recs,
       _build_records_from_csv U int_of_str rows mode = Ok recs
       /\ Forall2 (fun r rec =>
            get_first r name_columns = Some (Engine.full_name rec)
            /\ (exists raw_id, get_first r id_columns = Some raw_id
                  /\ int_of_str (Matching.strip U raw_id) = Some (Engine.id rec))
            /\ Engine.normalized_name rec
               = match mode with
                 | Storage.Original => Matching.normalize U (Engine.full_name rec)
                 | _ => default (Matching.normalize U (Engine.full_name rec))
                                (get_first r [cp "strict_key"])
                 end) rows recs)
  /\ (~ Forall loadable rows ->
      _build_records_from_csv U int_of_str rows mode = Raise ValueError)
  /\ _build_records_from_csv U int_of_str rows Storage.StandardizedDedupe
     = _build_records_from_csv U int_of_str rows Storage.Standardized.
Proof.
  intros loadable.
  assert (Hok : forall recs,
    _build_records_from_csv U int_of_str rows mode = Ok recs -> Forall loadable rows).
  { intros recs Hrecs%build_records_ok. induction Hrecs as [|r rec rows' recs' Hr _ IH];
      constructor; [|done].
    apply record_of_row_ok in Hr as (Hname & (raw_id & Hid & Hrid) & _).
    by exists raw_id, (Engine.full_name rec), (Engine.id rec). }
  split_and!; [| |apply build_records_modes].
  - intros Hrows. destruct (build_records_loadable mode rows Hrows) as (recs & Hb & Hrecs).
    exists recs. split; [done|].
    eapply Forall2_impl; [exact Hrecs|]. intros r rec Hr. by apply record_of_row_ok.
  - intros Hbad.
    destruct (_build_records_from_csv U int_of_str rows mode) as [recs|x] eqn:Hb.
    + exfalso. by apply Hbad, (Hok recs).
    + by rewrite (build_records_error mode rows x Hb).
Qed.

Section Service.
Variables token_set_ratio ratio : str -> str -> Q.

(** X28: before start-up an accepted request fails with
    [AssertionError]; once the service is started on a file that loads,
    every accepted request is answered, and each result carries the id and
    the name of one row of the file. *)
Theorem served_results_come_from_rows (rows : list Row) (mode : Storage.Mode)
    (ngram_n max_candidates : Z) (now : Q) (cap : Z)
    (reqs : list Session.Request) (r : Session.Request) :
  Forall (fun row => exists raw_id raw_name rid,
            get_first row id_columns = Some raw_id
            /\ get_first row name_columns = Some raw_name
            /\ int_of_str (Matching.strip U raw_id) = Some rid) rows ->
  Session.accepted r = true ->
  fst (Session.handle U token_set_ratio ratio None (Session.initial now cap) r)
    = Raise AssertionError
  /\ exists engine,
       startup U int_of_str rows mode ngram_n max_candidates = Ok engine
       /\ exists p,
            fst (Session.handle U token_set_ratio ratio engine
                   (Session.serve U token_set_ratio ratio engine
                      (Session.initial now cap) reqs) r) = Ok p
            /\ forall h, h ∈ App.results p ->
                 exists row raw_id,
                   row ∈ rows
                   /\ get_first row name_columns = Some (App.h_name h)
                   /\ get_first row id_columns = Some raw_id
                   /\ int_of_str (Matching.strip U raw_id) = Some (App.h_id h).
Proof.
  intros Hrows Hacc. split.
  - by rewrite ServeFacts.handle_cases, Hacc.
  - destruct (build_records_loadable mode rows Hrows) as (recs & Hb & Hrecs).
    unfold startup. rewrite Hb. eexists. split; [reflexivity|].
    destruct (ServeFacts.response_of_search U token_set_ratio ratio recs
                {| Engine.ngram_n := ngram_n; Engine.max_candidates := max_candidates |}
                now cap reqs r Hacc) as (p & Hp & _ & _ & Hhits & _).
    exists p. split; [done|]. intros h Hh.
    destruct (Hhits h Hh) as [(rec & Hrec & Hid & Hname) _].
    destruct (Forall2_elem_of_right _ _ _ _ Hrecs Hrec) as (row & Hrow & Hrec').
    apply record_of_row_ok in Hrec' as (Hn & (raw_id & Hi & Hrid) & _).
    exists row, raw_id. split_and!; [done| |done|]; congruence.
Qed.
End Service.
End Build.

Lemma served_results_come_from_rows_witness :
  let rows : list Row :=
    [ [ (cp "ID", Some (cp " 7 ")); (cp "Full Name", Some Example.juan_perez) ];
      [ (cp "ID", Some (cp "9")); (cp "Full Name", Some Example.perez_juan) ] ] in
  let r := {| Session.name := cp "Juan Perez"; Session.threshold := 70; Session.limit := 10;
              Session.w_token := 13 # 20; Session.explain := false;
              Session.include_by_id := true; Session.latency_ms := 3 |} in
  Forall (fun row => exists raw_id raw_name rid,
            get_first row id_columns = Some raw_id
            /\ get_first row name_columns = Some raw_name
            /\ int_of_decimal (Matching.strip Matching.latin1 raw_id) = Some rid) rows
  /\ Session.accepted r = true
  /\ fst (Session.handle Matching.latin1 Fuzz.token_set_ratio Fuzz.ratio None
             (Session.initial 0 256) r) = Raise AssertionError.
Proof.
  intros rows r.
  assert (Hrows : Forall (fun row => exists raw_id raw_name rid,
            get_first row id_columns = Some raw_id
            /\ get_first row name_columns = Some raw_name
            /\ int_of_decimal (Matching.strip Matching.latin1 raw_id) = Some rid) rows).
  { repeat constructor.
    - exists (cp " 7 "), Example.juan_perez, 7. by vm_compute.
    - exists (cp "9"), Example.perez_juan, 9. by vm_compute. }
  assert (Hacc : Session.accepted r = true) by (by vm_compute).
  split; [exact Hrows|]. split; [exact Hacc|].
  exact (proj1 (served_results_come_from_rows Matching.latin1 int_of_decimal
                  Fuzz.token_set_ratio Fuzz.ratio rows Storage.Original 3 2000 0 256 []
                  r Hrows Hacc)).
Defined.

End CsvFacts.

(** ** The earlier matching module: normalize *)

Module CodeNormalizeFacts.
Import Py Matching.

Section Words.
Variable U : Unicode.

Lemma split_from_words (cur s : str) :
  Forall (fun c => isspace U c = false) cur ->
  Forall (fun w => w <> [] /\ Forall (fun c => isspace U c = false) w)
         (CodeNormalize.split_from U cur s).
Proof.
  revert cur. induction s as [|c r IH]; intros cur Hcur; simpl.
  - destruct cur; [constructor|]. apply Forall_singleton. by split.
  - destruct (isspace U c) eqn:Ec.
    + destruct cur as [|x cur']; [by apply IH|].
      constructor; [done|]. by apply IH.
    + apply IH. apply Forall_app. split; [done|]. by apply Forall_singleton.
Qed.

Lemma rstrip_fixed_tail (c : N) (r : str) :
  rstrip U (c :: r) = c :: r -> rstrip U r = r /\ (r = [] -> isspace U c = false).
Proof.
  simpl. destruct (rstrip U r) as [|c' r'] eqn:E.
  - destruct (isspace U c); [done|]. intros [= <-]. by split.
  - intros [= <-]. by split.
Qed.

(** A text whose white space is single spaces between words is the
    join of its words. *)
Lemma join_split_fixed (s cur : str) (b : bool) :
  Forall (fun c => isspace U c = false) cur ->
  single_spaced U b s -> rstrip U s = s ->
  (cur = [] -> match s with c :: _ => isspace U c = false | [] => True end) ->
  Fuzz.join (CodeNormalize.split_from U cur s) = cur ++ s.
Proof.
  revert cur b. induction s as [|c r IH]; intros cur b Hcur Hs Hr Hhead.
  - simpl. destruct cur; [done|]. by rewrite app_nil_r.
  - apply rstrip_fixed_tail in Hr as [Hr Hlast]. cbn [CodeNormalize.split_from].
    cbn [single_spaced] in Hs. destruct (isspace U c) eqn:Ec.
    + destruct Hs as (-> & -> & Hs).
      destruct cur as [|x cur']; [by specialize (Hhead eq_refl)|].
      destruct r as [|c' r']; [by specialize (Hlast eq_refl)|].
      assert (Hc' : isspace U c' = false).
      { simpl in Hs. destruct (isspace U c'); [by destruct Hs as (_ & ? & _)|done]. }
      pose proof (IH [] true (Forall_nil_2 _) Hs Hr (fun _ => Hc')) as Hjoin.
      destruct (CodeNormalize.split_from U [] (c' :: r')) as [|t ts] eqn:Et; [done|].
      change (Fuzz.join ((x :: cur') :: t :: ts))
        with ((x :: cur') ++ 32%N :: Fuzz.join (t :: ts)).
      by rewrite Hjoin.
    + rewrite (IH (cur ++ [c]) false); [by rewrite <- app_assoc| |done|done|].
      * apply Forall_app. split; [done|]. by apply Forall_singleton.
      * intros Hnil. apply app_eq_nil in Hnil as [_ Hnil]. done.
Qed.
End Words.

(** X29: the earlier [normalize] returns words, none empty and none with
    white space in it, joined by single spaces; a name that the strict
    [normalize] has produced, with no upper-case letter in it, is left
    unchanged by the earlier one. *)
Theorem earlier_normalize_words (U : Unicode) (L : AsciiLaws U) (x : str) :
  (exists words,
     CodeNormalize.normalize U x = Fuzz.join words
     /\ Forall (fun w => w <> [] /\ Forall (fun c => isspace U c = false) w) words)
  /\ (Forall (fun c => is_ascii_upper c = false) (normalize U x) ->
      CodeNormalize.normalize U (normalize U x) = normalize U x).
Proof.
  split.
  - eexists. split; [reflexivity|]. by apply split_from_words.
  - intros Hu. destruct (MatchingFacts.normalize_shape U L x) as (Hc & Hs & Hstrip).
    set (y := normalize U x) in *. unfold CodeNormalize.normalize.
    rewrite Hstrip, (MatchingFacts.lower_fixed U L y Hc Hu).
    pose proof (MatchingFacts.strip_accents_fixed U L y Hc) as Hacc.
    unfold strip_accents in Hacc. rewrite Hacc.
    unfold CodeNormalize.split. rewrite (join_split_fixed U y [] false); [done|done|done| |].
    + unfold strip in Hstrip. rewrite <- Hstrip at 1.
      rewrite MatchingFacts.rstrip_idem. done.
    + intros _. destruct y as [|c r] eqn:Ey; [done|]. unfold strip in Hstrip.
      apply MatchingFacts.rstrip_head in Hstrip as [r0 Hl].
      pose proof (MatchingFacts.lstrip_head U (c :: r)) as Hh. by rewrite Hl in Hh.
Qed.

Lemma earlier_normalize_words_witness :
  let x := cp "  Mar" ++ [237%N] ++ cp "a   Jos" ++ [233%N] ++ cp " " in
  (exists words,
     CodeNormalize.normalize latin1 x = Fuzz.join words
     /\ Forall (fun w => w <> [] /\ Forall (fun c => isspace latin1 c = false) w) words)
  /\ (Forall (fun c => is_ascii_upper c = false) (normalize latin1 x) ->
      CodeNormalize.normalize latin1 (normalize latin1 x) = normalize latin1 x).
Proof.
  exact (earlier_normalize_words latin1 MatchingFacts.latin1_laws
           (cp "  Mar" ++ [237%N] ++ cp "a   Jos" ++ [233%N] ++ cp " ")).
Defined.

End CodeNormalizeFacts.
